(** * MinimaLang: the three minimal Lisp interpreters, embedded in Rocq

    The repository holds three prototypes of one small Lisp dialect:
    [lisp.py] (module [Lisp1] below), [lisp2.py] ([Lisp2]) and [lisp3.py]
    ([Lisp3]).  Each is embedded as it is written: parsed expressions and
    run-time values share one type, environments are host dictionaries
    living in a store of mutable objects, and every host exception a
    function can raise is a result of its embedding. *)

From Stdlib Require Import ZArith List String Ascii Bool Lia.
From Stdlib Require Import Decimal DecimalString DecimalPos.
Import ListNotations.
Open Scope string_scope.
Open Scope Z_scope.

(** ** The host: exceptions, results, values *)

(** The exceptions the three files raise themselves, and those the host
    raises under them.  The constructor keeps the message's meaning. *)
Inductive exn : Type :=
| SyntaxError_EOF            (* SyntaxError("unexpected EOF ...") *)
| SyntaxError_EOF_list       (* lisp2: "unexpected EOF while reading list" *)
| SyntaxError_close_paren    (* SyntaxError("unexpected )") *)
| SyntaxError_cond_clause    (* lisp2: "cond clauses must be (test expr) pairs" *)
| NameError_undefined (x : string)  (* lisp: f"Undefined symbol: {x}" *)
| NameError_operator         (* lisp2: f"unknown operator: {op}" *)
| TypeError_cons             (* "cons second argument must be a list" *)
| TypeError_arg_count        (* lisp2: "argument count mismatch" *)
| TypeError_prim_arity       (* lisp2: "atom expects 1 arg" and the like *)
| TypeError_not_callable     (* "Not a function: ..." / "... is not callable" *)
| TypeError_host             (* raised by the host: bad operand, bad call *)
| IndexError                 (* list or string index out of range *)
| ValueError_unpack          (* wrong number of values to unpack *)
| KeyError
| AssertionError
| ZeroDivisionError.

(** What a call comes to.  [Unmodelled] marks host behaviour this
    development leaves out (floating point arithmetic, object identity,
    output); [OutOfFuel] is the recursion bound of the embedding. *)
Inductive res (A : Type) : Type :=
| Ok (a : A)
| Raise (e : exn)
| Unmodelled
| OutOfFuel.
Arguments Ok {A} a.
Arguments Raise {A} e.
Arguments Unmodelled {A}.
Arguments OutOfFuel {A}.

Definition addr := nat.

(** One type for parsed syntax and run-time data (the language is
    homoiconic).  A host [str] serves both as symbol and as string; a
    float is carried as the literal that denotes it; a procedure object
    ([Procedure], [Closure] or a nested host function) keeps its parameter
    list, its body and the address of the environment it holds; a native
    procedure is named, with the address of the environment its host
    function closes over. *)
#[warnings="-register-all"]
Inductive value : Type :=
| VInt (z : Z)
| VFloat (lit : string)
| VStr (s : string)
| VBool (b : bool)
| VNone
| VList (l : list value)
| VProc (params body : value) (env : addr)
| VPrim (name : string) (env : addr).

(** [v == []] on the host: only the empty list equals the empty list. *)
Definition eq_nil (v : value) : bool :=
  match v with VList [] => true | _ => false end.

(** [v == 'name'] against a string constant. *)
Definition eq_str (v : value) (name : string) : bool :=
  match v with VStr s => String.eqb s name | _ => false end.

(** [isinstance(v, list)] *)
Definition is_list (v : value) : bool :=
  match v with VList _ => true | _ => false end.

(** [a[i]] on the host. *)
Definition py_index (v : value) (i : nat) : res value :=
  match v with
  | VList l => match nth_error l i with Some x => Ok x | None => Raise IndexError end
  | VStr s => match String.get i s with
              | Some c => Ok (VStr (String c EmptyString))
              | None => Raise IndexError
              end
  | _ => Raise TypeError_host
  end.

(** [a[1:]] on the host. *)
Definition py_tail (v : value) : res value :=
  match v with
  | VList l => Ok (VList (tl l))
  | VStr s => Ok (VStr (match s with EmptyString => EmptyString | String _ r => r end))
  | _ => Raise TypeError_host
  end.

(** ** Characters and strings of the host

    A character is a code point below 256.  [is_space] is the host's
    whitespace test ([str.split], [str.strip] and the regular
    expression class [\s] all use it). *)
Definition is_space (c : ascii) : bool :=
  let n := nat_of_ascii c in
  (((9 <=? n) && (n <=? 13)) || ((28 <=? n) && (n <=? 32))
   || (n =? 133) || (n =? 160))%nat.

(** [s.replace(old, new)] for a one-character [old]. *)
Fixpoint replace_char (old : ascii) (new : string) (s : string) : string :=
  match s with
  | EmptyString => EmptyString
  | String c r =>
      if Ascii.eqb c old then new ++ replace_char old new r
      else String c (replace_char old new r)
  end.

(** [s.split()]: the maximal runs of characters that are not whitespace.
    [cur] is the run being read. *)
Fixpoint split_from (cur : string) (s : string) : list string :=
  match s with
  | EmptyString => match cur with EmptyString => [] | _ => [cur] end
  | String c r =>
      if is_space c
      then match cur with
           | EmptyString => split_from EmptyString r
           | _ => cur :: split_from EmptyString r
           end
      else split_from (cur ++ String c EmptyString) r
  end.

Definition split (s : string) : list string := split_from EmptyString s.

Fixpoint lstrip (s : string) : string :=
  match s with
  | String c r => if is_space c then lstrip r else s
  | EmptyString => EmptyString
  end.

Fixpoint rstrip (s : string) : string :=
  match s with
  | EmptyString => EmptyString
  | String c r =>
      match rstrip r with
      | EmptyString => if is_space c then EmptyString else String c EmptyString
      | r' => String c r'
      end
  end.

(** [s.strip()] *)
Definition strip (s : string) : string := rstrip (lstrip s).

Definition is_digit (c : ascii) : bool :=
  let n := nat_of_ascii c in ((48 <=? n) && (n <=? 57))%nat.

Definition digit_val (c : ascii) : Z := Z.of_nat (nat_of_ascii c - 48).

(** The digits of an integer literal once the first digit is read: more
    digits, single underscores only between two digits.  [acc] is the
    number read so far, [us] tells that the last character was [_]. *)
Fixpoint int_digits (acc : Z) (us : bool) (s : string) : option Z :=
  match s with
  | EmptyString => if us then None else Some acc
  | String c r =>
      if Ascii.eqb c "_" then (if us then None else int_digits acc true r)
      else if is_digit c then int_digits (10 * acc + digit_val c) false r
      else None
  end.

Definition int_unsigned (s : string) : option Z :=
  match s with
  | EmptyString => None
  | String c r => if is_digit c then int_digits (digit_val c) false r else None
  end.

(** [int(token)]: [None] stands for the ValueError the callers catch.
    The host's limit on the length of a literal is left out. *)
Definition int_signed (t : string) : option Z :=
  match t with
  | String "+" r => int_unsigned r
  | String "-" r => option_map Z.opp (int_unsigned r)
  | _ => int_unsigned t
  end.

Definition py_int (token : string) : option Z := int_signed (strip token).

(** [str(n)] for an integer [n]. *)
Definition str_int (z : Z) : string := NilZero.string_of_int (Z.to_int z).

(** *** Float literals

    [float(token)] succeeds on
    [[sign] (number [exponent] | inf | infinity | nan)], letters in either
    case.  Whether it succeeds is modelled here, and after it whether the
    float it returns is zero; the arithmetic of floats is left out. *)
Fixpoint digits_rest (s : string) : string :=
  match s with
  | EmptyString => s
  | String c r =>
      if is_digit c then digits_rest r
      else if Ascii.eqb c "_" then
        match r with
        | String d r' => if is_digit d then digits_rest r' else s
        | EmptyString => s
        end
      else s
  end.

(** What follows the longest digit part [s] starts with, if any. *)
Definition digitpart (s : string) : option string :=
  match s with
  | String c r => if is_digit c then Some (digits_rest r) else None
  | EmptyString => None
  end.

Definition exponent_ok (s : string) : bool :=
  match s with
  | EmptyString => true
  | String c r =>
      if Ascii.eqb c "e" || Ascii.eqb c "E" then
        let r1 := match r with
                  | String sg r' =>
                      if Ascii.eqb sg "+" || Ascii.eqb sg "-" then r' else r
                  | EmptyString => r
                  end in
        match digitpart r1 with Some EmptyString => true | _ => false end
      else false
  end.

Definition float_number (s : string) : bool :=
  match digitpart s with
  | Some (String "." r) =>
      match digitpart r with Some r2 => exponent_ok r2 | None => exponent_ok r end
  | Some rest => exponent_ok rest
  | None =>
      match s with
      | String "." r =>
          match digitpart r with Some r2 => exponent_ok r2 | None => false end
      | _ => false
      end
  end.

Definition lower_char (c : ascii) : ascii :=
  let n := nat_of_ascii c in
  if ((65 <=? n) && (n <=? 90))%nat then ascii_of_nat (n + 32) else c.

Fixpoint lower (s : string) : string :=
  match s with
  | EmptyString => EmptyString
  | String c r => String (lower_char c) (lower r)
  end.

Definition abs_float (s : string) : bool :=
  float_number s
  || String.eqb (lower s) "inf" || String.eqb (lower s) "infinity"
  || String.eqb (lower s) "nan".

(** Whether [float(token)] returns (rather than raising ValueError). *)
Definition py_float_ok (token : string) : bool :=
  match strip token with
  | String "+" r => abs_float r
  | String "-" r => abs_float r
  | t => abs_float t
  end.

(** *** Whether a float literal denotes zero

    A number [float(token)] accepts denotes [m * 10 ^ e]: [m] is the
    number its digits write, the point and the underscores left out, and
    [e] the exponent it gives, less the count of the digits after the
    point.  The host rounds that to the nearest float, a tie to the even
    one, so the float is zero when [m] is zero and when the number is at
    most [2 ^ -1075], half of the least float above zero.  The sign makes
    no difference, and [inf], [infinity] and [nan] are not zero. *)

(** The mantissa at the head of [s]: the number written after [acc], the
    count of the digits after the point, and what follows.  [frac] counts
    the digits once the point is passed. *)
Fixpoint float_mantissa (acc : Z) (frac : option Z) (s : string)
  : Z * Z * string :=
  match s with
  | EmptyString => (acc, match frac with Some k => k | None => 0 end, s)
  | String c r =>
      if is_digit c
      then float_mantissa (10 * acc + digit_val c) (option_map Z.succ frac) r
      else if Ascii.eqb c "_" then float_mantissa acc frac r
      else if Ascii.eqb c "." then float_mantissa acc (Some 0) r
      else (acc, match frac with Some k => k | None => 0 end, s)
  end.

(** The number the digits at the head of [s] write after [acc],
    underscores left out. *)
Fixpoint digits_val (acc : Z) (s : string) : Z :=
  match s with
  | EmptyString => acc
  | String c r =>
      if is_digit c then digits_val (10 * acc + digit_val c) r
      else if Ascii.eqb c "_" then digits_val acc r
      else acc
  end.

(** The exponent [s] gives: nothing, or [e] or [E], a sign maybe, and
    digits. *)
Definition float_exponent (s : string) : Z :=
  match s with
  | EmptyString => 0
  | String _ r =>
      match r with
      | String "-" r' => - digits_val 0 r'
      | String "+" r' => digits_val 0 r'
      | _ => digits_val 0 r
      end
  end.

(** Whether [float(token)] is zero, for a token [float] accepts. *)
Definition float_zero (token : string) : bool :=
  let t := match strip token with
           | String "+" r => r
           | String "-" r => r
           | t => t
           end in
  if String.eqb (lower t) "inf" || String.eqb (lower t) "infinity"
     || String.eqb (lower t) "nan"
  then false
  else
    let '(m, k, rest) := float_mantissa 0 None t in
    let e := float_exponent rest - k in
    (m =? 0) || ((e <? 0) && (m * 2 ^ 1075 <=? 10 ^ (- e))).

(** ** Host equality and truth *)

(** [a == b] on the host.  Booleans are integers; values of different
    kinds are unequal; lists compare length first, then item by item.
    [None] where the answer needs floating point or the identity of a
    procedure object. *)
Fixpoint py_eq (a b : value) {struct a} : option bool :=
  let fix eq_items (x y : list value) {struct x} : option bool :=
    match x, y with
    | [], [] => Some true
    | u :: x', v :: y' =>
        match py_eq u v with
        | Some true => eq_items x' y'
        | r => r
        end
    | _, _ => Some false
    end in
  match a, b with
  | VInt x, VInt y => Some (x =? y)
  | VInt x, VBool y => Some (x =? Z.b2z y)
  | VBool x, VInt y => Some (Z.b2z x =? y)
  | VBool x, VBool y => Some (Bool.eqb x y)
  | VFloat _, VInt _ | VFloat _, VBool _ | VFloat _, VFloat _ => None
  | VInt _, VFloat _ | VBool _, VFloat _ => None
  | VStr x, VStr y => Some (String.eqb x y)
  | VNone, VNone => Some true
  | VList x, VList y =>
      if (List.length x =? List.length y)%nat then eq_items x y else Some false
  | VProc _ _ _, VProc _ _ _ => None
  | VPrim n e, VPrim n' e' => Some (String.eqb n n' && (e =? e')%nat)
  | _, _ => Some false
  end.

(** The host's truth value of [v], as [if v:] takes it: a number is
    false when it is zero, a string or a list when it is empty. *)
Definition truthy (v : value) : option bool :=
  match v with
  | VInt z => Some (negb (z =? 0))
  | VFloat lit => Some (negb (float_zero lit))
  | VStr s => Some (negb (String.eqb s EmptyString))
  | VBool b => Some b
  | VNone => Some false
  | VList l => Some (match l with [] => false | _ :: _ => true end)
  | VProc _ _ _ | VPrim _ _ => Some true
  end.

(** The operands of integer arithmetic (a boolean is the integer 0 or 1). *)
Definition as_int (v : value) : option Z :=
  match v with
  | VInt z => Some z
  | VBool b => Some (Z.b2z b)
  | _ => None
  end.

Fixpoint as_ints (l : list value) : option (list Z) :=
  match l with
  | [] => Some []
  | v :: r =>
      match as_int v, as_ints r with
      | Some z, Some zs => Some (z :: zs)
      | _, _ => None
      end
  end.

Definition sum (l : list Z) : Z := fold_left Z.add l 0.
Definition prod (l : list Z) : Z := fold_left Z.mul l 1.

(** ** Dictionaries and the store *)

(** A host [dict] with string keys, in insertion order. *)
Definition dict := list (string * value).

Fixpoint dict_get (d : dict) (k : string) : option value :=
  match d with
  | [] => None
  | (k', v) :: r => if String.eqb k' k then Some v else dict_get r k
  end.

(** [k in d] *)
Definition dict_mem (d : dict) (k : string) : bool :=
  match dict_get d k with Some _ => true | None => false end.

(** [d[k] = v] *)
Fixpoint dict_set (d : dict) (k : string) (v : value) : dict :=
  match d with
  | [] => [(k, v)]
  | (k', v') :: r =>
      if String.eqb k' k then (k, v) :: r else (k', v') :: dict_set r k v
  end.

(** [d.update(items)] *)
Definition dict_update (d : dict) (items : list (string * value)) : dict :=
  fold_left (fun d kv => dict_set d (fst kv) (snd kv)) items d.

(** [bool(d)] for a dictionary: it is true unless [d] is empty. *)
Definition dict_truthy (d : dict) : bool :=
  match d with [] => false | _ :: _ => true end.

(** The pairs [zip(params, args)] yields, as keys and values for a
    dictionary.  [params] must be iterable (a list, or a string, which
    yields its characters); a key must be hashable (a list is not).  Keys
    other than strings are outside the development. *)
Fixpoint zip_keys (ps : list value) (args : list value) : res (list (string * value)) :=
  match ps, args with
  | p :: ps', a :: args' =>
      match p with
      | VStr s =>
          match zip_keys ps' args' with
          | Ok kvs => Ok ((s, a) :: kvs)
          | r => r
          end
      | VList _ => Raise TypeError_host
      | _ => Unmodelled
      end
  | _, _ => Ok []
  end.

Fixpoint chars (s : string) : list value :=
  match s with
  | EmptyString => []
  | String c r => VStr (String c EmptyString) :: chars r
  end.

Definition py_zip (params : value) (args : list value) : res (list (string * value)) :=
  match params with
  | VList ps => zip_keys ps args
  | VStr s => zip_keys (chars s) args
  | _ => Raise TypeError_host
  end.

(** [len(v)] *)
Definition py_len (v : value) : res nat :=
  match v with
  | VList l => Ok (List.length l)
  | VStr s => Ok (String.length s)
  | _ => Raise TypeError_host
  end.

(** The store of mutable objects.  Objects are allocated in order; the
    newest is the head of the list, and an object's address is the
    number of objects older than it. *)
Section Store.
Variable C : Type.

Fixpoint heap_get (h : list C) (a : addr) : option C :=
  match h with
  | [] => None
  | c :: older => if (a =? List.length older)%nat then Some c else heap_get older a
  end.

Fixpoint heap_set (h : list C) (a : addr) (c : C) : list C :=
  match h with
  | [] => []
  | c' :: older =>
      if (a =? List.length older)%nat then c :: older else c' :: heap_set older a c
  end.

Definition heap_alloc (h : list C) (c : C) : addr * list C :=
  (List.length h, c :: h).
End Store.
Arguments heap_get {C} h a.
Arguments heap_set {C} h a c.
Arguments heap_alloc {C} h c.

(** ** Computations on a store that may raise *)
Definition M (S A : Type) : Type := S -> res A * S.

Definition ret {S A : Type} (a : A) : M S A := fun s => (Ok a, s).

Definition fail {S A : Type} (r : res A) : M S A := fun s => (r, s).

Definition bind {S A B : Type} (m : M S A) (k : A -> M S B) : M S B :=
  fun s =>
    match m s with
    | (Ok a, s') => k a s'
    | (Raise e, s') => (Raise e, s')
    | (Unmodelled, s') => (Unmodelled, s')
    | (OutOfFuel, s') => (OutOfFuel, s')
    end.

Notation "x <- m ;; k" := (bind m (fun x => k))
  (at level 61, m at next level, right associativity).

(** [[ev(x) for x in xs]], left to right. *)
Fixpoint eval_each {S : Type} (ev : value -> M S value) (xs : list value)
  : M S (list value) :=
  match xs with
  | [] => ret []
  | x :: r => v <- ev x ;; vs <- eval_each ev r ;; ret (v :: vs)
  end.

(** [m'] agrees with [m] wherever [m] comes to a result within the
    recursion bound. *)
Definition stable {S A : Type} (m m' : M S A) : Prop :=
  forall h r h', m h = (r, h') -> r <> OutOfFuel -> m' h = (r, h').

(** What the loops of the parsers and evaluators do with a result. *)
Definition on_ok {A B : Type} (r : res A) (k : A -> res B) : res B :=
  match r with
  | Ok a => k a
  | Raise e => Raise e
  | Unmodelled => Unmodelled
  | OutOfFuel => OutOfFuel
  end.

(** * [lisp.py] *)
Module Lisp1.

(** [tokenize] *)
Definition tokenize (src : string) : list string :=
  split (replace_char ")" " ) " (replace_char "(" " ( " src)).

(** The double quote character. *)
Definition dquote : ascii := ascii_of_nat 34.

Definition starts_with_quote (s : string) : bool :=
  match s with String c _ => Ascii.eqb c dquote | EmptyString => false end.

Fixpoint ends_with_quote (s : string) : bool :=
  match s with
  | EmptyString => false
  | String c EmptyString => Ascii.eqb c dquote
  | String _ r => ends_with_quote r
  end.

(** [s[:-1]] *)
Fixpoint drop_last (s : string) : string :=
  match s with
  | EmptyString => EmptyString
  | String _ EmptyString => EmptyString
  | String c r => String c (drop_last r)
  end.

(** [atom]: a quoted string, an integer, a float, or else a symbol. *)
Definition atom (token : string) : value :=
  if starts_with_quote token && ends_with_quote token
     && (2 <=? String.length token)%nat
  then VStr (drop_last (match token with String _ r => r | EmptyString => token end))
  else match py_int token with
       | Some z => VInt z
       | None => if py_float_ok token then VFloat token else VStr token
       end.

(** [parse]: the token list is consumed from the front; the result
    carries the tokens left.  [parse_list] is the [while] loop that
    reads the items of a list into [L]. *)
Fixpoint parse_fuel (n : nat) (tokens : list string) {struct n}
  : res (value * list string) :=
  match n with
  | O => OutOfFuel
  | S n =>
      match tokens with
      | [] => Raise SyntaxError_EOF
      | token :: tokens =>
          if String.eqb token "(" then parse_list n [] tokens
          else if String.eqb token ")" then Raise SyntaxError_close_paren
          else Ok (atom token, tokens)
      end
  end
with parse_list (n : nat) (L : list value) (tokens : list string) {struct n}
  : res (value * list string) :=
  match n with
  | O => OutOfFuel
  | S n =>
      match tokens with
      | [] => Raise IndexError                       (* tokens[0] *)
      | t :: rest =>
          if String.eqb t ")" then Ok (VList L, rest)  (* tokens.pop(0) *)
          else on_ok (parse_fuel n tokens)
                 (fun vt => parse_list n (L ++ [fst vt]) (snd vt))
      end
  end.

Definition parse (tokens : list string) : res (value * list string) :=
  parse_fuel (2 * List.length tokens + 1) tokens.

(** [loads]: parse until no token is left. *)
Fixpoint loads_fuel (n : nat) (exprs : list value) (tokens : list string)
  : res (list value) :=
  match tokens with
  | [] => Ok exprs
  | _ :: _ =>
      match n with
      | O => OutOfFuel
      | S n => on_ok (parse tokens)
                 (fun vt => loads_fuel n (exprs ++ [fst vt]) (snd vt))
      end
  end.

Definition loads (src : string) : res (list value) :=
  let tokens := tokenize src in loads_fuel (List.length tokens) [] tokens.

(** [class Env(dict)]: the bindings and the enclosing environment. *)
Record frame : Type := Frame { vars : dict; outer : option addr }.

Definition heap := list frame.

(** [Env.find]: the nearest environment of the chain that owns [var].
    An environment's [outer] is older than itself, so the walk goes
    through the older part of the store. *)
Fixpoint find (h : heap) (e : addr) (var : string) : option addr :=
  match h with
  | [] => None
  | f :: older =>
      if (e =? List.length older)%nat then
        if dict_mem (vars f) var then Some e
        else match outer f with
             | Some o => find older o var
             | None => None
             end
      else find older e var
  end.

(** The chain of environments from [e] outward, innermost first: [e],
    its [outer], the [outer] of that, and so on. *)
Fixpoint chain (h : heap) (e : addr) : list addr :=
  match h with
  | [] => []
  | f :: older =>
      if (e =? List.length older)%nat then
        e :: match outer f with
             | Some o => chain older o
             | None => []
             end
      else chain older e
  end.

(** Whether the environment at [a] owns a binding for [var]. *)
Definition owns (h : heap) (var : string) (a : addr) : bool :=
  match heap_get h a with
  | Some f => dict_mem (vars f) var
  | None => false
  end.

(** [holder[name] = val] *)
Definition set_var (h : heap) (a : addr) (name : string) (val : value) : heap :=
  match heap_get h a with
  | Some f => heap_set h a (Frame (dict_set (vars f) name val) (outer f))
  | None => h
  end.

Definition prim_names : list string :=
  ["+"; "-"; "*"; "/"; ">"; "<"; ">="; "<="; "="; "eq?"; "cons"; "car"; "cdr";
   "list"; "list?"; "null?"; "print"].

(** [global_env]: the primitives, then [true], [false] and [nil]. *)
Definition global_env : addr := 0%nat.

Definition global_frame : frame :=
  Frame (dict_update (map (fun n => (n, VPrim n global_env)) prim_names)
           [("true", VBool true); ("false", VBool false); ("nil", VList [])])
        None.

Definition init_heap : heap := [global_frame].

Definition compare (op : Z -> Z -> bool) (args : list value) : res value :=
  match args with
  | [a; b] =>
      match as_int a, as_int b with
      | Some x, Some y => Ok (VBool (op x y))
      | _, _ => Unmodelled
      end
  | _ => Raise TypeError_host
  end.

Definition equal (args : list value) : res value :=
  match args with
  | [a; b] => match py_eq a b with Some r => Ok (VBool r) | None => Unmodelled end
  | _ => Raise TypeError_host
  end.

(** [PRIMITIVES]: the host lambdas, applied to the argument list.  A
    call with the wrong number of arguments is the host's TypeError. *)
Definition apply_prim (name : string) (args : list value) : res value :=
  if String.eqb name "+" then
    match as_ints args with Some zs => Ok (VInt (sum zs)) | None => Unmodelled end
  else if String.eqb name "-" then
    match args with
    | [] => Raise TypeError_host
    | _ => match as_ints args with
           | Some (a :: rest) =>
               Ok (VInt (match rest with [] => - a | _ => a - sum rest end))
           | _ => Unmodelled
           end
    end
  else if String.eqb name "*" then
    match as_ints args with Some zs => Ok (VInt (prod zs)) | None => Unmodelled end
  else if String.eqb name "/" then
    match args with
    | [a; b] =>
        match as_int a, as_int b with
        | Some _, Some 0 => Raise ZeroDivisionError
        | _, _ => Unmodelled
        end
    | _ => Raise TypeError_host
    end
  else if String.eqb name ">" then compare Z.gtb args
  else if String.eqb name "<" then compare Z.ltb args
  else if String.eqb name ">=" then compare Z.geb args
  else if String.eqb name "<=" then compare Z.leb args
  else if String.eqb name "=" then equal args
  else if String.eqb name "eq?" then equal args
  else if String.eqb name "cons" then
    match args with
    | [a; b] => Ok (VList (a :: match b with VList l => l | _ => [b] end))
    | _ => Raise TypeError_host
    end
  else if String.eqb name "car" then
    match args with [a] => py_index a 0 | _ => Raise TypeError_host end
  else if String.eqb name "cdr" then
    match args with [a] => py_tail a | _ => Raise TypeError_host end
  else if String.eqb name "list" then Ok (VList args)
  else if String.eqb name "list?" then
    match args with [a] => Ok (VBool (is_list a)) | _ => Raise TypeError_host end
  else if String.eqb name "null?" then
    match args with [a] => Ok (VBool (eq_nil a)) | _ => Raise TypeError_host end
  else Unmodelled.

(** [found[x]] after [found = env.find(x)]; [if found:] is the host's
    truth test of the dictionary found. *)
Definition lookup (h : heap) (env : addr) (x : string) : res value :=
  match find h env x with
  | Some a =>
      match heap_get h a with
      | Some f =>
          if dict_truthy (vars f) then
            match dict_get (vars f) x with
            | Some v => Ok v
            | None => Raise KeyError
            end
          else Raise (NameError_undefined x)
      | None => Unmodelled
      end
  | None => Raise (NameError_undefined x)
  end.

(** The binding step of [define] and [set!]. *)
Definition assign (h : heap) (env : addr) (name : string) (val : value) : heap :=
  match find h env name with
  | Some a =>
      match heap_get h a with
      | Some f => if dict_truthy (vars f) then set_var h a name val
                  else set_var h env name val
      | None => h
      end
  | None => set_var h env name val
  end.

(** [Env(params, args, outer)] *)
Definition new_env (params : value) (args : list value) (outer : addr)
  : M heap addr :=
  fun h =>
    match py_zip params args with
    | Ok kvs =>
        let (a, h') := heap_alloc h (Frame (dict_update [] kvs) (Some outer)) in
        (Ok a, h')
    | Raise e => (Raise e, h)
    | Unmodelled => (Unmodelled, h)
    | OutOfFuel => (OutOfFuel, h)
    end.

(** [for expr in exprs: result = ev(expr)] of [begin]. *)
Fixpoint eval_seq (ev : value -> M heap value) (result : value)
  (exprs : list value) : M heap value :=
  match exprs with
  | [] => ret result
  | x :: r => v <- ev x ;; eval_seq ev v r
  end.

(** [eval_lisp].  [n] bounds the depth of the recursion. *)
Fixpoint eval (n : nat) (x : value) (env : addr) {struct n} : M heap value :=
  match n with
  | O => fail OutOfFuel
  | S n =>
      match x with
      | VStr s => fun h => (lookup h env s, h)
      | VInt _ | VFloat _ | VBool _ | VList [] => ret x
      | VNone | VProc _ _ _ | VPrim _ _ => fail (Raise AssertionError)
      | VList (head :: rest) =>
          if eq_str head "quote" then
            match rest with
            | [expr] => ret expr
            | _ => fail (Raise ValueError_unpack)
            end
          else if eq_str head "if" then
            match rest with
            | [test; conseq; alt] =>
                result <- eval n test env ;;
                match truthy result with
                | Some b => eval n (if b then conseq else alt) env
                | None => fail Unmodelled
                end
            | _ => fail (Raise ValueError_unpack)
            end
          else if eq_str head "define" || eq_str head "set!" then
            match rest with
            | [name; expr] =>
                val <- eval n expr env ;;
                match name with
                | VStr s => fun h => (Ok name, assign h env s val)
                | VList _ => fail (Raise TypeError_host)
                | _ => fail Unmodelled
                end
            | _ => fail (Raise ValueError_unpack)
            end
          else if eq_str head "lambda" then
            match rest with
            | [params; body] => ret (VProc params body env)
            | _ => fail (Raise ValueError_unpack)
            end
          else if eq_str head "begin" then
            eval_seq (fun e => eval n e env) VNone rest
          else
            proc <- eval n head env ;;
            args <- eval_each (fun e => eval n e env) rest ;;
            match proc with
            | VPrim name _ => fail (apply_prim name args)
            | VProc params body penv =>
                local <- new_env params args penv ;;
                eval n body local
            | _ => fail (Raise TypeError_not_callable)
            end
      end
  end.

(** [for ex in exprs: last = eval_lisp(ex, global_env)] of [run]. *)
Definition run_exprs (n : nat) (exprs : list value) : M heap value :=
  eval_seq (fun e => eval n e global_env) VNone exprs.

(** [run] *)
Definition run (n : nat) (src : string) : M heap value :=
  fun h =>
    match loads src with
    | Ok exprs => run_exprs n exprs h
    | Raise e => (Raise e, h)
    | Unmodelled => (Unmodelled, h)
    | OutOfFuel => (OutOfFuel, h)
    end.

(** The heads [eval_lisp] tests for before it takes a list as the
    application of a procedure. *)
Definition special_forms : list string :=
  ["quote"; "if"; "define"; "set!"; "lambda"; "begin"].

Definition is_special (head : value) : bool :=
  existsb (eq_str head) special_forms.

End Lisp1.

(** ** What [lisp2.py] and [lisp3.py] share: environments are plain
    dictionaries, each an object of the store. *)
Definition envs := list dict.

(** [env[k]] for the dictionary at [a]. *)
Definition env_item (h : envs) (a : addr) (k : string) : res value :=
  match heap_get h a with
  | Some d => match dict_get d k with Some v => Ok v | None => Raise KeyError end
  | None => Unmodelled
  end.

(** [env.get(x, x)] *)
Definition env_get_default (h : envs) (a : addr) (x : string) : res value :=
  match heap_get h a with
  | Some d => Ok (match dict_get d x with Some v => v | None => VStr x end)
  | None => Unmodelled
  end.

(** [env.copy()]: a new dictionary with the bindings [env] has now. *)
Definition env_copy (a : addr) : M envs addr :=
  fun h =>
    match heap_get h a with
    | Some d => let (a', h') := heap_alloc h d in (Ok a', h')
    | None => (Unmodelled, h)
    end.

(** [env[name] = v], for [name] taken from the program: a list cannot be
    a key; keys other than strings are outside the development. *)
Definition env_store (a : addr) (name : value) (v : value) : M envs unit :=
  fun h =>
    match name with
    | VStr s =>
        match heap_get h a with
        | Some d => (Ok tt, heap_set h a (dict_set d s v))
        | None => (Unmodelled, h)
        end
    | VList _ => (Raise TypeError_host, h)
    | _ => (Unmodelled, h)
    end.

(** [for k, v in zip(params, args): env[k] = v] *)
Definition env_bind (a : addr) (params : value) (args : list value) : M envs unit :=
  fun h =>
    match py_zip params args with
    | Ok kvs =>
        match heap_get h a with
        | Some d => (Ok tt, heap_set h a (dict_update d kvs))
        | None => (Unmodelled, h)
        end
    | Raise e => (Raise e, h)
    | Unmodelled => (Unmodelled, h)
    | OutOfFuel => (OutOfFuel, h)
    end.

(** [map(lisp_to_str, v)] for a printer [f]: the renderings of the items,
    if each has one. *)
Fixpoint render_items (f : value -> option string) (l : list value)
  : option (list string) :=
  match l with
  | [] => Some []
  | e :: r =>
      match f e, render_items f r with
      | Some s, Some ss => Some (s :: ss)
      | _, _ => None
      end
  end.

(** The dictionary both [make_global_env] build, but for the primitives'
    own bodies: the primitives close over the dictionary, at [a]. *)
Definition global_dict (names : list string) (a : addr) : dict :=
  dict_update [] (map (fun n => (n, VPrim n a)) names
                  ++ [("T", VBool true); ("NIL", VList [])]).

(** [prim_car] and [prim_cdr], the same in both files. *)
Definition lenient_car (a : value) : res value :=
  if negb (is_list a) || eq_nil a then Ok (VList []) else py_index a 0.

Definition lenient_cdr (a : value) : res value :=
  if negb (is_list a) || eq_nil a then Ok (VList []) else py_tail a.

(** [prim_cons] after its arity check. *)
Definition strict_cons (a b : value) : res value :=
  match b with
  | VList l => Ok (VList (a :: l))
  | _ => Raise TypeError_cons
  end.

(** [env['T'] if c else env['NIL']] *)
Definition lisp_bool (h : envs) (penv : addr) (c : bool) : res value :=
  env_item h penv (if c then "T" else "NIL").

(** [r -= v for v in rest] and [r *= x for x in args] on integers. *)
Definition sub_all (x : Z) (rest : list Z) : Z := fold_left Z.sub rest x.

(** * [lisp2.py] *)
Module Lisp2.

(** [tokenize] *)
Definition tokenize (s : string) : list string :=
  filter (fun tok => negb (String.eqb tok EmptyString))
    (split (replace_char ")" " ) "
              (replace_char "(" " ( " (replace_char "'" " ' " s)))).

(** [atomize] *)
Definition atomize (token : string) : value :=
  match py_int token with
  | Some z => VInt z
  | None => VStr token
  end.

(** [parse]; [parse_list] is the [while] loop, with its test for the end
    of the tokens after each item. *)
Fixpoint parse_fuel (n : nat) (tokens : list string) {struct n}
  : res (value * list string) :=
  match n with
  | O => OutOfFuel
  | S n =>
      match tokens with
      | [] => Raise SyntaxError_EOF
      | token :: tokens =>
          if String.eqb token "(" then parse_list n [] tokens
          else if String.eqb token ")" then Raise SyntaxError_close_paren
          else if String.eqb token "'" then
            on_ok (parse_fuel n tokens)
              (fun vt => Ok (VList [VStr "quote"; fst vt], snd vt))
          else Ok (atomize token, tokens)
      end
  end
with parse_list (n : nat) (L : list value) (tokens : list string) {struct n}
  : res (value * list string) :=
  match n with
  | O => OutOfFuel
  | S n =>
      match tokens with
      | [] => Raise IndexError                       (* tokens[0] *)
      | t :: rest =>
          if String.eqb t ")" then Ok (VList L, rest)  (* tokens.pop(0) *)
          else on_ok (parse_fuel n tokens)
                 (fun vt =>
                    match snd vt with
                    | [] => Raise SyntaxError_EOF_list
                    | _ :: _ => parse_list n (L ++ [fst vt]) (snd vt)
                    end)
      end
  end.

Definition parse (tokens : list string) : res (value * list string) :=
  parse_fuel (2 * List.length tokens + 1) tokens.

(** [parse_str] *)
Definition parse_str (s : string) : res value :=
  on_ok (parse (tokenize s)) (fun vt => Ok (fst vt)).

(** [lisp_to_str]; [None] where [str(x)] is the host's rendering of a
    float or of an object. *)
Fixpoint lisp_to_str (x : value) : option string :=
  match x with
  | VList [] => Some "NIL"
  | VList l =>
      match render_items lisp_to_str l with
      | Some ss => Some ("(" ++ String.concat " " ss ++ ")")
      | None => None
      end
  | VBool true => Some "T"
  | VBool false | VNone => Some "NIL"
  | VInt z => Some (str_int z)
  | VStr s => Some s
  | VFloat _ | VProc _ _ _ | VPrim _ _ => None
  end.

Definition prim_names : list string :=
  ["atom"; "eq"; "cons"; "car"; "cdr"; "+"; "-"; "*"; "/"].

(** [make_global_env] *)
Definition make_global_env : M envs addr :=
  fun h =>
    let (a, h') := heap_alloc h (global_dict prim_names (List.length h)) in
    (Ok a, h').

(** The module's [global_env = make_global_env()]: the first object. *)
Definition global_env : addr := 0%nat.

Definition init_heap : envs := snd (make_global_env []).

Definition arith (h : envs) (penv : addr) (name : string) (args : list value)
  : res value :=
  if String.eqb name "+" then
    match as_ints args with Some zs => Ok (VInt (sum zs)) | None => Unmodelled end
  else if String.eqb name "-" then
    match args with
    | [] => Raise TypeError_prim_arity
    | _ => match as_ints args with
           | Some [x] => Ok (VInt (- x))
           | Some (x :: rest) => Ok (VInt (sub_all x rest))
           | _ => Unmodelled
           end
    end
  else if String.eqb name "*" then
    match as_ints args with Some zs => Ok (VInt (prod zs)) | None => Unmodelled end
  else if String.eqb name "/" then
    if (List.length args <? 2)%nat then Raise TypeError_prim_arity
    else match as_ints args with
         | Some (x :: rest) =>
             (fix divide (r : Z) (l : list Z) : res value :=
                match l with
                | [] => Ok (VInt r)
                | v :: l' => if v =? 0 then Raise ZeroDivisionError
                             else divide (r / v) l'
                end) x rest
         | _ => Unmodelled
         end
  else Unmodelled.

(** The primitives, applied to the list [args]; [penv] is the
    environment the primitive closes over. *)
Definition apply_prim (h : envs) (name : string) (penv : addr) (args : list value)
  : res value :=
  if String.eqb name "atom" then
    match args with
    | [a] => lisp_bool h penv (negb (is_list a) || (is_list a && eq_nil a))
    | _ => Raise TypeError_prim_arity
    end
  else if String.eqb name "eq" then
    match args with
    | [a; b] =>
        match py_eq a b with
        | Some equal => lisp_bool h penv equal
        | None => Unmodelled
        end
    | _ => Raise TypeError_prim_arity
    end
  else if String.eqb name "cons" then
    match args with
    | [a; b] => strict_cons a b
    | _ => Raise TypeError_prim_arity
    end
  else if String.eqb name "car" then
    match args with [a] => lenient_car a | _ => Raise TypeError_prim_arity end
  else if String.eqb name "cdr" then
    match args with [a] => lenient_cdr a | _ => Raise TypeError_prim_arity end
  else arith h penv name args.

(** [global_env[name](args)] as the special forms call it. *)
Definition call_global (name : string) (args : list value) : M envs value :=
  fun h =>
    match env_item h global_env name with
    | Ok (VPrim p penv) => (apply_prim h p penv args, h)
    | Ok _ => (Raise TypeError_host, h)
    | Raise e => (Raise e, h)
    | Unmodelled => (Unmodelled, h)
    | OutOfFuel => (OutOfFuel, h)
    end.

(** The clauses of [cond], in order. *)
Fixpoint eval_cond (ev : value -> M envs value) (clauses : list value)
  : M envs value :=
  match clauses with
  | [] => ret (VList [])
  | clause :: r =>
      match clause with
      | VList [test; expr] =>
          tval <- ev test ;;
          if negb (eq_nil tval) then ev expr else eval_cond ev r
      | _ => fail (Raise SyntaxError_cond_clause)
      end
  end.

(** [eval_lisp].  The trace it prints is left out. *)
Fixpoint eval (n : nat) (x : value) (env : addr) {struct n} : M envs value :=
  match n with
  | O => fail OutOfFuel
  | S n =>
      match x with
      | VStr s =>
          if String.eqb s "NIL" then ret (VList [])
          else fun h => (env_get_default h env s, h)
      | VList [] => ret (VList [])
      | VList (head :: rest) =>
          if eq_str head "quote" then
            match rest with
            | [exp] => ret exp
            | _ => fail (Raise ValueError_unpack)
            end
          else if eq_str head "atom" then
            match rest with
            | [e] => v <- eval n e env ;; call_global "atom" [v]
            | _ => fail (Raise ValueError_unpack)
            end
          else if eq_str head "eq" then
            match rest with
            | [a; b] =>
                va <- eval n a env ;; vb <- eval n b env ;;
                call_global "eq" [va; vb]
            | _ => fail (Raise ValueError_unpack)
            end
          else if eq_str head "cons" then
            match rest with
            | [a; b] =>
                va <- eval n a env ;; vb <- eval n b env ;;
                call_global "cons" [va; vb]
            | _ => fail (Raise ValueError_unpack)
            end
          else if eq_str head "car" then
            match rest with
            | [a] => va <- eval n a env ;; call_global "car" [va]
            | _ => fail (Raise ValueError_unpack)
            end
          else if eq_str head "cdr" then
            match rest with
            | [a] => va <- eval n a env ;; call_global "cdr" [va]
            | _ => fail (Raise ValueError_unpack)
            end
          else if eq_str head "cond" then
            eval_cond (fun e => eval n e env) rest
          else if eq_str head "lambda" then
            match rest with
            | [params; body] =>
                captured <- env_copy env ;; ret (VProc params body captured)
            | _ => fail (Raise ValueError_unpack)
            end
          else if eq_str head "defun" then
            match rest with
            | [name; params; body] =>
                captured <- env_copy env ;;
                _ <- env_store env name (VProc params body captured) ;;
                ret name
            | _ => fail (Raise ValueError_unpack)
            end
          else if eq_str head "setq" then
            match rest with
            | [name; expr] =>
                val <- eval n expr env ;;
                _ <- env_store env name val ;;
                ret name
            | _ => fail (Raise ValueError_unpack)
            end
          else
            op <- eval n head env ;;
            args <- eval_each (fun e => eval n e env) rest ;;
            match op with
            | VPrim p penv => fun h => (apply_prim h p penv args, h)
            | VProc params body cenv =>
                match py_len params with
                | Ok k =>
                    if negb (k =? List.length args)%nat
                    then fail (Raise TypeError_arg_count)
                    else
                      new_env <- env_copy cenv ;;
                      _ <- env_bind new_env params args ;;
                      eval n body new_env
                | _ => fail (Raise TypeError_host)
                end
            | _ => fail (Raise NameError_operator)
            end
      | _ => ret x
      end
  end.

(** [run_and_print], but for the printing: parse, then evaluate. *)
Definition run (n : nat) (expr : string) (env : addr) : M envs value :=
  fun h =>
    match parse_str expr with
    | Ok parsed => eval n parsed env h
    | Raise e => (Raise e, h)
    | Unmodelled => (Unmodelled, h)
    | OutOfFuel => (OutOfFuel, h)
    end.

(** The heads [eval_lisp] tests for before it takes a list as the
    application of a function. *)
Definition special_forms : list string :=
  ["quote"; "atom"; "eq"; "cons"; "car"; "cdr"; "cond"; "lambda"; "defun";
   "setq"].

Definition is_special (head : value) : bool :=
  existsb (eq_str head) special_forms.

End Lisp2.

(** * [lisp3.py] *)
Module Lisp3.

Definition is_delim (c : ascii) : bool :=
  Ascii.eqb c "(" || Ascii.eqb c ")" || Ascii.eqb c "'".

Definition flush (cur : string) : list string :=
  match cur with EmptyString => [] | _ => [cur] end.

(** [re.findall(r"\(|\)|'|[^\s()']+", src)]: each parenthesis and each
    quote is a token, and so is each maximal run of other characters
    that are not whitespace.  [cur] is the run being read. *)
Fixpoint scan (cur : string) (src : string) : list string :=
  match src with
  | EmptyString => flush cur
  | String c r =>
      if is_delim c then flush cur ++ String c EmptyString :: scan EmptyString r
      else if is_space c then flush cur ++ scan EmptyString r
      else scan (cur ++ String c EmptyString) r
  end.

(** [tokenize] *)
Definition tokenize (src : string) : list string := scan EmptyString src.

(** [atom] *)
Definition atom (token : string) : value :=
  match py_int token with
  | Some z => VInt z
  | None => if py_float_ok token then VFloat token else VStr token
  end.

(** [parse] *)
Fixpoint parse_fuel (n : nat) (tokens : list string) {struct n}
  : res (value * list string) :=
  match n with
  | O => OutOfFuel
  | S n =>
      match tokens with
      | [] => Raise SyntaxError_EOF
      | token :: tokens =>
          if String.eqb token "(" then parse_list n [] tokens
          else if String.eqb token "'" then
            on_ok (parse_fuel n tokens)
              (fun vt => Ok (VList [VStr "quote"; fst vt], snd vt))
          else if String.eqb token ")" then Raise SyntaxError_close_paren
          else Ok (atom token, tokens)
      end
  end
with parse_list (n : nat) (lst : list value) (tokens : list string) {struct n}
  : res (value * list string) :=
  match n with
  | O => OutOfFuel
  | S n =>
      match tokens with
      | [] => Raise IndexError                         (* tokens[0] *)
      | t :: rest =>
          if String.eqb t ")" then Ok (VList lst, rest)  (* tokens.pop(0) *)
          else on_ok (parse_fuel n tokens)
                 (fun vt => parse_list n (lst ++ [fst vt]) (snd vt))
      end
  end.

Definition parse (tokens : list string) : res (value * list string) :=
  parse_fuel (2 * List.length tokens + 1) tokens.

(** [lisp_to_str]; [None] where [str(v)] is the host's rendering of a
    float or of a function. *)
Fixpoint lisp_to_str (v : value) : option string :=
  match v with
  | VList [] => Some "NIL"
  | VBool true => Some "T"
  | VList l =>
      match render_items lisp_to_str l with
      | Some ss => Some ("(" ++ String.concat " " ss ++ ")")
      | None => None
      end
  | VInt z => Some (str_int z)
  | VStr s => Some s
  | VBool false => Some "False"
  | VNone => Some "None"
  | VFloat _ | VProc _ _ _ | VPrim _ _ => None
  end.

Definition prim_names : list string :=
  ["cons"; "car"; "cdr"; "atom"; "eq"; "+"; "-"; "*"; "/"].

(** [make_global_env] *)
Definition make_global_env : M envs addr :=
  fun h =>
    let (a, h') := heap_alloc h (global_dict prim_names (List.length h)) in
    (Ok a, h').

(** The primitives, called as [prim( *args )]: a call with the wrong
    number of arguments is the host's TypeError. *)
Definition apply_prim (h : envs) (name : string) (penv : addr) (args : list value)
  : res value :=
  if String.eqb name "cons" then
    match args with [a; b] => strict_cons a b | _ => Raise TypeError_host end
  else if String.eqb name "car" then
    match args with [a] => lenient_car a | _ => Raise TypeError_host end
  else if String.eqb name "cdr" then
    match args with [a] => lenient_cdr a | _ => Raise TypeError_host end
  else if String.eqb name "atom" then
    match args with
    | [a] => lisp_bool h penv (negb (is_list a) || eq_nil a)
    | _ => Raise TypeError_host
    end
  else if String.eqb name "eq" then
    match args with
    | [a; b] =>
        match py_eq a b with
        | Some equal => lisp_bool h penv equal
        | None => Unmodelled
        end
    | _ => Raise TypeError_host
    end
  else if String.eqb name "+" then
    match as_ints args with Some zs => Ok (VInt (sum zs)) | None => Unmodelled end
  else if String.eqb name "-" then
    match args with
    | [] => Raise TypeError_host
    | _ => match as_ints args with
           | Some [x] => Ok (VInt (- x))
           | Some (x :: rest) => Ok (VInt (sub_all x rest))
           | _ => Unmodelled
           end
    end
  else if String.eqb name "*" then
    match as_ints args with Some zs => Ok (VInt (prod zs)) | None => Unmodelled end
  else if String.eqb name "/" then
    match args with
    | [] => Raise TypeError_host
    | [x] => Ok x
    | _ => Unmodelled
    end
  else Unmodelled.

Definition lift {A : Type} (r : res A) : M envs A := fun h => (r, h).

(** The clauses of [cond], in order: [clause[0]] is the test,
    [clause[1]] the expression. *)
Fixpoint eval_cond (ev : value -> M envs value) (clauses : list value)
  : M envs value :=
  match clauses with
  | [] => ret (VList [])
  | clause :: r =>
      test <- lift (py_index clause 0) ;;
      test_val <- ev test ;;
      if negb (eq_nil test_val) then
        expr <- lift (py_index clause 1) ;; ev expr
      else eval_cond ev r
  end.

(** [eval_lisp].  [call f args] is the host call [f( *args )]: a
    primitive, or a function [fn] made by [defun] or [lambda], which
    copies the environment it was made in as that environment is at the
    call. *)
Fixpoint eval (n : nat) (x : value) (env : addr) {struct n} : M envs value :=
  match n with
  | O => fail OutOfFuel
  | S n =>
      let call (f : value) (args : list value) : M envs value :=
        match f with
        | VPrim p penv => fun h => (apply_prim h p penv args, h)
        | VProc params body fenv =>
            local_env <- env_copy fenv ;;
            _ <- env_bind local_env params args ;;
            eval n body local_env
        | _ => fail (Raise TypeError_host)
        end in
      match x with
      | VStr s => fun h => (env_get_default h env s, h)
      | VList [] => ret (VList [])
      | VList (op :: rest) =>
          if eq_str op "quote" then lift (py_index x 1)
          else if eq_str op "atom" then
            f <- (fun h => (env_item h env "atom", h)) ;;
            e <- lift (py_index x 1) ;;
            v <- eval n e env ;;
            call f [v]
          else if eq_str op "eq" then
            f <- (fun h => (env_item h env "eq", h)) ;;
            a <- lift (py_index x 1) ;;
            va <- eval n a env ;;
            b <- lift (py_index x 2) ;;
            vb <- eval n b env ;;
            call f [va; vb]
          else if eq_str op "cons" || eq_str op "car" || eq_str op "cdr" then
            args <- eval_each (fun e => eval n e env) rest ;;
            f <- (fun h => (env_item h env
                              (match op with VStr s => s | _ => EmptyString end), h)) ;;
            call f args
          else if eq_str op "cond" then
            eval_cond (fun e => eval n e env) rest
          else if eq_str op "defun" then
            match rest with
            | [name; params; body] =>
                _ <- env_store env name (VProc params body env) ;;
                ret name
            | _ => fail (Raise ValueError_unpack)
            end
          else if eq_str op "lambda" then
            match rest with
            | [params; body] => ret (VProc params body env)
            | _ => fail (Raise ValueError_unpack)
            end
          else
            func <- eval n op env ;;
            args <- eval_each (fun e => eval n e env) rest ;;
            match func with
            | VPrim _ _ | VProc _ _ _ => call func args
            | _ => fail (Raise TypeError_not_callable)
            end
      | _ => ret x
      end
  end.

(** [run], but for the printing. *)
Definition run (n : nat) (src : string) (env : addr) : M envs value :=
  fun h =>
    match parse (tokenize src) with
    | Ok (ast, _) => eval n ast env h
    | Raise e => (Raise e, h)
    | Unmodelled => (Unmodelled, h)
    | OutOfFuel => (OutOfFuel, h)
    end.

(** The module's [env = make_global_env()]. *)
Definition init_heap : envs := snd (make_global_env []).

End Lisp3.

(** * Sessions

    A session evaluates source texts one after the other in one
    environment, as the loops that end the three files do. *)

(** [demo_env = make_global_env()] of [lisp2.py]: the second object. *)
Definition lisp2_demo_env : addr := 1%nat.

Definition lisp2_demo_heap : envs := snd (Lisp2.make_global_env Lisp2.init_heap).

Definition lisp1_session (n : nat) (srcs : list string) : M Lisp1.heap value :=
  fold_left (fun m src => bind m (fun _ => Lisp1.run n src)) srcs (ret VNone).

Definition lisp2_session (n : nat) (srcs : list string) (env : addr) : M envs value :=
  fold_left (fun m src => bind m (fun _ => Lisp2.run n src env)) srcs (ret VNone).

Definition lisp3_session (n : nat) (srcs : list string) (env : addr) : M envs value :=
  fold_left (fun m src => bind m (fun _ => Lisp3.run n src env)) srcs (ret VNone).

(** * What a parser comes to

    On the tokens [tokens] a parser returns a value and the tokens left,
    fewer than it was given, or raises one of four exceptions; the
    recursion bound is never reached. *)
Definition parse_result (tokens : list string) (r : res (value * list string))
  : Prop :=
  match r with
  | Ok (_, rest) => (List.length rest < List.length tokens)%nat
  | Raise e =>
      e = SyntaxError_EOF \/ e = SyntaxError_close_paren \/ e = IndexError
      \/ e = SyntaxError_EOF_list
  | Unmodelled | OutOfFuel => False
  end.

(** * Values that print and read back

    The values on which printing then parsing is the identity: integers,
    symbols that are one token and no number, and lists, not empty, of
    such values. *)

Fixpoint all_chars (p : ascii -> bool) (s : string) : bool :=
  match s with
  | EmptyString => true
  | String c r => p c && all_chars p r
  end.

(** A character that neither ends a token nor is one by itself. *)
Definition symbol_char (c : ascii) : bool :=
  negb (is_space c) && negb (Lisp3.is_delim c).

(** A symbol that [lisp2.py] reads back as itself. *)
Definition symbol_ok2 (s : string) : bool :=
  negb (String.eqb s EmptyString) && all_chars symbol_char s
  && match py_int s with Some _ => false | None => true end.

(** A symbol that [lisp3.py] reads back as itself. *)
Definition symbol_ok3 (s : string) : bool :=
  symbol_ok2 s && negb (py_float_ok s).

Fixpoint plain (sym_ok : string -> bool) (v : value) : bool :=
  match v with
  | VInt _ => true
  | VStr s => sym_ok s
  | VList l => match l with [] => false | _ :: _ => forallb (plain sym_ok) l end
  | _ => false
  end.

(** The tokens of the printed form of a plain value. *)
Fixpoint tokens_of (v : value) : list string :=
  match v with
  | VInt z => [str_int z]
  | VStr s => [s]
  | VList l => "(" :: flat_map tokens_of l ++ [")"]
  | _ => []
  end.

(** What may follow a token in a text: nothing, whitespace, a parenthesis
    or a quote. *)
Definition boundary (rest : string) : bool :=
  match rest with
  | EmptyString => true
  | String c _ => is_space c || Lisp3.is_delim c
  end.

(** A plain value [v] has a printed form under the printer [render], and
    the tokenizer reads that form, wherever it stands in a text, as the
    tokens of [v]. *)
Definition scans (sym_ok : string -> bool) (render : value -> option string)
  (v : value) : Prop :=
  plain sym_ok v = true ->
  exists s, render v = Some s /\
    forall rest, boundary rest = true ->
      Lisp3.scan EmptyString (s ++ rest)
      = (tokens_of v ++ Lisp3.scan EmptyString rest)%list.

(** The three replacements of [lisp2.py]'s [tokenize]. *)
Definition spaced (s : string) : string :=
  replace_char ")" " ) " (replace_char "(" " ( " (replace_char "'" " ' " s)).

(** The value of a decimal number whose first digits are worth [acc]. *)
Fixpoint uint_val (acc : Z) (d : Decimal.uint) : Z :=
  match d with
  | Nil => acc
  | D0 l => uint_val (10 * acc) l
  | D1 l => uint_val (10 * acc + 1) l
  | D2 l => uint_val (10 * acc + 2) l
  | D3 l => uint_val (10 * acc + 3) l
  | D4 l => uint_val (10 * acc + 4) l
  | D5 l => uint_val (10 * acc + 5) l
  | D6 l => uint_val (10 * acc + 6) l
  | D7 l => uint_val (10 * acc + 7) l
  | D8 l => uint_val (10 * acc + 8) l
  | D9 l => uint_val (10 * acc + 9) l
  end.

(** * Environments an evaluation leaves alone

    A computation keeps the others, for the environment at [a], when it
    only adds objects to the store and every object that was there
    before, but for the one at [a], is after it what it was. *)
Definition keeps_others {A : Type} (a : addr) (m : M envs A) : Prop :=
  forall h r h', m h = (r, h') ->
    (List.length h <= List.length h')%nat
    /\ forall b, b <> a -> (b < List.length h)%nat -> heap_get h' b = heap_get h b.

(** * Stores of [lisp.py] that resolve alike

    The store [h'] resolves as [h] does when it has the objects of [h],
    and maybe more, and every symbol that resolves from an environment
    of [h] resolves from it in [h'] to the same environment. *)
Definition same_resolution (h h' : Lisp1.heap) : Prop :=
  (List.length h <= List.length h')%nat
  /\ forall e y a, Lisp1.find h e y = Some a -> Lisp1.find h' e y = Some a.

Definition keeps_resolution {A : Type} (m : M Lisp1.heap A) : Prop :=
  forall h r h', m h = (r, h') -> same_resolution h h'.

(** * [_apply] of [lisp.py]

    [fn( *args )] for a [Procedure], and the TypeError, "not a function",
    for every other value.  [n] bounds the recursion of the body. *)
Definition _apply (n : nat) (fn : value) (args : list value)
  : M Lisp1.heap value :=
  match fn with
  | VProc params body penv =>
      local <- Lisp1.new_env params args penv ;; Lisp1.eval n body local
  | _ => fail (Raise TypeError_not_callable)
  end.

(** * Properties *)

(** ** The host functions on examples *)

Example py_int_examples :
  py_int "42" = Some 42 /\ py_int "-7" = Some (-7) /\ py_int "+1_000" = Some 1000
  /\ py_int "1__0" = None /\ py_int "x1" = None /\ py_int EmptyString = None
  /\ py_int "-" = None /\ py_int "1_" = None /\ str_int (-120) = "-120"
  /\ str_int 0 = "0".
Proof. repeat split; reflexivity. Qed.

Example py_float_examples :
  py_float_ok "1.5" = true /\ py_float_ok ".5" = true /\ py_float_ok "1." = true
  /\ py_float_ok "1e5" = true /\ py_float_ok "-1_0.2E-3" = true
  /\ py_float_ok "Inf" = true /\ py_float_ok "nan" = true
  /\ py_float_ok "." = false /\ py_float_ok "e5" = false
  /\ py_float_ok "define" = false /\ py_float_ok "1e" = false
  /\ py_float_ok "+" = false /\ py_float_ok "1.2.3" = false.
Proof. repeat split; reflexivity. Qed.

Example lisp1_demo :
  fst (Lisp1.run 40 "(define fact (lambda (n) (if (= n 0) 1 (* n (fact (- n 1))))))"
         Lisp1.init_heap) = Ok (VStr "fact").
Proof. vm_compute. reflexivity. Qed.

(** The demonstration at the end of [lisp.py]: the factorial of 5, and the
    squares of a list. *)
Example lisp1_demo_fact :
  fst (bind (Lisp1.run 40
               "(define fact (lambda (n) (if (= n 0) 1 (* n (fact (- n 1))))))")
            (fun _ => Lisp1.run 40 "(fact 5)") Lisp1.init_heap)
  = Ok (VInt 120).
Proof. vm_compute. reflexivity. Qed.

Example lisp1_demo_map :
  fst (bind (Lisp1.run 40
               "(define map (lambda (f xs) (if (null? xs) (quote ()) (cons (f (car xs)) (map f (cdr xs))))))")
            (fun _ => Lisp1.run 40 "(map (lambda (x) (* x x)) (list 1 2 3 4))")
            Lisp1.init_heap)
  = Ok (VList [VInt 1; VInt 4; VInt 9; VInt 16]).
Proof. vm_compute. reflexivity. Qed.

(** The demonstrations of [lisp2.py] (in its own [demo_env], the second
    environment made) and the tests that end [lisp3.py]. *)
Example lisp2_demo_add1 :
  fst (lisp2_session 20 ["(defun add1 (x) (+ x 1))"; "(add1 10)"] 1%nat
         lisp2_demo_heap) = Ok (VInt 11).
Proof. vm_compute. reflexivity. Qed.

Example lisp3_tests :
  map (fun src => fst (Lisp3.run 20 src 0%nat Lisp3.init_heap))
    ["(eq 'a 'a)"; "(eq 'a 'b)"; "(atom 'a)"; "(atom '(a b))";
     "(cond ((eq 'a 'b) 'no) ((atom 'a) 'yes))"]
  = [Ok (VBool true); Ok (VList []); Ok (VBool true); Ok (VList []);
     Ok (VStr "yes")].
Proof. vm_compute. reflexivity. Qed.

Example lisp3_test_fact :
  fst (lisp3_session 40
         ["(defun fact (n) (cond ((eq n 0) 1) (T (* n (fact (- n 1))))))";
          "(fact 5)"] 0%nat Lisp3.init_heap) = Ok (VInt 120).
Proof. vm_compute. reflexivity. Qed.

(** ** The store *)

Lemma heap_get_alloc {C : Type} (h : list C) (c : C) :
  heap_get (c :: h) (List.length h) = Some c.
Proof. simpl. now rewrite Nat.eqb_refl. Qed.

Lemma heap_get_older {C : Type} (h : list C) (c : C) (a : addr) :
  (a < List.length h)%nat -> heap_get (c :: h) a = heap_get h a.
Proof.
  intros Ha. simpl. destruct (Nat.eqb_spec a (List.length h)); [lia | reflexivity].
Qed.

Lemma heap_get_bound {C : Type} (h : list C) (a : addr) (c : C) :
  heap_get h a = Some c -> (a < List.length h)%nat.
Proof.
  induction h as [|c' h IH]; simpl; [discriminate|].
  destruct (Nat.eqb_spec a (List.length h)); intros H; [lia|].
  specialize (IH H). lia.
Qed.

Lemma heap_set_length {C : Type} (h : list C) (a : addr) (c : C) :
  List.length (heap_set h a c) = List.length h.
Proof.
  induction h as [|c' h IH]; simpl; [reflexivity|].
  destruct (a =? List.length h)%nat; simpl; congruence.
Qed.

Lemma heap_get_set_same {C : Type} (h : list C) (a : addr) (c c0 : C) :
  heap_get h a = Some c0 -> heap_get (heap_set h a c) a = Some c.
Proof.
  induction h as [|c' h IH]; simpl; [discriminate|].
  destruct (Nat.eqb_spec a (List.length h)) as [E|E]; intros H; simpl.
  - now rewrite E, Nat.eqb_refl.
  - rewrite heap_set_length.
    destruct (Nat.eqb_spec a (List.length h)); [contradiction | auto].
Qed.

Lemma heap_get_set_other {C : Type} (h : list C) (a b : addr) (c : C) :
  a <> b -> heap_get (heap_set h a c) b = heap_get h b.
Proof.
  intros Hab. induction h as [|c' h IH]; simpl; [reflexivity|].
  destruct (Nat.eqb_spec a (List.length h)) as [E|E]; simpl.
  - destruct (Nat.eqb_spec b (List.length h)); [congruence | reflexivity].
  - rewrite heap_set_length.
    destruct (Nat.eqb_spec b (List.length h)); [reflexivity | exact IH].
Qed.

(** ** Dictionaries *)

Lemma dict_get_set_same (d : dict) (k : string) (v : value) :
  dict_get (dict_set d k v) k = Some v.
Proof.
  induction d as [|[k' v'] d IH]; simpl.
  - now rewrite String.eqb_refl.
  - destruct (String.eqb_spec k' k); simpl.
    + now rewrite String.eqb_refl.
    + destruct (String.eqb_spec k' k); [contradiction | exact IH].
Qed.

Lemma dict_get_set_other (d : dict) (k k0 : string) (v : value) :
  k <> k0 -> dict_get (dict_set d k v) k0 = dict_get d k0.
Proof.
  intros Hk. induction d as [|[k' v'] d IH]; simpl.
  - destruct (String.eqb_spec k k0); [contradiction | reflexivity].
  - destruct (String.eqb_spec k' k) as [E|E]; simpl.
    + subst k'. destruct (String.eqb_spec k k0); [contradiction | reflexivity].
    + destruct (String.eqb_spec k' k0); [reflexivity | exact IH].
Qed.

Lemma dict_mem_truthy (d : dict) (k : string) :
  dict_mem d k = true -> dict_truthy d = true.
Proof. destruct d; [discriminate | reflexivity]. Qed.

(** ** The parsers on a list left open *)

(** C8 (the three parsers at the token list of the text [(]): a list
    opened by the last token is not reported as a SyntaxError.  Each
    [parse] pops the parenthesis, then reads [tokens[0]] of the empty
    list, and the host's IndexError escapes.  In [lisp.py] and [lisp3.py]
    the same happens whenever the tokens end inside a list; [lisp2.py]
    tests for the end after each item, so only the list with no item at
    all escapes there. *)
Theorem parse_open_list_raises_IndexError :
  Lisp1.parse ["("] = Raise IndexError
  /\ Lisp2.parse ["("] = Raise IndexError
  /\ Lisp3.parse ["("] = Raise IndexError
  /\ Lisp1.parse (Lisp1.tokenize "(a") = Raise IndexError
  /\ Lisp3.parse (Lisp3.tokenize "(a (b)") = Raise IndexError
  /\ Lisp2.parse (Lisp2.tokenize "(a") = Raise SyntaxError_EOF_list
  /\ Lisp2.parse (Lisp2.tokenize "(a (") = Raise IndexError.
Proof. repeat split; reflexivity. Qed.

(** The errors the claim names are raised where it says: no token at
    all, and a closing parenthesis where an expression starts. *)
Lemma parse_empty_and_close_paren (rest : list string) :
  Lisp1.parse [] = Raise SyntaxError_EOF
  /\ Lisp2.parse [] = Raise SyntaxError_EOF
  /\ Lisp3.parse [] = Raise SyntaxError_EOF
  /\ Lisp1.parse (")" :: rest) = Raise SyntaxError_close_paren
  /\ Lisp2.parse (")" :: rest) = Raise SyntaxError_close_paren
  /\ Lisp3.parse (")" :: rest) = Raise SyntaxError_close_paren.
Proof. repeat split; reflexivity. Qed.

(** ** [cons], [car] and [cdr] *)

(** C6 as the claim states it, in [lisp.py]: [(cons 1 2)] does not raise,
    it returns the list [(1 2)]. *)
Lemma lisp1_cons_1_2_returns_list :
  fst (Lisp1.run 10 "(cons 1 2)" Lisp1.init_heap) = Ok (VList [VInt 1; VInt 2]).
Proof. vm_compute. reflexivity. Qed.

(** C6, amended: in [lisp2.py] and [lisp3.py] [cons] raises the TypeError
    [cons second argument must be a list] when its second argument is not
    a list, and otherwise returns the list of [a] followed by the items of
    [b]; in [lisp.py] [cons] never fails: a second argument that is not a
    list is taken as the list of that one item. *)
Theorem cons_second_argument (a b : value) (h : envs) (penv : addr) :
  Lisp2.apply_prim h "cons" penv [a; b]
  = match b with VList l => Ok (VList (a :: l)) | _ => Raise TypeError_cons end
  /\ Lisp3.apply_prim h "cons" penv [a; b]
     = match b with VList l => Ok (VList (a :: l)) | _ => Raise TypeError_cons end
  /\ Lisp1.apply_prim "cons" [a; b]
     = Ok (VList (a :: match b with VList l => l | _ => [b] end))
  /\ fst (Lisp2.run 10 "(cons 1 2)" lisp2_demo_env lisp2_demo_heap)
     = Raise TypeError_cons
  /\ fst (Lisp3.run 10 "(cons 1 2)" 0%nat Lisp3.init_heap) = Raise TypeError_cons
  /\ fst (Lisp3.run 10 "(cons 1 '(2 3))" 0%nat Lisp3.init_heap)
     = Ok (VList [VInt 1; VInt 2; VInt 3]).
Proof.
  split; [|split; [|split; [|split; [|split]]]];
    try (vm_compute; reflexivity); now destruct b.
Qed.

(** C7 as the claim states it, in [lisp.py]: [(car 5)] raises the host's
    TypeError (an integer cannot be indexed). *)
Lemma lisp1_car_5_raises :
  fst (Lisp1.run 10 "(car 5)" Lisp1.init_heap) = Raise TypeError_host.
Proof. vm_compute. reflexivity. Qed.

(** C7, amended: in [lisp2.py] and [lisp3.py] [car] and [cdr] return the
    empty list, and raise nothing, when their argument is not a list or is
    the empty list.  In [lisp.py] they are the host's [a[0]] and [a[1:]]:
    of the empty list [car] raises IndexError and [cdr] returns the empty
    list, and of a number, a boolean, None or a procedure both raise the
    host's TypeError. *)
Theorem car_cdr_of_non_list (a : value) (h : envs) (penv : addr) :
  (is_list a = false \/ a = VList []) ->
  Lisp2.apply_prim h "car" penv [a] = Ok (VList [])
  /\ Lisp2.apply_prim h "cdr" penv [a] = Ok (VList [])
  /\ Lisp3.apply_prim h "car" penv [a] = Ok (VList [])
  /\ Lisp3.apply_prim h "cdr" penv [a] = Ok (VList [])
  /\ Lisp1.apply_prim "car" [VList []] = Raise IndexError
  /\ Lisp1.apply_prim "cdr" [VList []] = Ok (VList [])
  /\ (is_list a = false -> (forall s, a <> VStr s) ->
      Lisp1.apply_prim "car" [a] = Raise TypeError_host
      /\ Lisp1.apply_prim "cdr" [a] = Raise TypeError_host)
  /\ fst (Lisp3.run 10 "(car 5)" 0%nat Lisp3.init_heap) = Ok (VList [])
  /\ fst (Lisp2.run 10 "(car 5)" lisp2_demo_env lisp2_demo_heap) = Ok (VList []).
Proof.
  intros Ha.
  assert (E : negb (is_list a) || eq_nil a = true)
    by (destruct Ha as [-> | ->]; reflexivity).
  repeat split; try (vm_compute; reflexivity);
    try (cbn; unfold lenient_car, lenient_cdr; now rewrite E).
  - destruct a; try reflexivity; try discriminate. now destruct (H0 s).
  - destruct a; try reflexivity; try discriminate. now destruct (H0 s).
Qed.

Lemma car_cdr_of_non_list_witness :
  (is_list (VInt 5) = false \/ VInt 5 = VList [])
  /\ Lisp3.apply_prim Lisp3.init_heap "car" 0%nat [VInt 5] = Ok (VList []).
Proof.
  split; [left; reflexivity|].
  apply (car_cdr_of_non_list (VInt 5) Lisp3.init_heap 0%nat). left; reflexivity.
Defined.

(** ** [eq] on the true sentinel and the integer 1 *)

Lemma global3_T (a : addr) :
  dict_get (global_dict Lisp3.prim_names a) "T" = Some (VBool true).
Proof. reflexivity. Qed.

Lemma global3_eq (a : addr) :
  dict_get (global_dict Lisp3.prim_names a) "eq" = Some (VPrim "eq" a).
Proof. reflexivity. Qed.

Lemma global2_T (a : addr) :
  dict_get (global_dict Lisp2.prim_names a) "T" = Some (VBool true).
Proof. reflexivity. Qed.

Lemma global2_eq (a : addr) :
  dict_get (global_dict Lisp2.prim_names a) "eq" = Some (VPrim "eq" a).
Proof. reflexivity. Qed.

Lemma py_eq_True_1 : py_eq (VBool true) (VInt 1) = Some true.
Proof. reflexivity. Qed.

Lemma lisp3_eq_T_1 (n : nat) (h : envs) (a : addr) (h' : envs) :
  Lisp3.make_global_env h = (Ok a, h') ->
  Lisp3.run (S (S n)) "(eq T 1)" a h' = (Ok (VBool true), h')
  /\ env_item h' a "T" = Ok (VBool true).
Proof.
  unfold Lisp3.make_global_env, heap_alloc. intros [= <- <-].
  unfold Lisp3.run.
  change (Lisp3.parse (Lisp3.tokenize "(eq T 1)"))
    with (Ok (VList [VStr "eq"; VStr "T"; VInt 1], @nil string)).
  cbn -[global_dict Lisp3.prim_names heap_get].
  unfold bind, env_item, env_get_default, Lisp3.lift. rewrite !heap_get_alloc.
  rewrite global3_eq. cbn -[global_dict Lisp3.prim_names heap_get].
  rewrite global3_T. cbn -[global_dict Lisp3.prim_names heap_get].
  unfold lisp_bool, env_item. rewrite heap_get_alloc, global3_T. split; reflexivity.
Qed.

Lemma global3_NIL (a : addr) :
  dict_get (global_dict Lisp3.prim_names a) "NIL" = Some (VList []).
Proof. reflexivity. Qed.

Lemma global2_NIL (a : addr) :
  dict_get (global_dict Lisp2.prim_names a) "NIL" = Some (VList []).
Proof. reflexivity. Qed.

(** The false sentinel is the empty list, which the host tells from 0. *)
Lemma lisp3_eq_NIL_0 (n : nat) (h : envs) (a : addr) (h' : envs) :
  Lisp3.make_global_env h = (Ok a, h') ->
  Lisp3.run (S (S n)) "(eq NIL 0)" a h' = (Ok (VList []), h')
  /\ env_item h' a "NIL" = Ok (VList []).
Proof.
  unfold Lisp3.make_global_env, heap_alloc. intros [= <- <-].
  unfold Lisp3.run.
  change (Lisp3.parse (Lisp3.tokenize "(eq NIL 0)"))
    with (Ok (VList [VStr "eq"; VStr "NIL"; VInt 0], @nil string)).
  cbn -[global_dict Lisp3.prim_names heap_get].
  unfold bind, env_item, env_get_default, Lisp3.lift. rewrite !heap_get_alloc.
  rewrite global3_eq. cbn -[global_dict Lisp3.prim_names heap_get].
  rewrite global3_NIL. cbn -[global_dict Lisp3.prim_names heap_get].
  unfold lisp_bool, env_item. rewrite heap_get_alloc, global3_NIL.
  split; reflexivity.
Qed.

(** In [lisp2.py] the form [eq] calls the primitive of the module's
    [global_env], and that primitive answers with what [global_env]
    binds [T] and [NIL] to, whatever environment the form is evaluated
    in. *)
Lemma lisp2_eq_answers_global (n : nat) (h : envs) (a : addr) (h' : envs)
  (d : dict) :
  heap_get h Lisp2.global_env = Some d ->
  dict_get d "eq" = Some (VPrim "eq" Lisp2.global_env) ->
  Lisp2.make_global_env h = (Ok a, h') ->
  env_item h' a "T" = Ok (VBool true)
  /\ (forall t, dict_get d "T" = Some t ->
      Lisp2.run (S (S n)) "(eq T 1)" a h' = (Ok t, h'))
  /\ (forall f, dict_get d "NIL" = Some f ->
      Lisp2.run (S (S n)) "(eq NIL 0)" a h' = (Ok f, h')).
Proof.
  intros Hg Heq. unfold Lisp2.make_global_env, heap_alloc. intros [= <- <-].
  assert (Hg' : forall d0, heap_get (d0 :: h) Lisp2.global_env = Some d).
  { intros d0. rewrite heap_get_older; [exact Hg | exact (heap_get_bound _ _ _ Hg)]. }
  split; [|split].
  - unfold env_item. now rewrite heap_get_alloc, global2_T.
  - intros t Ht. unfold Lisp2.run, Lisp2.parse_str.
    change (Lisp2.parse (Lisp2.tokenize "(eq T 1)"))
      with (Ok (VList [VStr "eq"; VStr "T"; VInt 1], @nil string)).
    cbn -[global_dict Lisp2.prim_names heap_get Lisp2.global_env].
    unfold bind, env_get_default. rewrite heap_get_alloc, global2_T.
    cbn -[global_dict Lisp2.prim_names heap_get Lisp2.global_env].
    unfold Lisp2.call_global, env_item. rewrite Hg', Heq.
    cbn -[global_dict Lisp2.prim_names heap_get Lisp2.global_env].
    unfold lisp_bool, env_item. now rewrite Hg', Ht.
  - intros f Hf. unfold Lisp2.run, Lisp2.parse_str.
    change (Lisp2.parse (Lisp2.tokenize "(eq NIL 0)"))
      with (Ok (VList [VStr "eq"; VStr "NIL"; VInt 0], @nil string)).
    cbn -[global_dict Lisp2.prim_names heap_get Lisp2.global_env].
    unfold bind, ret.
    unfold Lisp2.call_global, env_item. rewrite Hg', Heq.
    cbn -[global_dict Lisp2.prim_names heap_get Lisp2.global_env].
    unfold lisp_bool, env_item. now rewrite Hg', Hf.
Qed.

(** [prim_eq] answers with [T] on operands the host takes as equal and
    with [NIL] on the others. *)
Lemma eq_primitive (h : envs) (penv : addr) (x y : value) (c : bool) :
  py_eq x y = Some c ->
  Lisp3.apply_prim h "eq" penv [x; y] = lisp_bool h penv c
  /\ Lisp2.apply_prim h "eq" penv [x; y] = lisp_bool h penv c.
Proof.
  intros H. unfold Lisp3.apply_prim, Lisp2.apply_prim.
  cbn [String.eqb Ascii.eqb Bool.eqb]. now rewrite H.
Qed.

(** C10 as the claim states it.  The false sentinel of the dialect is
    the empty list, and [eq] tells it from 0: [(eq NIL 0)] is NIL.  And
    in [lisp2.py] an environment [make_global_env] has just made gives 0
    for [(eq T 1)], neither T nor NIL, once [(setq T 0)] has run in the
    module's [global_env], whose primitive the form [eq] calls. *)
Lemma eq_tells_NIL_from_0 :
  fst (Lisp3.run 2 "(eq NIL 0)" 0%nat Lisp3.init_heap) = Ok (VList [])
  /\ fst (Lisp2.run 2 "(eq NIL 0)" lisp2_demo_env lisp2_demo_heap) = Ok (VList [])
  /\ (let h1 := snd (Lisp2.run 2 "(setq T 0)" Lisp2.global_env Lisp2.init_heap) in
      let fresh := Lisp2.make_global_env h1 in
      fst fresh = Ok 1%nat
      /\ env_item (snd fresh) 1%nat "T" = Ok (VBool true)
      /\ fst (Lisp2.run 2 "(eq T 1)" 1%nat (snd fresh)) = Ok (VInt 0)).
Proof. repeat split; vm_compute; reflexivity. Qed.

(** C10, amended: [eq] does not tell the true sentinel from the integer
    1, which the host takes as equal, but it does tell the false
    sentinel, the empty list, from 0.  In an environment
    [make_global_env] of [lisp3.py] has just made, [(eq T 1)] is the
    true sentinel, the value of [T], and [(eq NIL 0)] is NIL.  In
    [lisp2.py] the form [eq] calls what the module's [global_env] binds
    [eq] to: while that is its primitive, the answer is what
    [global_env] binds [T] and [NIL] to, so in an environment just made
    [(eq T 1)] is that value of [T], the true sentinel as long as
    [global_env] binds [T] as it was made. *)
Theorem eq_T_1_returns_T (n : nat) (h : envs) (a : addr) (h' : envs)
  (d : dict) (x y : value) (c : bool) (penv : addr) :
  (Lisp3.make_global_env h = (Ok a, h') ->
   Lisp3.run (S (S n)) "(eq T 1)" a h' = (Ok (VBool true), h')
   /\ env_item h' a "T" = Ok (VBool true)
   /\ Lisp3.run (S (S n)) "(eq NIL 0)" a h' = (Ok (VList []), h')
   /\ env_item h' a "NIL" = Ok (VList []))
  /\ (heap_get h Lisp2.global_env = Some d ->
      dict_get d "eq" = Some (VPrim "eq" Lisp2.global_env) ->
      Lisp2.make_global_env h = (Ok a, h') ->
      env_item h' a "T" = Ok (VBool true)
      /\ (forall t, dict_get d "T" = Some t ->
          Lisp2.run (S (S n)) "(eq T 1)" a h' = (Ok t, h'))
      /\ (forall f, dict_get d "NIL" = Some f ->
          Lisp2.run (S (S n)) "(eq NIL 0)" a h' = (Ok f, h')))
  /\ (Lisp2.run (S (S n)) "(eq T 1)" Lisp2.global_env Lisp2.init_heap
      = (Ok (VBool true), Lisp2.init_heap)
      /\ Lisp2.run (S (S n)) "(eq NIL 0)" Lisp2.global_env Lisp2.init_heap
         = (Ok (VList []), Lisp2.init_heap))
  /\ (py_eq x y = Some c ->
      Lisp3.apply_prim h "eq" penv [x; y] = lisp_bool h penv c
      /\ Lisp2.apply_prim h "eq" penv [x; y] = lisp_bool h penv c)
  /\ py_eq (VBool true) (VInt 1) = Some true
  /\ py_eq (VList []) (VInt 0) = Some false.
Proof.
  split.
  { intros H. destruct (lisp3_eq_T_1 n _ _ _ H) as [H1 H2].
    destruct (lisp3_eq_NIL_0 n _ _ _ H) as [H3 H4]. auto. }
  split; [apply lisp2_eq_answers_global|].
  split; [|split; [apply eq_primitive | split; reflexivity]].
  split; unfold Lisp2.run, Lisp2.parse_str.
  - change (Lisp2.parse (Lisp2.tokenize "(eq T 1)"))
      with (Ok (VList [VStr "eq"; VStr "T"; VInt 1], @nil string)).
    reflexivity.
  - change (Lisp2.parse (Lisp2.tokenize "(eq NIL 0)"))
      with (Ok (VList [VStr "eq"; VStr "NIL"; VInt 0], @nil string)).
    reflexivity.
Qed.

Lemma eq_T_1_returns_T_witness :
  (Lisp3.run 2 "(eq T 1)" 0%nat Lisp3.init_heap = (Ok (VBool true), Lisp3.init_heap)
   /\ Lisp3.run 2 "(eq NIL 0)" 0%nat Lisp3.init_heap
      = (Ok (VList []), Lisp3.init_heap))
  /\ (Lisp2.run 2 "(eq T 1)" lisp2_demo_env lisp2_demo_heap
      = (Ok (VBool true), lisp2_demo_heap)
      /\ Lisp2.run 2 "(eq NIL 0)" lisp2_demo_env lisp2_demo_heap
         = (Ok (VList []), lisp2_demo_heap))
  /\ Lisp3.apply_prim Lisp3.init_heap "eq" 0%nat [VBool true; VInt 1]
     = lisp_bool Lisp3.init_heap 0%nat true.
Proof.
  split; [|split].
  - destruct (proj1 (eq_T_1_returns_T 0 [] 0%nat Lisp3.init_heap [] VNone VNone
                       true 0%nat) eq_refl) as (H1 & _ & H2 & _).
    split; [exact H1 | exact H2].
  - destruct (proj1 (proj2 (eq_T_1_returns_T 0 Lisp2.init_heap lisp2_demo_env
                              lisp2_demo_heap
                              (global_dict Lisp2.prim_names Lisp2.global_env)
                              VNone VNone true 0%nat))
                eq_refl eq_refl eq_refl) as (_ & H1 & H2).
    split; [exact (H1 _ eq_refl) | exact (H2 _ eq_refl)].
  - exact (proj1 (proj1 (proj2 (proj2 (proj2
             (eq_T_1_returns_T 0 Lisp3.init_heap 0%nat Lisp3.init_heap []
                (VBool true) (VInt 1) true 0%nat)))) eq_refl)).
Defined.

(** ** Environments of [lisp.py]: [Env.find] *)

Lemma chain_bound (h : Lisp1.heap) (e a : addr) :
  In a (Lisp1.chain h e) -> (a < List.length h)%nat.
Proof.
  revert e. induction h as [|f older IH]; intros e; simpl; [tauto|].
  destruct (Nat.eqb_spec e (List.length older)) as [->|_].
  - intros [<- | Hin]; [lia|].
    destruct (Lisp1.outer f) as [o|]; [|contradiction].
    specialize (IH _ Hin). lia.
  - intros Hin. specialize (IH _ Hin). lia.
Qed.

Lemma find_ext {A : Type} (p q : A -> bool) (l : list A) :
  (forall x, In x l -> p x = q x) -> List.find p l = List.find q l.
Proof.
  induction l as [|x l IH]; intros H; simpl; [reflexivity|].
  rewrite (H x (or_introl eq_refl)).
  destruct (q x); [reflexivity|]. apply IH. intros y Hy. apply H. now right.
Qed.

Lemma owns_older (h : Lisp1.heap) (f : Lisp1.frame) (var : string) (a : addr) :
  (a < List.length h)%nat -> Lisp1.owns (f :: h) var a = Lisp1.owns h var a.
Proof. intros Ha. unfold Lisp1.owns. now rewrite heap_get_older. Qed.

(** [Env.find] is the walk along the chain: it returns the first
    environment of the chain, from the innermost outward, that owns
    [var], and None when no environment of the chain does. *)
Lemma find_walks_chain (h : Lisp1.heap) (e : addr) (var : string) :
  Lisp1.find h e var = List.find (Lisp1.owns h var) (Lisp1.chain h e).
Proof.
  revert e. induction h as [|f older IH]; intros e; simpl; [reflexivity|].
  destruct (Nat.eqb_spec e (List.length older)) as [->|Hne].
  - simpl. unfold Lisp1.owns at 1. rewrite heap_get_alloc.
    destruct (dict_mem (Lisp1.vars f) var); [reflexivity|].
    destruct (Lisp1.outer f) as [o|]; [|reflexivity].
    rewrite IH. apply find_ext. intros a Ha. symmetry. apply owns_older.
    exact (chain_bound _ _ _ Ha).
  - rewrite IH. apply find_ext. intros a Ha. symmetry. apply owns_older.
    exact (chain_bound _ _ _ Ha).
Qed.

Lemma find_owns (h : Lisp1.heap) (e a : addr) (var : string) :
  Lisp1.find h e var = Some a ->
  exists f, heap_get h a = Some f /\ dict_mem (Lisp1.vars f) var = true.
Proof.
  rewrite find_walks_chain. intros H. apply List.find_some in H as [_ H].
  unfold Lisp1.owns in H. destruct (heap_get h a) as [f|]; [|discriminate].
  now exists f.
Qed.

Lemma find_none_chain (h : Lisp1.heap) (e : addr) (var : string) :
  Lisp1.find h e var = None <->
  forall a, In a (Lisp1.chain h e) -> Lisp1.owns h var a = false.
Proof.
  rewrite find_walks_chain. split.
  - intros H a Ha. exact (List.find_none _ _ H a Ha).
  - intros H. destruct (List.find _ _) as [a|] eqn:E; [|reflexivity].
    apply List.find_some in E as [Ha Ho]. rewrite (H a Ha) in Ho. discriminate.
Qed.

(** What [eval_lisp] of [lisp.py] does with a symbol. *)
Lemma lisp1_eval_symbol (n : nat) (h : Lisp1.heap) (env : addr) (x : string) :
  Lisp1.eval (S n) (VStr x) env h
  = match Lisp1.find h env x with
    | Some a =>
        match heap_get h a with
        | Some f => match dict_get (Lisp1.vars f) x with
                    | Some v => (Ok v, h)
                    | None => (Raise KeyError, h)
                    end
        | None => (Unmodelled, h)
        end
    | None => (Raise (NameError_undefined x), h)
    end.
Proof.
  simpl. unfold Lisp1.lookup.
  destruct (Lisp1.find h env x) as [a|] eqn:Hf; [|reflexivity].
  destruct (find_owns _ _ _ _ Hf) as (f & -> & Hm).
  rewrite (dict_mem_truthy _ _ Hm).
  now destruct (dict_get (Lisp1.vars f) x).
Qed.

(** C4 as the claim states it, in [lisp3.py] and [lisp2.py]: the symbol
    [foo], bound nowhere, evaluates to itself. *)
Lemma lisp3_unbound_symbol_is_its_own_value :
  fst (Lisp3.run 10 "foo" 0%nat Lisp3.init_heap) = Ok (VStr "foo")
  /\ fst (Lisp2.run 10 "foo" lisp2_demo_env lisp2_demo_heap) = Ok (VStr "foo").
Proof. split; vm_compute; reflexivity. Qed.

(** C4, amended: in [lisp.py] a symbol is resolved by [Env.find], which
    walks the chain of environments from the innermost outward; the
    value is that of the nearest owner, and when no environment of the
    chain binds the symbol the evaluation raises NameError.  In
    [lisp2.py] and [lisp3.py] the environment is one dictionary, and a
    symbol it does not bind evaluates to itself. *)
Theorem symbol_resolution (n : nat) (x : string) (env : addr)
  (h : Lisp1.heap) (g : envs) :
  Lisp1.find h env x = List.find (Lisp1.owns h x) (Lisp1.chain h env)
  /\ ((forall a, In a (Lisp1.chain h env) -> Lisp1.owns h x a = false) ->
      Lisp1.eval (S n) (VStr x) env h = (Raise (NameError_undefined x), h))
  /\ (forall a, Lisp1.find h env x = Some a ->
      exists f v, heap_get h a = Some f /\ dict_get (Lisp1.vars f) x = Some v
                  /\ Lisp1.eval (S n) (VStr x) env h = (Ok v, h))
  /\ (forall d, heap_get g env = Some d -> dict_get d x = None ->
      Lisp3.eval (S n) (VStr x) env g = (Ok (VStr x), g)
      /\ (x <> "NIL" -> Lisp2.eval (S n) (VStr x) env g = (Ok (VStr x), g))).
Proof.
  split; [apply find_walks_chain|]. split; [|split].
  - intros H. rewrite lisp1_eval_symbol.
    now rewrite (proj2 (find_none_chain h env x) H).
  - intros a Hf. rewrite lisp1_eval_symbol, Hf.
    destruct (find_owns _ _ _ _ Hf) as (f & Hg & Hm). rewrite Hg.
    unfold dict_mem in Hm. destruct (dict_get (Lisp1.vars f) x) as [v|] eqn:E;
      [|discriminate].
    now exists f, v.
  - intros d Hg Hd. split.
    + simpl. unfold env_get_default. now rewrite Hg, Hd.
    + intros Hx. simpl. destruct (String.eqb_spec x "NIL"); [contradiction|].
      unfold env_get_default. now rewrite Hg, Hd.
Qed.

Lemma symbol_resolution_witness :
  Lisp1.eval 1 (VStr "foo") Lisp1.global_env Lisp1.init_heap
  = (Raise (NameError_undefined "foo"), Lisp1.init_heap)
  /\ Lisp3.eval 1 (VStr "foo") 0%nat Lisp3.init_heap
     = (Ok (VStr "foo"), Lisp3.init_heap).
Proof.
  split.
  - apply (proj1 (proj2 (symbol_resolution 0 "foo" Lisp1.global_env
                           Lisp1.init_heap Lisp3.init_heap))).
    intros a Ha. vm_compute in Ha. destruct Ha as [<- | []]. reflexivity.
  - exact (proj1 (proj2 (proj2 (proj2 (symbol_resolution 0 "foo" 0%nat
                                         Lisp1.init_heap Lisp3.init_heap)))
                    (global_dict Lisp3.prim_names 0%nat) eq_refl eq_refl)).
Defined.

(** ** Truth in [if] and [cond] *)

Lemma lisp3_cond_clause (n : nat) (env : addr) (g g1 : envs)
  (test expr tval : value) (rest : list value) :
  Lisp3.eval n test env g = (Ok tval, g1) ->
  Lisp3.eval (S n) (VList (VStr "cond" :: VList [test; expr] :: rest)) env g
  = if eq_nil tval then Lisp3.eval (S n) (VList (VStr "cond" :: rest)) env g1
    else Lisp3.eval n expr env g1.
Proof.
  intros H. cbn. unfold bind, Lisp3.lift. cbn. rewrite H.
  destruct (eq_nil tval); reflexivity.
Qed.

Lemma lisp2_cond_clause (n : nat) (env : addr) (g g1 : envs)
  (test expr tval : value) (rest : list value) :
  Lisp2.eval n test env g = (Ok tval, g1) ->
  Lisp2.eval (S n) (VList (VStr "cond" :: VList [test; expr] :: rest)) env g
  = if eq_nil tval then Lisp2.eval (S n) (VList (VStr "cond" :: rest)) env g1
    else Lisp2.eval n expr env g1.
Proof.
  intros H. cbn. unfold bind. rewrite H.
  destruct (eq_nil tval); reflexivity.
Qed.

Lemma lisp1_if (n : nat) (env : addr) (h h1 : Lisp1.heap)
  (test conseq alt result : value) :
  Lisp1.eval n test env h = (Ok result, h1) ->
  Lisp1.eval (S n) (VList [VStr "if"; test; conseq; alt]) env h
  = match truthy result with
    | Some true => Lisp1.eval n conseq env h1
    | Some false => Lisp1.eval n alt env h1
    | None => (Unmodelled, h1)
    end.
Proof.
  intros H. cbn. unfold bind. rewrite H.
  destruct (truthy result) as [[|]|]; reflexivity.
Qed.

(** The values the host takes as false. *)
Lemma falsy_values (v : value) :
  truthy v = Some false <->
  v = VInt 0 \/ (exists lit, v = VFloat lit /\ float_zero lit = true)
  \/ v = VStr EmptyString \/ v = VBool false \/ v = VNone \/ v = VList [].
Proof.
  split.
  - destruct v as [z|lit|s|b| |l| | ]; simpl; intros H; try discriminate.
    + left. injection H as H. apply negb_false_iff, Z.eqb_eq in H. now subst.
    + right; left. injection H as H. apply negb_false_iff in H. now exists lit.
    + right; right; left. injection H as H.
      apply negb_false_iff, String.eqb_eq in H. now subst.
    + injection H as ->. tauto.
    + tauto.
    + destruct l; [tauto | discriminate].
  - intros [-> | [(lit & -> & H) | [-> | [-> | [-> | ->]]]]]; try reflexivity.
    simpl. now rewrite H.
Qed.

(** Every value has a truth value. *)
Lemma truthy_total (v : value) : exists b, truthy v = Some b.
Proof. destruct v as [| | | | |[|]| | ]; simpl; eexists; reflexivity. Qed.

(** Float literals that are zero as the host reads them, and some that
    are not: the least float above zero is [2 ^ -1074], about 4.9e-324,
    and what is at most half of it rounds to zero. *)
Example float_zero_examples :
  float_zero "0.0" = true /\ float_zero "-0.0" = true /\ float_zero ".0" = true
  /\ float_zero "0." = true /\ float_zero "0e5" = true
  /\ float_zero "0_0.0_0e1_0" = true /\ float_zero "1e-400" = true
  /\ float_zero "2.4703282292062327e-324" = true
  /\ float_zero "2.4703282292062328e-324" = false
  /\ float_zero "5e-324" = false /\ float_zero "0.5" = false
  /\ float_zero "1_0.0_1" = false /\ float_zero "-2.5E+3" = false
  /\ float_zero "1e999" = false /\ float_zero "nan" = false
  /\ float_zero "-Infinity" = false.
Proof. repeat split; vm_compute; reflexivity. Qed.

(** C3 as the claim states it, for [if] (which only [lisp.py] has): the
    integer 0, the float 0.0 and the empty string are not the empty
    list, yet as tests they select the alternative. *)
Lemma lisp1_if_zero_selects_alternative :
  fst (Lisp1.run 10 "(if 0 1 2)" Lisp1.init_heap) = Ok (VInt 2)
  /\ fst (Lisp1.run 10 "(if 0.0 1 2)" Lisp1.init_heap) = Ok (VInt 2)
  /\ fst (Lisp1.eval 10
            (VList [VStr "if"; VList [VStr "quote"; VStr EmptyString];
                    VInt 1; VInt 2])
            Lisp1.global_env Lisp1.init_heap) = Ok (VInt 2)
  /\ eq_nil (VInt 0) = false /\ eq_nil (VFloat "0.0") = false
  /\ eq_nil (VStr EmptyString) = false.
Proof. repeat split; vm_compute; reflexivity. Qed.

(** C3, amended: in the test of a [cond] clause ([lisp2.py], [lisp3.py])
    every value other than the empty list counts as true, and only the
    empty list makes the clause fail.  In the test of [if] ([lisp.py])
    the host's truth value decides, and every value has one: the empty
    list, the integer 0, a float that is zero, the empty string, the
    false sentinel and None select the alternative, every other value
    the consequent. *)
Theorem truth_of_tests (n : nat) (env : addr) (test expr alt tval : value)
  (rest : list value) (g g1 : envs) (h h1 : Lisp1.heap) :
  (Lisp3.eval n test env g = (Ok tval, g1) ->
   Lisp3.eval (S n) (VList (VStr "cond" :: VList [test; expr] :: rest)) env g
   = if eq_nil tval then Lisp3.eval (S n) (VList (VStr "cond" :: rest)) env g1
     else Lisp3.eval n expr env g1)
  /\ (Lisp2.eval n test env g = (Ok tval, g1) ->
      Lisp2.eval (S n) (VList (VStr "cond" :: VList [test; expr] :: rest)) env g
      = if eq_nil tval then Lisp2.eval (S n) (VList (VStr "cond" :: rest)) env g1
        else Lisp2.eval n expr env g1)
  /\ (Lisp1.eval n test env h = (Ok tval, h1) ->
      exists b, truthy tval = Some b
                /\ Lisp1.eval (S n) (VList [VStr "if"; test; expr; alt]) env h
                   = Lisp1.eval n (if b then expr else alt) env h1)
  /\ (truthy tval = Some false <->
      tval = VInt 0 \/ (exists lit, tval = VFloat lit /\ float_zero lit = true)
      \/ tval = VStr EmptyString \/ tval = VBool false
      \/ tval = VNone \/ tval = VList [])
  /\ (truthy tval = Some true \/ truthy tval = Some false)
  /\ (eq_nil tval = true <-> tval = VList []).
Proof.
  split; [apply lisp3_cond_clause|]. split; [apply lisp2_cond_clause|].
  split.
  { intros H. destruct (truthy_total tval) as [b Hb]. exists b.
    split; [exact Hb|]. rewrite (lisp1_if _ _ _ _ _ _ _ _ H), Hb.
    now destruct b. }
  split; [apply falsy_values|].
  split; [destruct (truthy_total tval) as [[|] Hb]; auto|].
  split; [|now intros ->].
  destruct tval as [| | | | |[|]| | ]; simpl; intros H; try discriminate.
  reflexivity.
Qed.

Lemma truth_of_tests_witness :
  Lisp3.eval 2 (VList [VStr "cond"; VList [VInt 0; VInt 1]]) 0%nat Lisp3.init_heap
  = (Ok (VInt 1), Lisp3.init_heap)
  /\ Lisp2.eval 2 (VList [VStr "cond"; VList [VInt 0; VInt 1]]) 0%nat
       Lisp2.init_heap
     = (Ok (VInt 1), Lisp2.init_heap)
  /\ Lisp1.eval 2 (VList [VStr "if"; VFloat "0.0"; VInt 1; VInt 2]) 0%nat
       Lisp1.init_heap
     = (Ok (VInt 2), Lisp1.init_heap)
  /\ Lisp1.eval 2 (VList [VStr "if"; VFloat "0.5"; VInt 1; VInt 2]) 0%nat
       Lisp1.init_heap
     = (Ok (VInt 1), Lisp1.init_heap).
Proof.
  pose proof (truth_of_tests 1 0%nat (VInt 0) (VInt 1) (VInt 2) (VInt 0) []
                Lisp3.init_heap Lisp3.init_heap Lisp1.init_heap Lisp1.init_heap)
    as (H3 & _).
  pose proof (truth_of_tests 1 0%nat (VInt 0) (VInt 1) (VInt 2) (VInt 0) []
                Lisp2.init_heap Lisp2.init_heap Lisp1.init_heap Lisp1.init_heap)
    as (_ & H2 & _).
  pose proof (truth_of_tests 1 0%nat (VFloat "0.0") (VInt 1) (VInt 2)
                (VFloat "0.0") [] Lisp3.init_heap Lisp3.init_heap
                Lisp1.init_heap Lisp1.init_heap)
    as (_ & _ & H0 & _).
  pose proof (truth_of_tests 1 0%nat (VFloat "0.5") (VInt 1) (VInt 2)
                (VFloat "0.5") [] Lisp3.init_heap Lisp3.init_heap
                Lisp1.init_heap Lisp1.init_heap)
    as (_ & _ & H5 & _).
  split; [exact (H3 eq_refl) | split; [exact (H2 eq_refl) |]].
  destruct (H0 eq_refl) as (b0 & Hb0 & He0).
  destruct (H5 eq_refl) as (b5 & Hb5 & He5).
  vm_compute in Hb0, Hb5. injection Hb0 as <-. injection Hb5 as <-.
  split; [exact He0 | exact He5].
Defined.

(** ** Applying a procedure *)

Ltac not_special H :=
  unfold Lisp1.is_special, Lisp2.is_special in H; simpl in H;
  repeat (apply orb_false_elim in H;
          let H1 := fresh "Hs" in destruct H as [H1 H]);
  clear H.

(** The application of a Closure in [lisp2.py], once the operator and
    the operands are evaluated. *)
Lemma lisp2_apply_closure (n : nat) (env : addr) (g g1 g2 : envs)
  (head params body : value) (cenv : addr) (rest args : list value) (k : nat) :
  Lisp2.is_special head = false ->
  Lisp2.eval n head env g = (Ok (VProc params body cenv), g1) ->
  eval_each (fun e => Lisp2.eval n e env) rest g1 = (Ok args, g2) ->
  py_len params = Ok k ->
  Lisp2.eval (S n) (VList (head :: rest)) env g
  = if (k =? List.length args)%nat
    then (new_env <- env_copy cenv ;;
          _ <- env_bind new_env params args ;;
          Lisp2.eval n body new_env) g2
    else (Raise TypeError_arg_count, g2).
Proof.
  intros Hs Hh Ha Hk. not_special Hs.
  cbn. rewrite Hs0, Hs1, Hs2, Hs3, Hs4, Hs5, Hs6, Hs7, Hs8, Hs9.
  unfold bind at 1. rewrite Hh. unfold bind at 1. rewrite Ha. rewrite Hk.
  destruct (k =? List.length args)%nat; reflexivity.
Qed.

Lemma zip_keys_names (names : list string) (args : list value) :
  zip_keys (map VStr names) args = Ok (combine names args).
Proof.
  revert args.
  induction names as [|x names IH]; intros [|a args]; simpl; try reflexivity.
  now rewrite IH.
Qed.

(** The application of a Procedure in [lisp.py]. *)
Lemma lisp1_apply_procedure (n : nat) (env : addr) (h h1 h2 : Lisp1.heap)
  (head params body : value) (penv : addr) (rest args : list value) :
  Lisp1.is_special head = false ->
  Lisp1.eval n head env h = (Ok (VProc params body penv), h1) ->
  eval_each (fun e => Lisp1.eval n e env) rest h1 = (Ok args, h2) ->
  Lisp1.eval (S n) (VList (head :: rest)) env h
  = (local <- Lisp1.new_env params args penv ;; Lisp1.eval n body local) h2.
Proof.
  intros Hs Hh Ha. not_special Hs.
  cbn. rewrite Hs0, Hs1, Hs2, Hs3, Hs4, Hs5. cbn.
  unfold bind at 1. rewrite Hh. unfold bind at 1. rewrite Ha. reflexivity.
Qed.

(** [Env(params, args, outer)] for parameters that are symbols: a new
    environment, whose [outer] is the one given, binding each parameter to
    the argument at its place, as far as both go. *)
Lemma lisp1_new_env (names : list string) (args : list value) (penv : addr)
  (h : Lisp1.heap) :
  Lisp1.new_env (VList (map VStr names)) args penv h
  = (Ok (List.length h),
     Lisp1.Frame (dict_update [] (combine names args)) (Some penv) :: h).
Proof. unfold Lisp1.new_env. simpl. now rewrite zip_keys_names. Qed.

(** C5 as the claim states it, in [lisp.py] and [lisp3.py]: the call
    [((lambda (x y) x) 1)] raises nothing, it returns 1. *)
Lemma lisp1_missing_argument_returns :
  fst (Lisp1.run 10 "((lambda (x y) x) 1)" Lisp1.init_heap) = Ok (VInt 1)
  /\ fst (Lisp3.run 10 "((lambda (x y) x) 1)" 0%nat Lisp3.init_heap)
     = Ok (VInt 1).
Proof. split; vm_compute; reflexivity. Qed.

(** C5, amended: in [lisp2.py] the application of a Closure raises the
    TypeError [argument count mismatch] when the number of arguments
    differs from the number of parameters, with the store as the
    evaluation of the operator and operands left it (so before the body is
    evaluated), and otherwise evaluates the body in a copy of the
    Closure's environment extended with the parameters.  In [lisp.py]
    there is no test of the count: the parameters are bound to the
    arguments as far as both go, and the body is evaluated. *)
Theorem closure_argument_count (n : nat) (env : addr)
  (head params body : value) (cenv : addr) (rest args : list value) (k : nat)
  (names : list string) (g g1 g2 : envs) (h h1 h2 : Lisp1.heap) :
  (Lisp2.is_special head = false ->
   Lisp2.eval n head env g = (Ok (VProc params body cenv), g1) ->
   eval_each (fun e => Lisp2.eval n e env) rest g1 = (Ok args, g2) ->
   py_len params = Ok k ->
   Lisp2.eval (S n) (VList (head :: rest)) env g
   = if (k =? List.length args)%nat
     then (new_env <- env_copy cenv ;;
           _ <- env_bind new_env params args ;;
           Lisp2.eval n body new_env) g2
     else (Raise TypeError_arg_count, g2))
  /\ (Lisp1.is_special head = false ->
      Lisp1.eval n head env h = (Ok (VProc (VList (map VStr names)) body cenv), h1) ->
      eval_each (fun e => Lisp1.eval n e env) rest h1 = (Ok args, h2) ->
      Lisp1.eval (S n) (VList (head :: rest)) env h
      = Lisp1.eval n body (List.length h2)
          (Lisp1.Frame (dict_update [] (combine names args)) (Some cenv) :: h2)).
Proof.
  split.
  - apply lisp2_apply_closure.
  - intros Hs Hh Ha.
    rewrite (lisp1_apply_procedure _ _ _ _ _ _ _ _ _ _ _ Hs Hh Ha).
    unfold bind. now rewrite lisp1_new_env.
Qed.

Lemma closure_argument_count_witness :
  Lisp2.eval 3
    (VList [VList [VStr "lambda"; VList [VStr "x"; VStr "y"]; VStr "x"]; VInt 1])
    lisp2_demo_env lisp2_demo_heap
  = (Raise TypeError_arg_count,
     snd (Lisp2.eval 2 (VList [VStr "lambda"; VList [VStr "x"; VStr "y"]; VStr "x"])
            lisp2_demo_env lisp2_demo_heap))
  /\ fst (Lisp1.eval 3
            (VList [VList [VStr "lambda"; VList [VStr "x"; VStr "y"]; VStr "x"];
                    VInt 1])
            Lisp1.global_env Lisp1.init_heap) = Ok (VInt 1).
Proof.
  split.
  - exact (proj1 (closure_argument_count 2 lisp2_demo_env
             (VList [VStr "lambda"; VList [VStr "x"; VStr "y"]; VStr "x"])
             (VList [VStr "x"; VStr "y"]) (VStr "x") 2%nat [VInt 1] [VInt 1] 2%nat
             ["x"; "y"] lisp2_demo_heap
             (snd (Lisp2.eval 2
                     (VList [VStr "lambda"; VList [VStr "x"; VStr "y"]; VStr "x"])
                     lisp2_demo_env lisp2_demo_heap))
             (snd (Lisp2.eval 2
                     (VList [VStr "lambda"; VList [VStr "x"; VStr "y"]; VStr "x"])
                     lisp2_demo_env lisp2_demo_heap))
             Lisp1.init_heap Lisp1.init_heap Lisp1.init_heap)
           eq_refl eq_refl eq_refl eq_refl).
  - rewrite (proj2 (closure_argument_count 2 Lisp1.global_env
             (VList [VStr "lambda"; VList [VStr "x"; VStr "y"]; VStr "x"])
             (VList [VStr "x"; VStr "y"]) (VStr "x") Lisp1.global_env [VInt 1]
             [VInt 1] 2%nat ["x"; "y"] lisp2_demo_heap lisp2_demo_heap
             lisp2_demo_heap Lisp1.init_heap Lisp1.init_heap Lisp1.init_heap)
           eq_refl eq_refl eq_refl).
    reflexivity.
Defined.

(** ** Binding a symbol: [define], [set!] and [setq] *)

Lemma lisp1_assign_spec (h : Lisp1.heap) (env : addr) (name : string) (val : value) :
  Lisp1.assign h env name val
  = match Lisp1.find h env name with
    | Some a => Lisp1.set_var h a name val
    | None => Lisp1.set_var h env name val
    end.
Proof.
  unfold Lisp1.assign. destruct (Lisp1.find h env name) as [a|] eqn:Hf; [|reflexivity].
  destruct (find_owns _ _ _ _ Hf) as (f & -> & Hm).
  now rewrite (dict_mem_truthy _ _ Hm).
Qed.

Lemma lisp1_define (n : nat) (env : addr) (head name : string) (expr val : value)
  (h h1 : Lisp1.heap) :
  head = "define" \/ head = "set!" ->
  Lisp1.eval n expr env h = (Ok val, h1) ->
  Lisp1.eval (S n) (VList [VStr head; VStr name; expr]) env h
  = (Ok (VStr name),
     match Lisp1.find h1 env name with
     | Some a => Lisp1.set_var h1 a name val
     | None => Lisp1.set_var h1 env name val
     end).
Proof.
  intros Hd He. rewrite <- lisp1_assign_spec.
  destruct Hd as [-> | ->]; cbn; unfold bind; rewrite He; reflexivity.
Qed.

Lemma set_var_get (h : Lisp1.heap) (a : addr) (name : string) (val : value) (f : Lisp1.frame) :
  heap_get h a = Some f ->
  heap_get (Lisp1.set_var h a name val) a
  = Some (Lisp1.Frame (dict_set (Lisp1.vars f) name val) (Lisp1.outer f))
  /\ forall b, b <> a -> heap_get (Lisp1.set_var h a name val) b = heap_get h b.
Proof.
  intros Hf. unfold Lisp1.set_var. rewrite Hf. split.
  - eapply heap_get_set_same; eauto.
  - intros b Hb. apply heap_get_set_other. congruence.
Qed.

Lemma chain_heap_set (h : Lisp1.heap) (a e : addr) (f : Lisp1.frame) (d : dict) :
  heap_get h a = Some f ->
  Lisp1.chain (heap_set h a (Lisp1.Frame d (Lisp1.outer f))) e = Lisp1.chain h e.
Proof.
  revert e. induction h as [|f0 older IH]; intros e; simpl; [discriminate|].
  destruct (Nat.eqb_spec a (List.length older)) as [->|Hne]; intros Hf; simpl.
  - injection Hf as ->. destruct (e =? List.length older)%nat; reflexivity.
  - rewrite heap_set_length.
    destruct (e =? List.length older)%nat; [|now apply IH].
    destruct (Lisp1.outer f0); [|reflexivity]. now rewrite IH.
Qed.

Lemma dict_mem_set (d : dict) (k k0 : string) (v : value) :
  dict_mem (dict_set d k v) k0 = dict_mem d k0 || String.eqb k k0.
Proof.
  unfold dict_mem. destruct (String.eqb_spec k k0) as [->|Hne].
  - rewrite dict_get_set_same. now rewrite orb_true_r.
  - rewrite dict_get_set_other by assumption. now rewrite orb_false_r.
Qed.

Lemma owns_set_var (h : Lisp1.heap) (a b : addr) (x y : string) (v : value) (f : Lisp1.frame) :
  heap_get h a = Some f ->
  Lisp1.owns (Lisp1.set_var h a x v) y b
  = Lisp1.owns h y b || ((b =? a)%nat && String.eqb x y).
Proof.
  intros Hf. unfold Lisp1.owns.
  destruct (Nat.eqb_spec b a) as [->|Hne].
  - rewrite (proj1 (set_var_get _ _ x v _ Hf)), Hf. simpl. apply dict_mem_set.
  - rewrite (proj2 (set_var_get _ _ x v _ Hf)) by assumption. simpl.
    now rewrite orb_false_r.
Qed.

Lemma chain_head (h : Lisp1.heap) (e : addr) (f : Lisp1.frame) :
  heap_get h e = Some f -> exists l, Lisp1.chain h e = e :: l.
Proof.
  induction h as [|f0 older IH]; simpl; [discriminate|].
  destruct (e =? List.length older)%nat; eauto.
Qed.

(** After the binding step, the symbol resolves to the value bound. *)
Lemma lookup_after_assign (h : Lisp1.heap) (env : addr) (name : string) (val : value) (f : Lisp1.frame) :
  heap_get h env = Some f ->
  Lisp1.lookup (Lisp1.assign h env name val) env name = Ok val.
Proof.
  intros He. rewrite lisp1_assign_spec.
  assert (Hfind : forall a fa, heap_get h a = Some fa ->
            Lisp1.find h env name = Some a \/ (Lisp1.find h env name = None /\ a = env) ->
            Lisp1.find (Lisp1.set_var h a name val) env name = Some a).
  { intros a fa Ha Hcase. rewrite find_walks_chain.
    unfold Lisp1.set_var at 2. rewrite Ha. rewrite (chain_heap_set _ _ _ _ _ Ha).
    rewrite (find_ext _ (fun b => Lisp1.owns h name b || ((b =? a)%nat && String.eqb name name))).
    2:{ intros b _. now apply owns_set_var with (f := fa). }
    rewrite String.eqb_refl.
    destruct Hcase as [Hs | [Hn ->]].
    - rewrite find_walks_chain in Hs.
      rewrite <- Hs. apply find_ext. intros b _.
      destruct (Nat.eqb_spec b a) as [->|]; [|now rewrite orb_false_r].
      apply List.find_some in Hs as [_ Ho]. now rewrite Ho.
    - destruct (chain_head _ _ _ He) as [l Hl]. rewrite Hl. simpl.
      now rewrite Nat.eqb_refl, orb_true_r. }
  unfold Lisp1.lookup.
  destruct (Lisp1.find h env name) as [a|] eqn:Hf.
  - destruct (find_owns _ _ _ _ Hf) as (fa & Ha & Hm).
    rewrite (Hfind a fa Ha (or_introl eq_refl)).
    rewrite (proj1 (set_var_get _ _ name val _ Ha)). simpl.
    rewrite dict_get_set_same.
    destruct (dict_set (Lisp1.vars fa) name val) eqn:E; [|reflexivity].
    destruct (Lisp1.vars fa) as [|[] ?]; simpl in E; [discriminate|].
    destruct (String.eqb s name); discriminate.
  - rewrite (Hfind env f He (or_intror (conj eq_refl eq_refl))).
    rewrite (proj1 (set_var_get _ _ name val _ He)). simpl.
    rewrite dict_get_set_same.
    destruct (dict_set (Lisp1.vars f) name val) eqn:E; [|reflexivity].
    destruct (Lisp1.vars f) as [|[] ?]; simpl in E; [discriminate|].
    destruct (String.eqb s name); discriminate.
Qed.

Lemma lisp2_setq (n : nat) (env : addr) (name : string) (expr val : value)
  (g g1 : envs) (d : dict) :
  Lisp2.eval n expr env g = (Ok val, g1) ->
  heap_get g1 env = Some d ->
  Lisp2.eval (S n) (VList [VStr "setq"; VStr name; expr]) env g
  = (Ok (VStr name), heap_set g1 env (dict_set d name val)).
Proof.
  intros He Hd. cbn. unfold bind. rewrite He. unfold env_store. now rewrite Hd.
Qed.

(** ** The recursion bound: a result, once reached, stays *)

Lemma stable_refl {S A : Type} (m : M S A) : stable m m.
Proof. intros h r h' H _. exact H. Qed.

Lemma stable_bind {S A B : Type} (m m' : M S A) (k k' : A -> M S B) :
  stable m m' -> (forall a, stable (k a) (k' a)) ->
  stable (bind m k) (bind m' k').
Proof.
  intros Hm Hk h r h' H Hr. unfold bind in *.
  destruct (m h) as [[a| | |] h1] eqn:E.
  - rewrite (Hm _ _ _ E) by discriminate. now apply Hk.
  - rewrite (Hm _ _ _ E) by discriminate. exact H.
  - rewrite (Hm _ _ _ E) by discriminate. exact H.
  - injection H as <- <-. congruence.
Qed.

Lemma stable_eval_each {S : Type} (ev ev' : value -> M S value) (l : list value) :
  (forall x, stable (ev x) (ev' x)) -> stable (eval_each ev l) (eval_each ev' l).
Proof.
  intros H. induction l as [|x l IH]; simpl; [apply stable_refl|].
  apply stable_bind; [apply H|]. intros v.
  apply stable_bind; [apply IH|]. intros vs. apply stable_refl.
Qed.

Lemma stable_eval_seq (ev ev' : value -> M Lisp1.heap value) (l : list value) (r : value) :
  (forall x, stable (ev x) (ev' x)) ->
  stable (Lisp1.eval_seq ev r l) (Lisp1.eval_seq ev' r l).
Proof.
  intros H. revert r. induction l as [|x l IH]; intros r; simpl; [apply stable_refl|].
  apply stable_bind; [apply H|]. intros v. apply IH.
Qed.

Ltac stable_step IH :=
  first
    [ apply stable_refl
    | apply IH
    | apply stable_eval_each; intros
    | apply stable_eval_seq; intros
    | apply stable_bind; [|intros]
    | match goal with
      | |- stable (match ?c with _ => _ end) _ => destruct c
      | |- stable (if ?c then _ else _) _ => destruct c
      end ].

Lemma lisp1_eval_step (n : nat) :
  forall x env, stable (Lisp1.eval n x env) (Lisp1.eval (S n) x env).
Proof.
  induction n as [|n IH]; intros x env.
  - intros h r h' H Hr. injection H as <- <-. congruence.
  - cbn [Lisp1.eval]. repeat stable_step IH.
Qed.

Lemma stable_eval_cond2 (ev ev' : value -> M envs value) (l : list value) :
  (forall x, stable (ev x) (ev' x)) ->
  stable (Lisp2.eval_cond ev l) (Lisp2.eval_cond ev' l).
Proof.
  intros H. induction l as [|x l IH]; simpl; [apply stable_refl|].
  repeat first
    [ apply stable_refl | apply H | apply IH | apply stable_bind; [|intros]
    | match goal with
      | |- stable (match ?c with _ => _ end) _ => destruct c
      | |- stable (if ?c then _ else _) _ => destruct c
      end ].
Qed.

Lemma stable_eval_cond3 (ev ev' : value -> M envs value) (l : list value) :
  (forall x, stable (ev x) (ev' x)) ->
  stable (Lisp3.eval_cond ev l) (Lisp3.eval_cond ev' l).
Proof.
  intros H. induction l as [|x l IH]; simpl; [apply stable_refl|].
  repeat first
    [ apply stable_refl | apply H | apply IH | apply stable_bind; [|intros]
    | match goal with
      | |- stable (match ?c with _ => _ end) _ => destruct c
      | |- stable (if ?c then _ else _) _ => destruct c
      end ].
Qed.

Ltac stable_step23 IH :=
  first
    [ apply stable_refl
    | apply IH
    | apply stable_eval_each; intros
    | apply stable_eval_cond2; intros
    | apply stable_eval_cond3; intros
    | apply stable_bind; [|intros]
    | match goal with
      | |- stable (match ?c with _ => _ end) _ => destruct c
      | |- stable (if ?c then _ else _) _ => destruct c
      end ].

Lemma lisp2_eval_step (n : nat) :
  forall x env, stable (Lisp2.eval n x env) (Lisp2.eval (S n) x env).
Proof.
  induction n as [|n IH]; intros x env.
  - intros h r h' H Hr. injection H as <- <-. congruence.
  - cbn [Lisp2.eval]. repeat stable_step23 IH.
Qed.

Lemma lisp3_eval_step (n : nat) :
  forall x env, stable (Lisp3.eval n x env) (Lisp3.eval (S n) x env).
Proof.
  induction n as [|n IH]; intros x env.
  - intros h r h' H Hr. injection H as <- <-. congruence.
  - cbn [Lisp3.eval]. repeat stable_step23 IH.
Qed.

(** More fuel does not change a result. *)
Lemma stable_from {S A : Type} (f : nat -> M S A) (n0 : nat) (h : S) :
  (forall n, stable (f n) (f (Datatypes.S n))) ->
  fst (f n0 h) <> OutOfFuel ->
  forall k, f (n0 + k)%nat h = f n0 h.
Proof.
  intros Hstep Hr k. induction k as [|k IH].
  - now rewrite Nat.add_0_r.
  - rewrite Nat.add_succ_r. destruct (f n0 h) as [r h'] eqn:E.
    apply Hstep; [exact IH | exact Hr].
Qed.

Lemma lisp1_run_step (n : nat) (src : string) :
  stable (Lisp1.run n src) (Lisp1.run (S n) src).
Proof.
  unfold Lisp1.run. intros h r h'.
  destruct (Lisp1.loads src); try (intros H _; exact H).
  apply stable_eval_seq. intros x. apply lisp1_eval_step.
Qed.

Lemma lisp2_run_step (n : nat) (src : string) (env : addr) :
  stable (Lisp2.run n src env) (Lisp2.run (S n) src env).
Proof.
  unfold Lisp2.run. intros h r h'.
  destruct (Lisp2.parse_str src); try (intros H _; exact H).
  apply lisp2_eval_step.
Qed.

Lemma lisp3_run_step (n : nat) (src : string) (env : addr) :
  stable (Lisp3.run n src env) (Lisp3.run (S n) src env).
Proof.
  unfold Lisp3.run. intros h r h'.
  destruct (Lisp3.parse (Lisp3.tokenize src)) as [[ast ?]| | |];
    try (intros H _; exact H).
  apply lisp3_eval_step.
Qed.

Lemma stable_session {S : Type} (run run' : string -> M S value)
  (srcs : list string) (m m' : M S value) :
  (forall src, stable (run src) (run' src)) -> stable m m' ->
  stable (fold_left (fun m src => bind m (fun _ => run src)) srcs m)
         (fold_left (fun m src => bind m (fun _ => run' src)) srcs m').
Proof.
  intros Hrun. revert m m'. induction srcs as [|src srcs IH]; intros m m' Hm.
  - exact Hm.
  - simpl. apply IH. apply stable_bind; [exact Hm | intros _; apply Hrun].
Qed.

Lemma lisp1_session_step (srcs : list string) (n : nat) :
  stable (lisp1_session n srcs) (lisp1_session (S n) srcs).
Proof.
  apply stable_session; [intros src; apply lisp1_run_step | apply stable_refl].
Qed.

Lemma lisp2_session_step (srcs : list string) (env : addr) (n : nat) :
  stable (lisp2_session n srcs env) (lisp2_session (S n) srcs env).
Proof.
  apply stable_session; [intros src; apply lisp2_run_step | apply stable_refl].
Qed.

Lemma lisp3_session_step (srcs : list string) (env : addr) (n : nat) :
  stable (lisp3_session n srcs env) (lisp3_session (S n) srcs env).
Proof.
  apply stable_session; [intros src; apply lisp3_run_step | apply stable_refl].
Qed.

(** ** Closures and the environment they hold *)

(** [lambda] of [lisp.py] makes a Procedure that holds the environment of
    its definition itself: nothing is copied, the store is unchanged. *)
Lemma lisp1_lambda_captures_env (n : nat) (env : addr) (params body : value)
  (h : Lisp1.heap) :
  Lisp1.eval (S n) (VList [VStr "lambda"; params; body]) env h
  = (Ok (VProc params body env), h).
Proof. reflexivity. Qed.

(** [lambda] of [lisp2.py] makes a Closure that holds a copy, made at the
    definition, of the environment; [defun] does the same, and binds the
    name after the copy is made, so that the copy lacks the name. *)
Lemma lisp2_lambda_copies_env (n : nat) (env : addr) (params body : value)
  (g : envs) (d : dict) :
  heap_get g env = Some d ->
  Lisp2.eval (S n) (VList [VStr "lambda"; params; body]) env g
  = (Ok (VProc params body (List.length g)), d :: g).
Proof. intros Hd. cbn. unfold bind, env_copy. now rewrite Hd. Qed.

Lemma lisp2_defun_copies_env (n : nat) (env : addr) (name : string)
  (params body : value) (g : envs) (d : dict) :
  heap_get g env = Some d ->
  Lisp2.eval (S n) (VList [VStr "defun"; VStr name; params; body]) env g
  = (Ok (VStr name),
     heap_set (d :: g) env
       (dict_set d name (VProc params body (List.length g)))).
Proof.
  intros Hd. cbn -[heap_get heap_set]. unfold bind, env_copy. rewrite Hd.
  cbn -[heap_get heap_set]. unfold env_store.
  rewrite heap_get_older by exact (heap_get_bound _ _ _ Hd). now rewrite Hd.
Qed.

(** The functions [defun] and [lambda] of [lisp3.py] make hold the
    environment itself, and copy it when they are called. *)
Lemma lisp3_lambda_captures_env (n : nat) (env : addr) (params body : value)
  (g : envs) :
  Lisp3.eval (S n) (VList [VStr "lambda"; params; body]) env g
  = (Ok (VProc params body env), g).
Proof. reflexivity. Qed.

(** C1, in [lisp.py]: a Procedure holds its defining environment by
    reference, its application evaluates the body in a new environment
    whose [outer] is that environment, and after [(define x 1)],
    [(define f (lambda () x))], [(define x 2)] the call [(f)] returns 2.
    In [lisp2.py] the Closure holds a copy made at its definition: the
    same session, written with [setq], returns 1, and the file's own
    demonstration of a recursive [defun] fails, the name of the function
    being unknown inside its body.  [lisp3.py] copies when the function is
    called, and sees the later binding.  The results of the sessions are
    those of every recursion bound from the one given on. *)
Theorem closure_sees_later_binding (n k : nat) (env penv : addr)
  (params body : value) (names : list string) (args : list value)
  (h : Lisp1.heap) :
  Lisp1.eval (S n) (VList [VStr "lambda"; params; body]) env h
  = (Ok (VProc params body env), h)
  /\ Lisp1.new_env (VList (map VStr names)) args penv h
     = (Ok (List.length h),
        Lisp1.Frame (dict_update [] (combine names args)) (Some penv) :: h)
  /\ fst (lisp1_session (10 + k)
            ["(define x 1)"; "(define f (lambda () x))"; "(define x 2)"; "(f)"]
            Lisp1.init_heap) = Ok (VInt 2)
  /\ fst (lisp2_session (10 + k)
            ["(setq x 1)"; "(setq f (lambda () x))"; "(setq x 2)"; "(f)"]
            lisp2_demo_env lisp2_demo_heap) = Ok (VInt 1)
  /\ fst (lisp2_session (40 + k)
            ["(defun fact (n) (cond ((eq n 0) 1) (T (* n (fact (- n 1))))))";
             "(fact 5)"] lisp2_demo_env lisp2_demo_heap)
     = Raise NameError_operator
  /\ fst (lisp3_session (10 + k)
            ["(defun x () 1)"; "(defun f () (x))"; "(defun x () 2)"; "(f)"]
            0%nat Lisp3.init_heap) = Ok (VInt 2).
Proof.
  split; [reflexivity|]. split; [apply lisp1_new_env|].
  split; [|split; [|split]].
  - rewrite (stable_from (fun n => lisp1_session n _) 10 _
               (lisp1_session_step _)); vm_compute; [reflexivity | discriminate].
  - rewrite (stable_from (fun n => lisp2_session n _ _) 10 _
               (lisp2_session_step _ _)); vm_compute; [reflexivity | discriminate].
  - rewrite (stable_from (fun n => lisp2_session n _ _) 40 _
               (lisp2_session_step _ _)); vm_compute; [reflexivity | discriminate].
  - rewrite (stable_from (fun n => lisp3_session n _ _) 10 _
               (lisp3_session_step _ _)); vm_compute; [reflexivity | discriminate].
Qed.

(** ** Printing and reading an integer *)

Lemma int_digits_uint (d : uint) (acc : Z) :
  int_digits acc false (NilEmpty.string_of_uint d) = Some (uint_val acc d).
Proof.
  revert acc. induction d; intros acc; simpl; try reflexivity;
    rewrite IHd; unfold digit_val; simpl; f_equal; f_equal; lia.
Qed.

Lemma int_unsigned_uint (d : uint) :
  d <> Nil -> int_unsigned (NilEmpty.string_of_uint d) = Some (uint_val 0 d).
Proof.
  destruct d; intros H; try congruence; simpl; rewrite int_digits_uint; reflexivity.
Qed.

Lemma of_uint_acc_val (d : uint) (acc : positive) :
  Zpos (Pos.of_uint_acc d acc) = uint_val (Zpos acc) d.
Proof.
  revert acc.
  induction d; intros acc; cbn -[Pos.mul Pos.add Z.mul Z.add];
    try reflexivity; rewrite IHd; f_equal; lia.
Qed.

Lemma of_uint_val (d : uint) : Z.of_N (Pos.of_uint d) = uint_val 0 d.
Proof.
  induction d; simpl; try reflexivity; try (rewrite of_uint_acc_val; reflexivity).
  exact IHd.
Qed.

Lemma uint_val_to_uint (p : positive) : uint_val 0 (Pos.to_uint p) = Zpos p.
Proof. rewrite <- of_uint_val, DecimalPos.Unsigned.of_to. reflexivity. Qed.

Lemma all_chars_impl (p q : ascii -> bool) (s : string) :
  (forall c, p c = true -> q c = true) -> all_chars p s = true -> all_chars q s = true.
Proof.
  intros Hpq. induction s as [|c r IH]; simpl; [reflexivity|].
  intros H. apply andb_prop in H as [Hc Hr]. now rewrite (Hpq c Hc), IH.
Qed.

Lemma all_chars_app (p : ascii -> bool) (s t : string) :
  all_chars p (s ++ t) = all_chars p s && all_chars p t.
Proof.
  induction s as [|c r IH]; simpl; [reflexivity|]. now rewrite IH, andb_assoc.
Qed.

Lemma digit_symbol_char (c : ascii) : is_digit c = true -> symbol_char c = true.
Proof.
  destruct c as [[] [] [] [] [] [] [] []]; intros H; try discriminate H; reflexivity.
Qed.

Lemma symbol_char_not_space (c : ascii) : symbol_char c = true -> is_space c = false.
Proof.
  unfold symbol_char. intros H. apply andb_prop in H as [H _].
  now apply negb_true_iff in H.
Qed.

Lemma uint_digits (d : uint) : all_chars is_digit (NilEmpty.string_of_uint d) = true.
Proof. induction d; simpl; auto. Qed.

Lemma lstrip_id (s : string) :
  all_chars symbol_char s = true -> lstrip s = s.
Proof.
  destruct s as [|c r]; simpl; [reflexivity|]. intros H.
  apply andb_prop in H as [Hc _]. now rewrite (symbol_char_not_space _ Hc).
Qed.

Lemma rstrip_id (s : string) :
  all_chars symbol_char s = true -> rstrip s = s.
Proof.
  induction s as [|c r IH]; simpl; [reflexivity|]. intros H.
  apply andb_prop in H as [Hc Hr]. rewrite (IH Hr).
  destruct r; [|reflexivity]. now rewrite (symbol_char_not_space _ Hc).
Qed.

Lemma strip_id (s : string) : all_chars symbol_char s = true -> strip s = s.
Proof. intros H. unfold strip. now rewrite (lstrip_id _ H), (rstrip_id _ H). Qed.

Lemma nilzero_digits (d : uint) :
  all_chars is_digit (NilZero.string_of_uint d) = true.
Proof. destruct d; try reflexivity; apply (uint_digits (_ d)). Qed.

Lemma str_int_chars (z : Z) : all_chars symbol_char (str_int z) = true.
Proof.
  unfold str_int. destruct z as [|p|p]; try reflexivity.
  - apply (all_chars_impl is_digit); [exact digit_symbol_char|].
    apply nilzero_digits.
  - change (symbol_char "-" && all_chars symbol_char
              (NilZero.string_of_uint (Pos.to_uint p)) = true).
    apply andb_true_intro. split; [reflexivity|].
    apply (all_chars_impl is_digit); [exact digit_symbol_char|].
    apply nilzero_digits.
Qed.

Lemma str_int_nonempty (z : Z) : str_int z <> EmptyString.
Proof.
  unfold str_int. destruct z as [|p|p]; simpl; try discriminate.
  destruct (Pos.to_uint p); discriminate.
Qed.

Lemma nilzero_nonnil (d : uint) :
  d <> Nil -> NilZero.string_of_uint d = NilEmpty.string_of_uint d.
Proof. destruct d; intros H; [congruence | reflexivity ..]. Qed.

Lemma sign_match_digits (s : string) :
  all_chars is_digit s = true ->
  int_signed s = int_unsigned s.
Proof.
  destruct s as [|c r]; [reflexivity|]. simpl. intros H.
  apply andb_prop in H as [Hc _].
  destruct c as [[] [] [] [] [] [] [] []]; try discriminate Hc; reflexivity.
Qed.

Lemma py_int_str_int (z : Z) : py_int (str_int z) = Some z.
Proof.
  unfold py_int. rewrite (strip_id _ (str_int_chars z)).
  unfold str_int. destruct z as [|p|p]; try reflexivity.
  - change (NilZero.string_of_int (Z.to_int (Z.pos p)))
      with (NilZero.string_of_uint (Pos.to_uint p)).
    rewrite sign_match_digits by apply nilzero_digits.
    rewrite nilzero_nonnil by apply DecimalPos.Unsigned.to_uint_nonnil.
    rewrite int_unsigned_uint by apply DecimalPos.Unsigned.to_uint_nonnil.
    now rewrite uint_val_to_uint.
  - change (NilZero.string_of_int (Z.to_int (Z.neg p)))
      with (String "-" (NilZero.string_of_uint (Pos.to_uint p))).
    change (int_signed (String "-" ?s)) with (option_map Z.opp (int_unsigned s)).
    rewrite nilzero_nonnil by apply DecimalPos.Unsigned.to_uint_nonnil.
    rewrite int_unsigned_uint by apply DecimalPos.Unsigned.to_uint_nonnil.
    now rewrite uint_val_to_uint.
Qed.

(** ** Strings, tokens and the printed form *)

Lemma string_app_assoc (a b c : string) : (a ++ b) ++ c = a ++ (b ++ c).
Proof. induction a as [|x a IH]; simpl; [reflexivity | now rewrite IH]. Qed.

Lemma string_app_nil_r (a : string) : a ++ EmptyString = a.
Proof. induction a as [|x a IH]; simpl; [reflexivity | now rewrite IH]. Qed.

Lemma string_cons_app (c : ascii) (s : string) :
  String c EmptyString ++ s = String c s.
Proof. reflexivity. Qed.

(** A run of symbol characters joins the run being read. *)
Lemma scan_symbol (s cur rest : string) :
  all_chars symbol_char s = true ->
  Lisp3.scan cur (s ++ rest) = Lisp3.scan (cur ++ s) rest.
Proof.
  revert cur. induction s as [|c r IH]; intros cur; simpl.
  - now rewrite string_app_nil_r.
  - intros H. apply andb_prop in H as [Hc Hr].
    unfold symbol_char in Hc. apply andb_prop in Hc as [Hs Hd].
    apply negb_true_iff in Hs, Hd. rewrite Hd, Hs.
    rewrite (IH _ Hr). now rewrite string_app_assoc.
Qed.

Lemma scan_flush (cur rest : string) :
  boundary rest = true ->
  Lisp3.scan cur rest = (Lisp3.flush cur ++ Lisp3.scan EmptyString rest)%list.
Proof.
  destruct rest as [|c r]; simpl.
  - intros _. now rewrite app_nil_r.
  - destruct (Lisp3.is_delim c); [reflexivity|].
    rewrite orb_false_r. intros ->. reflexivity.
Qed.

Lemma scan_token (s rest : string) :
  s <> EmptyString -> all_chars symbol_char s = true -> boundary rest = true ->
  Lisp3.scan EmptyString (s ++ rest) = s :: Lisp3.scan EmptyString rest.
Proof.
  intros Hne Hs Hb. rewrite (scan_symbol _ _ _ Hs). simpl.
  rewrite (scan_flush _ _ Hb). destruct s; [congruence | reflexivity].
Qed.

(** An induction principle for values that reaches the items of a list. *)
Lemma value_ind_items (P : value -> Prop) :
  (forall z, P (VInt z)) -> (forall lit, P (VFloat lit)) -> (forall s, P (VStr s)) ->
  (forall b, P (VBool b)) -> P VNone ->
  (forall l, Forall P l -> P (VList l)) ->
  (forall params body env, P params -> P body -> P (VProc params body env)) ->
  (forall name env, P (VPrim name env)) ->
  forall v, P v.
Proof.
  intros Hi Hf Hs Hb Hn Hl Hp Hq.
  fix IH 1. intros [z|lit|s|b| |l|params body env|name env].
  - apply Hi.
  - apply Hf.
  - apply Hs.
  - apply Hb.
  - apply Hn.
  - apply Hl. induction l as [|x l IHl]; constructor; [apply IH | exact IHl].
  - apply Hp; apply IH.
  - apply Hq.
Qed.

Section Render.
Variable sym_ok : string -> bool.
Variable render : value -> option string.
Hypothesis sym_clean : forall s, sym_ok s = true ->
  s <> EmptyString /\ all_chars symbol_char s = true.
Hypothesis render_int : forall z, render (VInt z) = Some (str_int z).
Hypothesis render_str : forall s, render (VStr s) = Some s.
Hypothesis render_list : forall x l,
  render (VList (x :: l))
  = match render_items render (x :: l) with
    | Some ss => Some ("(" ++ String.concat " " ss ++ ")")
    | None => None
    end.

Lemma scans_items (l : list value) :
  Forall (scans sym_ok render) l -> forallb (plain sym_ok) l = true ->
  exists ss, render_items render l = Some ss /\
    forall rest,
      Lisp3.scan EmptyString (String.concat " " ss ++ ")" ++ rest)
      = (flat_map tokens_of l ++ ")" :: Lisp3.scan EmptyString rest)%list.
Proof.
  induction 1 as [|x l Hx Hl IH]; simpl.
  - intros _. exists []. split; [reflexivity|]. intros rest. reflexivity.
  - intros H. apply andb_prop in H as [Hpx Hpl].
    destruct (Hx Hpx) as (s & Hs & Hscan).
    destruct (IH Hpl) as (ss & Hss & Hitems).
    exists (s :: ss). rewrite Hs, Hss. split; [reflexivity|].
    intros rest. rewrite <- app_assoc. destruct ss as [|s2 ss'].
    + change (String.concat " " [s] ++ ")" ++ rest) with (s ++ String ")" rest).
      change (String.concat " " [s]) with s.
      rewrite (Hscan (String ")" rest) eq_refl). f_equal. apply (Hitems rest).
    + change (String.concat " " (s :: s2 :: ss'))
        with (s ++ " " ++ String.concat " " (s2 :: ss')).
      rewrite !string_app_assoc.
      rewrite (string_cons_app " ").
      rewrite (Hscan (String " " _) eq_refl). f_equal.
      apply (Hitems rest).
Qed.

Lemma scans_all (v : value) : scans sym_ok render v.
Proof.
  induction v as [z|lit|s|b| |l IH|params body env _ _|name env]
    using value_ind_items; unfold scans; simpl; try discriminate.
  - intros _. exists (str_int z). split; [apply render_int|].
    intros rest Hb. apply scan_token; auto using str_int_nonempty, str_int_chars.
  - intros Hs. exists s. split; [apply render_str|].
    intros rest Hb. destruct (sym_clean _ Hs). now apply scan_token.
  - destruct l as [|x l]; [discriminate|]. intros Hp.
    destruct (scans_items _ IH Hp) as (ss & Hss & Hscan).
    exists ("(" ++ String.concat " " ss ++ ")"). rewrite render_list, Hss.
    split; [reflexivity|]. intros rest _.
    rewrite !string_app_assoc.
    change (Lisp3.scan EmptyString ("(" ++ ?x)) with ("(" :: Lisp3.scan EmptyString x).
    rewrite Hscan.
    simpl. f_equal. now rewrite <- !app_assoc.
Qed.
End Render.

(** ** Parsing the tokens of a plain value *)

Lemma clean_not_delim (s : string) :
  s <> EmptyString -> all_chars symbol_char s = true ->
  String.eqb s "(" = false /\ String.eqb s ")" = false /\ String.eqb s "'" = false.
Proof.
  destruct s as [|c r]; [congruence|]. intros _ H. simpl in H.
  apply andb_prop in H as [Hc _]. unfold symbol_char in Hc.
  apply andb_prop in Hc as [_ Hd]. apply negb_true_iff in Hd.
  unfold Lisp3.is_delim in Hd.
  apply orb_false_elim in Hd as [Hd H3]. apply orb_false_elim in Hd as [H1 H2].
  simpl. now rewrite H1, H2, H3.
Qed.

Lemma symbol_ok2_clean (s : string) :
  symbol_ok2 s = true ->
  s <> EmptyString /\ all_chars symbol_char s = true /\ py_int s = None.
Proof.
  unfold symbol_ok2. intros H. apply andb_prop in H as [H Hi].
  apply andb_prop in H as [Hn Hc]. split; [|split; [exact Hc|]].
  - intros ->. discriminate.
  - destruct (py_int s); [discriminate | reflexivity].
Qed.

Lemma symbol_ok3_clean (s : string) :
  symbol_ok3 s = true -> symbol_ok2 s = true /\ py_float_ok s = false.
Proof.
  unfold symbol_ok3. intros H. apply andb_prop in H as [H Hf].
  split; [exact H | now apply negb_true_iff in Hf].
Qed.

(** The first token of a plain value is no closing parenthesis. *)
Lemma tokens_of_head (sym_ok : string -> bool) (v : value) :
  (forall s, sym_ok s = true -> s <> EmptyString /\ all_chars symbol_char s = true) ->
  plain sym_ok v = true ->
  exists t ts, tokens_of v = t :: ts /\ String.eqb t ")" = false.
Proof.
  intros Hsym. destruct v as [z| |s| | |l| | ]; simpl; try discriminate; intros H.
  - exists (str_int z), []. split; [reflexivity|].
    apply clean_not_delim; auto using str_int_nonempty, str_int_chars.
  - exists s, []. split; [reflexivity|].
    destruct (Hsym _ H). now apply clean_not_delim.
  - eexists _, _. split; reflexivity.
Qed.

Lemma lisp3_parse_tokens (v : value) :
  plain symbol_ok3 v = true ->
  forall n rest, (2 * List.length (tokens_of v) <= n)%nat ->
    Lisp3.parse_fuel n (tokens_of v ++ rest) = Ok (v, rest).
Proof.
  induction v as [z|lit|s|b| |l IH|params body env _ _|name env]
    using value_ind_items; simpl; try discriminate.
  - intros _ [|n] rest Hn; [simpl in Hn; lia|]. simpl.
    destruct (clean_not_delim _ (str_int_nonempty z) (str_int_chars z)) as (-> & -> & ->).
    unfold Lisp3.atom. now rewrite py_int_str_int.
  - intros Hs [|n] rest Hn; [simpl in Hn; lia|]. simpl.
    destruct (symbol_ok3_clean _ Hs) as [H2 Hf].
    destruct (symbol_ok2_clean _ H2) as (Hne & Hc & Hi).
    destruct (clean_not_delim _ Hne Hc) as (-> & -> & ->).
    unfold Lisp3.atom. now rewrite Hi, Hf.
  - destruct l as [|x0 l0]; [discriminate|]. intros Hp.
    assert (Hitems : forall l, Forall (fun v => plain symbol_ok3 v = true ->
                forall n rest, (2 * List.length (tokens_of v) <= n)%nat ->
                  Lisp3.parse_fuel n (tokens_of v ++ rest) = Ok (v, rest)) l ->
              forallb (plain symbol_ok3) l = true ->
              forall n L rest, (2 * List.length (flat_map tokens_of l) + 1 <= n)%nat ->
                Lisp3.parse_list n L (flat_map tokens_of l ++ ")" :: rest)%list
                = Ok (VList (L ++ l), rest)).
    { clear. induction 1 as [|x l Hx _ IHl]; intros Hp [|n] L rest Hn;
        try (simpl in Hn; lia).
      - simpl. now rewrite app_nil_r.
      - simpl in Hp. apply andb_prop in Hp as [Hpx Hpl].
        destruct (tokens_of_head symbol_ok3 x) as (t & ts & Ht & Hclose); auto.
        { intros s Hs. destruct (symbol_ok3_clean _ Hs) as [H2 _].
          destruct (symbol_ok2_clean _ H2) as (? & ? & _). now split. }
        simpl flat_map in *. rewrite length_app in Hn.
        assert (Hlen : (1 <= List.length (tokens_of x))%nat) by (rewrite Ht; simpl; lia).
        rewrite <- app_assoc.
        cbn [Lisp3.parse_list]. rewrite Ht at 1. cbn [List.app]. rewrite Hclose.
        rewrite (Hx Hpx) by lia. cbn [on_ok fst snd].
        rewrite IHl by (auto; lia). now rewrite <- app_assoc. }
    intros [|n] rest Hn; [simpl in Hn; lia|].
    cbn [Lisp3.parse_fuel List.app]. cbn [String.eqb Ascii.eqb]. simpl (String.eqb "(" "(").
    rewrite <- app_assoc. cbn [List.app].
    rewrite (Hitems _ IH Hp); [reflexivity|].
    simpl in Hn. rewrite length_app in Hn. simpl in Hn. simpl flat_map. lia.
Qed.

Lemma lisp2_parse_tokens (v : value) :
  plain symbol_ok2 v = true ->
  forall n rest, (2 * List.length (tokens_of v) <= n)%nat ->
    Lisp2.parse_fuel n (tokens_of v ++ rest) = Ok (v, rest).
Proof.
  induction v as [z|lit|s|b| |l IH|params body env _ _|name env]
    using value_ind_items; simpl; try discriminate.
  - intros _ [|n] rest Hn; [simpl in Hn; lia|]. simpl.
    destruct (clean_not_delim _ (str_int_nonempty z) (str_int_chars z)) as (-> & -> & ->).
    unfold Lisp2.atomize. now rewrite py_int_str_int.
  - intros Hs [|n] rest Hn; [simpl in Hn; lia|]. simpl.
    destruct (symbol_ok2_clean _ Hs) as (Hne & Hc & Hi).
    destruct (clean_not_delim _ Hne Hc) as (-> & -> & ->).
    unfold Lisp2.atomize. now rewrite Hi.
  - destruct l as [|x0 l0]; [discriminate|]. intros Hp.
    assert (Hitems : forall l, Forall (fun v => plain symbol_ok2 v = true ->
                forall n rest, (2 * List.length (tokens_of v) <= n)%nat ->
                  Lisp2.parse_fuel n (tokens_of v ++ rest) = Ok (v, rest)) l ->
              forallb (plain symbol_ok2) l = true ->
              forall n L rest, (2 * List.length (flat_map tokens_of l) + 1 <= n)%nat ->
                Lisp2.parse_list n L (flat_map tokens_of l ++ ")" :: rest)%list
                = Ok (VList (L ++ l), rest)).
    { clear. induction 1 as [|x l Hx _ IHl]; intros Hp [|n] L rest Hn;
        try (simpl in Hn; lia).
      - simpl. now rewrite app_nil_r.
      - simpl in Hp. apply andb_prop in Hp as [Hpx Hpl].
        destruct (tokens_of_head symbol_ok2 x) as (t & ts & Ht & Hclose); auto.
        { intros s Hs. destruct (symbol_ok2_clean _ Hs) as (? & ? & _). now split. }
        simpl flat_map in *. rewrite length_app in Hn.
        assert (Hlen : (1 <= List.length (tokens_of x))%nat) by (rewrite Ht; simpl; lia).
        rewrite <- app_assoc.
        cbn [Lisp2.parse_list]. rewrite Ht at 1. cbn [List.app]. rewrite Hclose.
        rewrite (Hx Hpx) by lia. cbn [on_ok fst snd].
        destruct (flat_map tokens_of l ++ ")" :: rest)%list eqn:E.
        { destruct (flat_map tokens_of l); discriminate. }
        rewrite <- E. rewrite IHl by (auto; lia). now rewrite <- app_assoc. }
    intros [|n] rest Hn; [simpl in Hn; lia|].
    cbn [Lisp2.parse_fuel List.app]. simpl (String.eqb "(" "(").
    rewrite <- app_assoc. cbn [List.app].
    rewrite (Hitems _ IH Hp); [reflexivity|].
    simpl in Hn. rewrite length_app in Hn. simpl in Hn. simpl flat_map. lia.
Qed.

(** ** The two tokenizers agree *)

Lemma replace_char_app (c : ascii) (new a b : string) :
  replace_char c new (a ++ b) = replace_char c new a ++ replace_char c new b.
Proof.
  induction a as [|x a IH]; simpl; [reflexivity|].
  destruct (Ascii.eqb x c); rewrite IH; [now rewrite string_app_assoc | reflexivity].
Qed.

Lemma spaced_cons (c : ascii) (r : string) :
  spaced (String c r)
  = if Lisp3.is_delim c then String " " (String c (String " " (spaced r)))
    else String c (spaced r).
Proof.
  unfold spaced, Lisp3.is_delim. simpl.
  destruct (Ascii.eqb_spec c "'") as [->|H1].
  - reflexivity.
  - simpl. destruct (Ascii.eqb_spec c "(") as [->|H2].
    + reflexivity.
    + simpl. destruct (Ascii.eqb_spec c ")") as [->|H3]; reflexivity.
Qed.

Lemma delim_not_space (c : ascii) : Lisp3.is_delim c = true -> is_space c = false.
Proof.
  unfold Lisp3.is_delim. intros H.
  apply orb_prop in H as [H|H]; [apply orb_prop in H as [H|H]|];
    apply Ascii.eqb_eq in H; subst; reflexivity.
Qed.

Lemma split_from_flush (cur s : string) :
  split_from cur (String " " s) = (Lisp3.flush cur ++ split_from EmptyString s)%list.
Proof. simpl. destruct cur; reflexivity. Qed.

Lemma split_from_char (cur : string) (c : ascii) (s : string) :
  is_space c = false ->
  split_from cur (String c s) = split_from (cur ++ String c EmptyString) s.
Proof. intros H. simpl. now rewrite H. Qed.

Lemma split_from_space (cur : string) (c : ascii) (s : string) :
  is_space c = true ->
  split_from cur (String c s) = (Lisp3.flush cur ++ split_from EmptyString s)%list.
Proof. intros H. simpl. rewrite H. now destruct cur. Qed.

Lemma split_spaced (s cur : string) :
  split_from cur (spaced s) = Lisp3.scan cur s.
Proof.
  revert cur. induction s as [|c r IH]; intros cur.
  - reflexivity.
  - rewrite spaced_cons. cbn [Lisp3.scan].
    destruct (Lisp3.is_delim c) eqn:Hd.
    + rewrite split_from_flush. f_equal.
      rewrite (split_from_char _ _ _ (delim_not_space _ Hd)).
      change (EmptyString ++ String c EmptyString) with (String c EmptyString).
      rewrite split_from_flush. now rewrite IH.
    + destruct (is_space c) eqn:Hs.
      * rewrite (split_from_space _ _ _ Hs). now rewrite IH.
      * rewrite (split_from_char _ _ _ Hs). apply IH.
Qed.

Lemma scan_nonempty (s cur : string) :
  Forall (fun tok => negb (String.eqb tok EmptyString) = true) (Lisp3.scan cur s).
Proof.
  assert (Hf : forall cur, Forall (fun tok => negb (String.eqb tok EmptyString) = true)
                             (Lisp3.flush cur)).
  { intros [|c r]; simpl; constructor; [reflexivity | constructor]. }
  revert cur. induction s as [|c r IH]; intros cur; simpl; [apply Hf|].
  destruct (Lisp3.is_delim c).
  - apply Forall_app. split; [apply Hf|]. constructor; [reflexivity | apply IH].
  - destruct (is_space c); [|apply IH]. apply Forall_app. split; [apply Hf | apply IH].
Qed.

Lemma filter_all {A : Type} (p : A -> bool) (l : list A) :
  Forall (fun x => p x = true) l -> filter p l = l.
Proof. induction 1 as [|x l Hx _ IH]; simpl; [reflexivity|]. now rewrite Hx, IH. Qed.

(** [tokenize] of [lisp2.py] and [tokenize] of [lisp3.py] yield the same
    tokens on every text. *)
Lemma lisp2_tokenize_eq_lisp3 (s : string) : Lisp2.tokenize s = Lisp3.tokenize s.
Proof.
  unfold Lisp2.tokenize, Lisp3.tokenize, split. fold (spaced s).
  rewrite split_spaced. apply filter_all, scan_nonempty.
Qed.

(** ** Printing, then parsing *)

(** C9 as the claim states it: the empty list prints as NIL and the true
    sentinel as T, and both read back as symbols, which are other values
    (and unequal to them on the host). *)
Lemma empty_list_reads_back_as_symbol :
  Lisp2.lisp_to_str (VList []) = Some "NIL"
  /\ Lisp2.parse_str "NIL" = Ok (VStr "NIL")
  /\ Lisp3.lisp_to_str (VList []) = Some "NIL"
  /\ Lisp3.parse (Lisp3.tokenize "NIL") = Ok (VStr "NIL", [])
  /\ VStr "NIL" <> VList [] /\ py_eq (VStr "NIL") (VList []) = Some false
  /\ Lisp2.lisp_to_str (VBool true) = Some "T"
  /\ Lisp2.parse_str "T" = Ok (VStr "T")
  /\ Lisp3.lisp_to_str (VBool true) = Some "T"
  /\ Lisp3.parse (Lisp3.tokenize "T") = Ok (VStr "T", [])
  /\ VStr "T" <> VBool true /\ py_eq (VStr "T") (VBool true) = Some false.
Proof. repeat split; try reflexivity; discriminate. Qed.

Lemma lisp2_print_parse (v : value) :
  plain symbol_ok2 v = true ->
  exists s, Lisp2.lisp_to_str v = Some s /\ Lisp2.parse_str s = Ok v.
Proof.
  intros Hp.
  destruct (scans_all symbol_ok2 Lisp2.lisp_to_str) with (v := v)
    as (s & Hs & Hscan); auto.
  - intros s Hs. destruct (symbol_ok2_clean _ Hs) as (? & ? & _). now split.
  - exists s. split; [exact Hs|]. unfold Lisp2.parse_str.
    rewrite lisp2_tokenize_eq_lisp3. unfold Lisp3.tokenize.
    specialize (Hscan EmptyString eq_refl).
    rewrite string_app_nil_r in Hscan. rewrite Hscan. cbn [Lisp3.scan Lisp3.flush].
    unfold Lisp2.parse.
    rewrite (lisp2_parse_tokens v Hp); [reflexivity | rewrite length_app; lia].
Qed.

Lemma lisp3_print_parse (v : value) :
  plain symbol_ok3 v = true ->
  exists s, Lisp3.lisp_to_str v = Some s
            /\ Lisp3.parse (Lisp3.tokenize s) = Ok (v, []).
Proof.
  intros Hp.
  destruct (scans_all symbol_ok3 Lisp3.lisp_to_str) with (v := v)
    as (s & Hs & Hscan); auto.
  - intros s Hs. destruct (symbol_ok3_clean _ Hs) as [H2 _].
    destruct (symbol_ok2_clean _ H2) as (? & ? & _). now split.
  - exists s. split; [exact Hs|]. unfold Lisp3.tokenize.
    specialize (Hscan EmptyString eq_refl).
    rewrite string_app_nil_r in Hscan. rewrite Hscan. cbn [Lisp3.scan Lisp3.flush].
    unfold Lisp3.parse. apply (lisp3_parse_tokens v Hp). rewrite length_app. lia.
Qed.

(** C9, amended: for every value made of integers, of symbols that are
    one token and no number, and of lists that are not empty, the
    printer has a rendering, an atom by its text and a list as the
    renderings of its items between parentheses, separated by one space;
    and parsing that rendering yields the value again.  The empty list
    and the true sentinel are apart: they print as NIL and T, which read
    back as symbols. *)
Theorem print_then_parse (v : value) :
  (plain symbol_ok2 v = true ->
   exists s, Lisp2.lisp_to_str v = Some s /\ Lisp2.parse_str s = Ok v)
  /\ (plain symbol_ok3 v = true ->
      exists s, Lisp3.lisp_to_str v = Some s
                /\ Lisp3.parse (Lisp3.tokenize s) = Ok (v, []))
  /\ (forall x l,
      Lisp2.lisp_to_str (VList (x :: l))
      = match render_items Lisp2.lisp_to_str (x :: l) with
        | Some ss => Some ("(" ++ String.concat " " ss ++ ")")
        | None => None
        end
      /\ Lisp3.lisp_to_str (VList (x :: l))
         = match render_items Lisp3.lisp_to_str (x :: l) with
           | Some ss => Some ("(" ++ String.concat " " ss ++ ")")
           | None => None
           end)
  /\ Lisp2.lisp_to_str (VList []) = Some "NIL"
  /\ Lisp3.lisp_to_str (VList []) = Some "NIL"
  /\ Lisp2.lisp_to_str (VBool true) = Some "T"
  /\ Lisp3.lisp_to_str (VBool true) = Some "T".
Proof.
  split; [apply lisp2_print_parse|]. split; [apply lisp3_print_parse|].
  split; [intros x l; split; reflexivity|]. repeat split.
Qed.

Lemma print_then_parse_witness :
  (exists s, Lisp2.lisp_to_str (VList [VStr "a"; VInt (-12); VList [VStr "b"]])
             = Some s
             /\ Lisp2.parse_str s
                = Ok (VList [VStr "a"; VInt (-12); VList [VStr "b"]]))
  /\ (exists s, Lisp3.lisp_to_str (VList [VStr "a"; VInt (-12); VList [VStr "b"]])
                = Some s
                /\ Lisp3.parse (Lisp3.tokenize s)
                   = Ok (VList [VStr "a"; VInt (-12); VList [VStr "b"]], [])).
Proof.
  split.
  - apply (proj1 (print_then_parse
                    (VList [VStr "a"; VInt (-12); VList [VStr "b"]]))).
    reflexivity.
  - apply (proj1 (proj2 (print_then_parse
                           (VList [VStr "a"; VInt (-12); VList [VStr "b"]])))).
    reflexivity.
Defined.

(** ** The parsers are total *)

Lemma lisp1_parse_total (n : nat) :
  (forall tokens, (2 * List.length tokens + 1 <= n)%nat ->
     parse_result tokens (Lisp1.parse_fuel n tokens))
  /\ (forall L tokens, (2 * List.length tokens + 2 <= n)%nat ->
        parse_result tokens (Lisp1.parse_list n L tokens)).
Proof.
  induction n as [|n [IHp IHl]]; [split; intros; lia|]. split.
  - intros [|t rest] Hn; cbn [Lisp1.parse_fuel]; [simpl; tauto|].
    cbn [List.length] in Hn.
    destruct (String.eqb t "(").
    + specialize (IHl [] rest ltac:(lia)). unfold parse_result in *.
      destruct (Lisp1.parse_list n [] rest) as [[v r]| | |]; auto.
      cbn [List.length]. lia.
    + destruct (String.eqb t ")"); simpl; [tauto | lia].
  - intros L [|t rest] Hn; cbn [Lisp1.parse_list]; [simpl; tauto|].
    cbn [List.length] in Hn.
    destruct (String.eqb t ")"); [simpl; lia|].
    specialize (IHp (t :: rest) ltac:(cbn [List.length]; lia)).
    unfold parse_result in *.
    destruct (Lisp1.parse_fuel n (t :: rest)) as [[v r]| | |]; cbn [on_ok fst snd]; auto.
    specialize (IHl (L ++ [v])%list r ltac:(cbn [List.length] in IHp; lia)).
    destruct (Lisp1.parse_list n (L ++ [v]) r) as [[v' r']| | |]; auto. lia.
Qed.

Lemma lisp1_no_EOF_list_fuel (n : nat) :
  (forall tokens, Lisp1.parse_fuel n tokens <> Raise SyntaxError_EOF_list)
  /\ (forall L tokens, Lisp1.parse_list n L tokens <> Raise SyntaxError_EOF_list).
Proof.
  induction n as [|n [IHp IHl]]; [split; intros; discriminate|]. split.
  - intros [|t rest]; cbn [Lisp1.parse_fuel]; [discriminate|].
    destruct (String.eqb t "("); [apply IHl|].
    destruct (String.eqb t ")"); discriminate.
  - intros L [|t rest]; cbn [Lisp1.parse_list]; [discriminate|].
    destruct (String.eqb t ")"); [discriminate|].
    specialize (IHp (t :: rest)).
    destruct (Lisp1.parse_fuel n (t :: rest)) as [[v r]|e| |];
      cbn [on_ok fst snd]; try discriminate; [apply IHl | congruence].
Qed.

Lemma lisp1_no_EOF_list (tokens : list string) :
  Lisp1.parse tokens <> Raise SyntaxError_EOF_list.
Proof. apply lisp1_no_EOF_list_fuel. Qed.

Lemma lisp3_no_EOF_list_fuel (n : nat) :
  (forall tokens, Lisp3.parse_fuel n tokens <> Raise SyntaxError_EOF_list)
  /\ (forall L tokens, Lisp3.parse_list n L tokens <> Raise SyntaxError_EOF_list).
Proof.
  induction n as [|n [IHp IHl]]; [split; intros; discriminate|]. split.
  - intros [|t rest]; cbn [Lisp3.parse_fuel]; [discriminate|].
    destruct (String.eqb t "("); [apply IHl|].
    destruct (String.eqb t "'").
    + specialize (IHp rest).
      destruct (Lisp3.parse_fuel n rest) as [[v r]|e| |];
        cbn [on_ok fst snd]; try discriminate; congruence.
    + destruct (String.eqb t ")"); discriminate.
  - intros L [|t rest]; cbn [Lisp3.parse_list]; [discriminate|].
    destruct (String.eqb t ")"); [discriminate|].
    specialize (IHp (t :: rest)).
    destruct (Lisp3.parse_fuel n (t :: rest)) as [[v r]|e| |];
      cbn [on_ok fst snd]; try discriminate; [apply IHl | congruence].
Qed.

Lemma lisp3_no_EOF_list (tokens : list string) :
  Lisp3.parse tokens <> Raise SyntaxError_EOF_list.
Proof. apply lisp3_no_EOF_list_fuel. Qed.

Lemma lisp3_parse_total (n : nat) :
  (forall tokens, (2 * List.length tokens + 1 <= n)%nat ->
     parse_result tokens (Lisp3.parse_fuel n tokens))
  /\ (forall L tokens, (2 * List.length tokens + 2 <= n)%nat ->
        parse_result tokens (Lisp3.parse_list n L tokens)).
Proof.
  induction n as [|n [IHp IHl]]; [split; intros; lia|]. split.
  - intros [|t rest] Hn; cbn [Lisp3.parse_fuel]; [simpl; tauto|].
    cbn [List.length] in Hn.
    destruct (String.eqb t "(").
    + specialize (IHl [] rest ltac:(lia)). unfold parse_result in *.
      destruct (Lisp3.parse_list n [] rest) as [[v r]| | |]; auto.
      cbn [List.length]. lia.
    + destruct (String.eqb t "'").
      * specialize (IHp rest ltac:(lia)). unfold parse_result in *.
        destruct (Lisp3.parse_fuel n rest) as [[v r]| | |]; cbn [on_ok fst snd]; auto.
        cbn [List.length]. lia.
      * destruct (String.eqb t ")"); simpl; [tauto | lia].
  - intros L [|t rest] Hn; cbn [Lisp3.parse_list]; [simpl; tauto|].
    cbn [List.length] in Hn.
    destruct (String.eqb t ")"); [simpl; lia|].
    specialize (IHp (t :: rest) ltac:(cbn [List.length]; lia)).
    unfold parse_result in *.
    destruct (Lisp3.parse_fuel n (t :: rest)) as [[v r]| | |]; cbn [on_ok fst snd]; auto.
    specialize (IHl (L ++ [v])%list r ltac:(cbn [List.length] in IHp; lia)).
    destruct (Lisp3.parse_list n (L ++ [v]) r) as [[v' r']| | |]; auto. lia.
Qed.

Lemma lisp2_parse_total (n : nat) :
  (forall tokens, (2 * List.length tokens + 1 <= n)%nat ->
     parse_result tokens (Lisp2.parse_fuel n tokens))
  /\ (forall L tokens, (2 * List.length tokens + 2 <= n)%nat ->
        parse_result tokens (Lisp2.parse_list n L tokens)).
Proof.
  induction n as [|n [IHp IHl]]; [split; intros; lia|]. split.
  - intros [|t rest] Hn; cbn [Lisp2.parse_fuel]; [simpl; tauto|].
    cbn [List.length] in Hn.
    destruct (String.eqb t "(").
    + specialize (IHl [] rest ltac:(lia)). unfold parse_result in *.
      destruct (Lisp2.parse_list n [] rest) as [[v r]| | |]; auto.
      cbn [List.length]. lia.
    + destruct (String.eqb t ")"); [simpl; tauto|].
      destruct (String.eqb t "'"); [|simpl; lia].
      specialize (IHp rest ltac:(lia)). unfold parse_result in *.
      destruct (Lisp2.parse_fuel n rest) as [[v r]| | |]; cbn [on_ok fst snd]; auto.
      cbn [List.length]. lia.
  - intros L [|t rest] Hn; cbn [Lisp2.parse_list]; [simpl; tauto|].
    cbn [List.length] in Hn.
    destruct (String.eqb t ")"); [simpl; lia|].
    specialize (IHp (t :: rest) ltac:(cbn [List.length]; lia)).
    unfold parse_result in *.
    destruct (Lisp2.parse_fuel n (t :: rest)) as [[v r]| | |]; cbn [on_ok fst snd]; auto.
    destruct r as [|t' r]; [tauto|].
    specialize (IHl (L ++ [v])%list (t' :: r) ltac:(cbn [List.length] in *; lia)).
    destruct (Lisp2.parse_list n (L ++ [v]) (t' :: r)) as [[v' r']| | |]; auto. lia.
Qed.

(** Each [parse] is total: on every list of tokens it returns a value
    and fewer tokens, or raises the SyntaxError of the end of the tokens,
    the SyntaxError of a closing parenthesis, or the host's IndexError;
    [lisp2.py] alone can raise its second SyntaxError.  The IndexError is
    what remains of the claim that no host error escapes. *)
Lemma parse_total (tokens : list string) :
  parse_result tokens (Lisp1.parse tokens)
  /\ parse_result tokens (Lisp2.parse tokens)
  /\ parse_result tokens (Lisp3.parse tokens)
  /\ Lisp1.parse tokens <> Raise SyntaxError_EOF_list
  /\ Lisp3.parse tokens <> Raise SyntaxError_EOF_list.
Proof.
  split; [apply lisp1_parse_total; lia|].
  split; [apply lisp2_parse_total; lia|].
  split; [apply lisp3_parse_total; lia|].
  split.
  - apply lisp1_no_EOF_list.
  - apply lisp3_no_EOF_list.
Qed.

(** * Further properties of the code

    ** The tokenizers *)

Lemma replace_char_absent (c : ascii) (new s : string) :
  all_chars (fun x => negb (Ascii.eqb x c)) s = true -> replace_char c new s = s.
Proof.
  induction s as [|x s IH]; simpl; [reflexivity|]. intros H.
  apply andb_prop in H as [Hx Hs]. apply negb_true_iff in Hx.
  now rewrite Hx, (IH Hs).
Qed.

(** X1: the tokenizers of [lisp2.py] and [lisp3.py] yield the same tokens
    on every text, and the tokenizer of [lisp.py], which knows no quote,
    yields them too on every text without a quote character. *)
Theorem tokenizers_agree (s : string) :
  Lisp2.tokenize s = Lisp3.tokenize s
  /\ (all_chars (fun x => negb (Ascii.eqb x "'")) s = true ->
      Lisp1.tokenize s = Lisp3.tokenize s).
Proof.
  split; [apply lisp2_tokenize_eq_lisp3|]. intros H.
  unfold Lisp1.tokenize, Lisp3.tokenize, split.
  rewrite <- (replace_char_absent "'" " ' " s H) at 1. fold (spaced s).
  apply split_spaced.
Qed.

Lemma tokenizers_agree_witness :
  Lisp1.tokenize "(define x 1)" = Lisp3.tokenize "(define x 1)".
Proof. apply (proj2 (tokenizers_agree "(define x 1)")). reflexivity. Defined.

Lemma delim_cases (c : ascii) :
  Lisp3.is_delim c = true -> c = "("%char \/ c = ")"%char \/ c = "'"%char.
Proof.
  unfold Lisp3.is_delim. intros H.
  apply orb_prop in H as [H|H]; [apply orb_prop in H as [H|H]|];
    apply Ascii.eqb_eq in H; auto.
Qed.

Lemma scan_shape (s cur : string) :
  all_chars symbol_char cur = true ->
  Forall (fun t => t = "(" \/ t = ")" \/ t = "'"
                   \/ (t <> EmptyString /\ all_chars symbol_char t = true))
         (Lisp3.scan cur s).
Proof.
  set (P := fun t => _).
  assert (Hf : forall cur, all_chars symbol_char cur = true -> Forall P (Lisp3.flush cur)).
  { intros [|c r] H; simpl; constructor; [|constructor].
    right; right; right. split; [discriminate | exact H]. }
  revert cur. induction s as [|c r IH]; intros cur Hcur; simpl; [now apply Hf|].
  destruct (Lisp3.is_delim c) eqn:Hd.
  - apply Forall_app. split; [now apply Hf|]. constructor; [|now apply IH].
    destruct (delim_cases _ Hd) as [-> | [-> | ->]]; unfold P; auto.
  - destruct (is_space c) eqn:Hs.
    + apply Forall_app. split; [now apply Hf | now apply IH].
    + apply IH. rewrite all_chars_app, Hcur. simpl.
      unfold symbol_char. now rewrite Hs, Hd.
Qed.

(** X2: every token [tokenize] of [lisp2.py] or [lisp3.py] yields is a
    parenthesis, a quote, or a run, not empty, of characters that are no
    whitespace, no parenthesis and no quote. *)
Theorem tokens_shape (s : string) :
  Forall (fun t => t = "(" \/ t = ")" \/ t = "'"
                   \/ (t <> EmptyString /\ all_chars symbol_char t = true))
         (Lisp3.tokenize s)
  /\ Forall (fun t => t = "(" \/ t = ")" \/ t = "'"
                      \/ (t <> EmptyString /\ all_chars symbol_char t = true))
            (Lisp2.tokenize s).
Proof.
  rewrite lisp2_tokenize_eq_lisp3. split; now apply scan_shape.
Qed.

Lemma space_not_delim (c : ascii) : is_space c = true -> Lisp3.is_delim c = false.
Proof.
  intros H. destruct (Lisp3.is_delim c) eqn:Hd; [|reflexivity].
  rewrite (delim_not_space _ Hd) in H. discriminate.
Qed.

Lemma scan_app_space (a b : string) (c : ascii) (cur : string) :
  is_space c = true ->
  Lisp3.scan cur (a ++ String c b)
  = (Lisp3.scan cur a ++ Lisp3.scan EmptyString b)%list.
Proof.
  intros Hc. revert cur. induction a as [|x a IH]; intros cur; simpl.
  - now rewrite (space_not_delim _ Hc), Hc.
  - destruct (Lisp3.is_delim x).
    + rewrite IH. now rewrite <- app_assoc.
    + destruct (is_space x); [|apply IH]. rewrite IH. now rewrite <- app_assoc.
Qed.

Lemma scan_app_delim (a b : string) (c : ascii) (cur : string) :
  Lisp3.is_delim c = true ->
  Lisp3.scan cur (a ++ String c b)
  = (Lisp3.scan cur a ++ String c EmptyString :: Lisp3.scan EmptyString b)%list.
Proof.
  intros Hc. revert cur. induction a as [|x a IH]; intros cur; simpl.
  - now rewrite Hc.
  - destruct (Lisp3.is_delim x).
    + rewrite IH. now rewrite <- app_assoc.
    + destruct (is_space x); [|apply IH]. rewrite IH. now rewrite <- app_assoc.
Qed.

Lemma split_app_space (a b : string) (c : ascii) (cur : string) :
  is_space c = true ->
  split_from cur (a ++ String c b)
  = (split_from cur a ++ split_from EmptyString b)%list.
Proof.
  intros Hc. revert cur. induction a as [|x a IH]; intros cur.
  - simpl. rewrite Hc. now destruct cur.
  - simpl. destruct (is_space x); [|apply IH].
    destruct cur; rewrite IH; reflexivity.
Qed.

Lemma replace_char_other (c x : ascii) (new s : string) :
  Ascii.eqb x c = false ->
  replace_char c new (String x s) = String x (replace_char c new s).
Proof. intros H. simpl. now rewrite H. Qed.

(** X3: tokenizing two texts joined by a whitespace character yields the
    tokens of the first followed by the tokens of the second, in all
    three files; joined by a parenthesis or a quote, [lisp3.py] (and
    [lisp2.py]) yield that character as a token between them. *)
Theorem tokenize_joined (a b : string) (c : ascii) :
  (is_space c = true ->
   Lisp3.tokenize (a ++ String c b) = (Lisp3.tokenize a ++ Lisp3.tokenize b)%list
   /\ Lisp2.tokenize (a ++ String c b) = (Lisp2.tokenize a ++ Lisp2.tokenize b)%list
   /\ Lisp1.tokenize (a ++ String c b) = (Lisp1.tokenize a ++ Lisp1.tokenize b)%list)
  /\ (Lisp3.is_delim c = true ->
      Lisp3.tokenize (a ++ String c b)
      = (Lisp3.tokenize a ++ String c EmptyString :: Lisp3.tokenize b)%list
      /\ Lisp2.tokenize (a ++ String c b)
         = (Lisp2.tokenize a ++ String c EmptyString :: Lisp2.tokenize b)%list).
Proof.
  split.
  - intros Hc. rewrite !lisp2_tokenize_eq_lisp3. unfold Lisp3.tokenize.
    rewrite (scan_app_space _ _ _ _ Hc). repeat split.
    unfold Lisp1.tokenize, split. rewrite !replace_char_app.
    pose proof (space_not_delim _ Hc) as Hd. unfold Lisp3.is_delim in Hd.
    apply orb_false_elim in Hd as [Hd _]. apply orb_false_elim in Hd as [H1 H2].
    rewrite (replace_char_other "(" c) by exact H1.
    rewrite (replace_char_other ")" c) by exact H2.
    now apply split_app_space.
  - intros Hc. rewrite !lisp2_tokenize_eq_lisp3. unfold Lisp3.tokenize.
    now rewrite (scan_app_delim _ _ _ _ Hc).
Qed.

Lemma tokenize_joined_witness :
  Lisp1.tokenize ("(f 1)" ++ String " " "(g 2)")
  = (Lisp1.tokenize "(f 1)" ++ Lisp1.tokenize "(g 2)")%list
  /\ Lisp3.tokenize ("a" ++ String "(" "b")
     = (Lisp3.tokenize "a" ++ "(" :: Lisp3.tokenize "b")%list.
Proof.
  split.
  - apply (proj1 (tokenize_joined "(f 1)" "(g 2)" " ")). reflexivity.
  - apply (proj2 (tokenize_joined "a" "b" "(")). reflexivity.
Defined.

(** ** The parsers read one expression *)

Lemma lisp1_parse_frame (n : nat) (extra : list string) :
  (forall tokens v rest, Lisp1.parse_fuel n tokens = Ok (v, rest) ->
     Lisp1.parse_fuel (S n) (tokens ++ extra)%list = Ok (v, (rest ++ extra)%list)
     /\ Lisp1.parse_fuel n (tokens ++ extra)%list = Ok (v, (rest ++ extra)%list))
  /\ (forall L tokens v rest, Lisp1.parse_list n L tokens = Ok (v, rest) ->
        Lisp1.parse_list (S n) L (tokens ++ extra)%list = Ok (v, (rest ++ extra)%list)
        /\ Lisp1.parse_list n L (tokens ++ extra)%list = Ok (v, (rest ++ extra)%list)).
Proof.
  induction n as [|n [IHp IHl]]; [split; intros; discriminate|].
  assert (Hp : forall tokens v rest, Lisp1.parse_fuel (S n) tokens = Ok (v, rest) ->
             forall m, (m = n \/ m = S n) ->
             Lisp1.parse_fuel (S m) (tokens ++ extra)%list = Ok (v, (rest ++ extra)%list)).
  { intros [|t ts] v rest H m Hm; cbn [Lisp1.parse_fuel] in H |- *; [discriminate|].
    cbn [List.app]. destruct (String.eqb t "(").
    - destruct Hm as [-> | ->]; [apply IHl | apply IHl]; exact H.
    - destruct (String.eqb t ")"); [discriminate|]. now injection H as <- <-. }
  assert (Hl : forall L tokens v rest, Lisp1.parse_list (S n) L tokens = Ok (v, rest) ->
             forall m, (m = n \/ m = S n) ->
             Lisp1.parse_list (S m) L (tokens ++ extra)%list = Ok (v, (rest ++ extra)%list)).
  { intros L [|t ts] v rest H m Hm; cbn [Lisp1.parse_list] in H |- *; [discriminate|].
    cbn [List.app]. destruct (String.eqb t ")"); [now injection H as <- <-|].
    destruct (Lisp1.parse_fuel n (t :: ts)) as [[v1 r1]| | |] eqn:E;
      cbn [on_ok fst snd] in H; try discriminate.
    change (t :: (ts ++ extra)%list) with ((t :: ts) ++ extra)%list.
    destruct Hm as [-> | ->].
    - rewrite (proj2 (IHp _ _ _ E)). cbn [on_ok fst snd]. now apply IHl.
    - rewrite (proj1 (IHp _ _ _ E)). cbn [on_ok fst snd]. now apply IHl. }
  split.
  - intros tokens v rest H. split; [apply Hp | apply Hp]; auto.
  - intros L tokens v rest H. split; [apply Hl | apply Hl]; auto.
Qed.

Lemma lisp2_parse_frame (n : nat) (extra : list string) :
  (forall tokens v rest, Lisp2.parse_fuel n tokens = Ok (v, rest) ->
     Lisp2.parse_fuel (S n) (tokens ++ extra)%list = Ok (v, (rest ++ extra)%list)
     /\ Lisp2.parse_fuel n (tokens ++ extra)%list = Ok (v, (rest ++ extra)%list))
  /\ (forall L tokens v rest, Lisp2.parse_list n L tokens = Ok (v, rest) ->
        Lisp2.parse_list (S n) L (tokens ++ extra)%list = Ok (v, (rest ++ extra)%list)
        /\ Lisp2.parse_list n L (tokens ++ extra)%list = Ok (v, (rest ++ extra)%list)).
Proof.
  induction n as [|n [IHp IHl]]; [split; intros; discriminate|].
  assert (Hp : forall tokens v rest, Lisp2.parse_fuel (S n) tokens = Ok (v, rest) ->
             forall m, (m = n \/ m = S n) ->
             Lisp2.parse_fuel (S m) (tokens ++ extra)%list = Ok (v, (rest ++ extra)%list)).
  { intros [|t ts] v rest H m Hm; cbn [Lisp2.parse_fuel] in H |- *; [discriminate|].
    cbn [List.app]. destruct (String.eqb t "(").
    - destruct Hm as [-> | ->]; [apply IHl | apply IHl]; exact H.
    - destruct (String.eqb t ")"); [discriminate|].
      destruct (String.eqb t "'"); [|now injection H as <- <-].
      destruct (Lisp2.parse_fuel n ts) as [[v1 r1]| | |] eqn:E;
        cbn [on_ok fst snd] in H; try discriminate. injection H as <- <-.
      destruct Hm as [-> | ->].
      + now rewrite (proj2 (IHp _ _ _ E)).
      + now rewrite (proj1 (IHp _ _ _ E)). }
  assert (Hl : forall L tokens v rest, Lisp2.parse_list (S n) L tokens = Ok (v, rest) ->
             forall m, (m = n \/ m = S n) ->
             Lisp2.parse_list (S m) L (tokens ++ extra)%list = Ok (v, (rest ++ extra)%list)).
  { intros L [|t ts] v rest H m Hm; cbn [Lisp2.parse_list] in H |- *; [discriminate|].
    cbn [List.app]. destruct (String.eqb t ")"); [now injection H as <- <-|].
    destruct (Lisp2.parse_fuel n (t :: ts)) as [[v1 r1]| | |] eqn:E;
      cbn [on_ok fst snd] in H; try discriminate.
    change (t :: (ts ++ extra)%list) with ((t :: ts) ++ extra)%list.
    destruct Hm as [-> | ->].
    - rewrite (proj2 (IHp _ _ _ E)). cbn [on_ok fst snd].
      destruct r1 as [|t1 r1]; [discriminate|]. cbn [List.app].
      exact (proj2 (IHl _ (t1 :: r1) _ _ H)).
    - rewrite (proj1 (IHp _ _ _ E)). cbn [on_ok fst snd].
      destruct r1 as [|t1 r1]; [discriminate|]. cbn [List.app].
      exact (proj1 (IHl _ (t1 :: r1) _ _ H)). }
  split.
  - intros tokens v rest H. split; [apply Hp | apply Hp]; auto.
  - intros L tokens v rest H. split; [apply Hl | apply Hl]; auto.
Qed.

Lemma lisp3_parse_frame (n : nat) (extra : list string) :
  (forall tokens v rest, Lisp3.parse_fuel n tokens = Ok (v, rest) ->
     Lisp3.parse_fuel (S n) (tokens ++ extra)%list = Ok (v, (rest ++ extra)%list)
     /\ Lisp3.parse_fuel n (tokens ++ extra)%list = Ok (v, (rest ++ extra)%list))
  /\ (forall L tokens v rest, Lisp3.parse_list n L tokens = Ok (v, rest) ->
        Lisp3.parse_list (S n) L (tokens ++ extra)%list = Ok (v, (rest ++ extra)%list)
        /\ Lisp3.parse_list n L (tokens ++ extra)%list = Ok (v, (rest ++ extra)%list)).
Proof.
  induction n as [|n [IHp IHl]]; [split; intros; discriminate|].
  assert (Hp : forall tokens v rest, Lisp3.parse_fuel (S n) tokens = Ok (v, rest) ->
             forall m, (m = n \/ m = S n) ->
             Lisp3.parse_fuel (S m) (tokens ++ extra)%list = Ok (v, (rest ++ extra)%list)).
  { intros [|t ts] v rest H m Hm; cbn [Lisp3.parse_fuel] in H |- *; [discriminate|].
    cbn [List.app]. destruct (String.eqb t "(").
    - destruct Hm as [-> | ->]; [apply IHl | apply IHl]; exact H.
    - destruct (String.eqb t "'").
      + destruct (Lisp3.parse_fuel n ts) as [[v1 r1]| | |] eqn:E;
          cbn [on_ok fst snd] in H; try discriminate. injection H as <- <-.
        destruct Hm as [-> | ->].
        * now rewrite (proj2 (IHp _ _ _ E)).
        * now rewrite (proj1 (IHp _ _ _ E)).
      + destruct (String.eqb t ")"); [discriminate|]. now injection H as <- <-. }
  assert (Hl : forall L tokens v rest, Lisp3.parse_list (S n) L tokens = Ok (v, rest) ->
             forall m, (m = n \/ m = S n) ->
             Lisp3.parse_list (S m) L (tokens ++ extra)%list = Ok (v, (rest ++ extra)%list)).
  { intros L [|t ts] v rest H m Hm; cbn [Lisp3.parse_list] in H |- *; [discriminate|].
    cbn [List.app]. destruct (String.eqb t ")"); [now injection H as <- <-|].
    destruct (Lisp3.parse_fuel n (t :: ts)) as [[v1 r1]| | |] eqn:E;
      cbn [on_ok fst snd] in H; try discriminate.
    change (t :: (ts ++ extra)%list) with ((t :: ts) ++ extra)%list.
    destruct Hm as [-> | ->].
    - rewrite (proj2 (IHp _ _ _ E)). cbn [on_ok fst snd]. now apply IHl.
    - rewrite (proj1 (IHp _ _ _ E)). cbn [on_ok fst snd]. now apply IHl. }
  split.
  - intros tokens v rest H. split; [apply Hp | apply Hp]; auto.
  - intros L tokens v rest H. split; [apply Hl | apply Hl]; auto.
Qed.

Lemma parse_fuel_more (pf : nat -> list string -> res (value * list string))
  (extra : list string) :
  (forall n tokens v rest, pf n tokens = Ok (v, rest) ->
     pf (S n) tokens = Ok (v, rest)) ->
  forall k n tokens v rest, pf n tokens = Ok (v, rest) ->
    pf (n + k)%nat tokens = Ok (v, rest).
Proof.
  intros Hstep k. induction k as [|k IH]; intros n tokens v rest H.
  - now rewrite Nat.add_0_r.
  - rewrite Nat.add_succ_r. apply Hstep. now apply IH.
Qed.

Lemma lisp1_parse_fuel_step (n : nat) (tokens : list string) (v : value)
  (rest : list string) :
  Lisp1.parse_fuel n tokens = Ok (v, rest) ->
  Lisp1.parse_fuel (S n) tokens = Ok (v, rest).
Proof.
  intros H. pose proof (proj1 (proj1 (lisp1_parse_frame n []) _ _ _ H)) as E.
  now rewrite !app_nil_r in E.
Qed.

Lemma lisp2_parse_fuel_step (n : nat) (tokens : list string) (v : value)
  (rest : list string) :
  Lisp2.parse_fuel n tokens = Ok (v, rest) ->
  Lisp2.parse_fuel (S n) tokens = Ok (v, rest).
Proof.
  intros H. pose proof (proj1 (proj1 (lisp2_parse_frame n []) _ _ _ H)) as E.
  now rewrite !app_nil_r in E.
Qed.

Lemma lisp3_parse_fuel_step (n : nat) (tokens : list string) (v : value)
  (rest : list string) :
  Lisp3.parse_fuel n tokens = Ok (v, rest) ->
  Lisp3.parse_fuel (S n) tokens = Ok (v, rest).
Proof.
  intros H. pose proof (proj1 (proj1 (lisp3_parse_frame n []) _ _ _ H)) as E.
  now rewrite !app_nil_r in E.
Qed.

Lemma lisp1_parse_app (tokens extra : list string) (v : value) (rest : list string) :
  Lisp1.parse tokens = Ok (v, rest) ->
  Lisp1.parse (tokens ++ extra)%list = Ok (v, (rest ++ extra)%list).
Proof.
  unfold Lisp1.parse. intros H.
  apply (proj1 (lisp1_parse_frame _ extra)) in H as [_ H].
  rewrite length_app.
  replace (2 * (List.length tokens + List.length extra) + 1)%nat
    with ((2 * List.length tokens + 1) + 2 * List.length extra)%nat by lia.
  apply (parse_fuel_more Lisp1.parse_fuel extra lisp1_parse_fuel_step). exact H.
Qed.

Lemma lisp2_parse_app (tokens extra : list string) (v : value) (rest : list string) :
  Lisp2.parse tokens = Ok (v, rest) ->
  Lisp2.parse (tokens ++ extra)%list = Ok (v, (rest ++ extra)%list).
Proof.
  unfold Lisp2.parse. intros H.
  apply (proj1 (lisp2_parse_frame _ extra)) in H as [_ H].
  rewrite length_app.
  replace (2 * (List.length tokens + List.length extra) + 1)%nat
    with ((2 * List.length tokens + 1) + 2 * List.length extra)%nat by lia.
  apply (parse_fuel_more Lisp2.parse_fuel extra lisp2_parse_fuel_step). exact H.
Qed.

Lemma lisp3_parse_app (tokens extra : list string) (v : value) (rest : list string) :
  Lisp3.parse tokens = Ok (v, rest) ->
  Lisp3.parse (tokens ++ extra)%list = Ok (v, (rest ++ extra)%list).
Proof.
  unfold Lisp3.parse. intros H.
  apply (proj1 (lisp3_parse_frame _ extra)) in H as [_ H].
  rewrite length_app.
  replace (2 * (List.length tokens + List.length extra) + 1)%nat
    with ((2 * List.length tokens + 1) + 2 * List.length extra)%nat by lia.
  apply (parse_fuel_more Lisp3.parse_fuel extra lisp3_parse_fuel_step). exact H.
Qed.

(** X4: a parser reads no further than the expression it returns: when
    [parse] returns a value and leaves [rest], then on the same tokens
    followed by any others it returns the same value and leaves [rest]
    followed by those; and what it leaves is shorter than what it was
    given. *)
Theorem parse_reads_one_expression (tokens extra rest : list string) (v : value) :
  (Lisp1.parse tokens = Ok (v, rest) ->
   Lisp1.parse (tokens ++ extra)%list = Ok (v, (rest ++ extra)%list)
   /\ (List.length rest < List.length tokens)%nat)
  /\ (Lisp2.parse tokens = Ok (v, rest) ->
      Lisp2.parse (tokens ++ extra)%list = Ok (v, (rest ++ extra)%list)
      /\ (List.length rest < List.length tokens)%nat)
  /\ (Lisp3.parse tokens = Ok (v, rest) ->
      Lisp3.parse (tokens ++ extra)%list = Ok (v, (rest ++ extra)%list)
      /\ (List.length rest < List.length tokens)%nat).
Proof.
  destruct (parse_total tokens) as (T1 & T2 & T3 & _).
  repeat split.
  - now apply lisp1_parse_app.
  - rewrite H in T1. exact T1.
  - now apply lisp2_parse_app.
  - rewrite H in T2. exact T2.
  - now apply lisp3_parse_app.
  - rewrite H in T3. exact T3.
Qed.

Lemma parse_reads_one_expression_witness :
  Lisp1.parse (["("; "f"; "1"; ")"] ++ ["("; "g"])%list
  = Ok (VList [VStr "f"; VInt 1], ([] ++ ["("; "g"])%list)
  /\ Lisp3.parse (["'"; "a"] ++ [")"])%list
     = Ok (VList [VStr "quote"; VStr "a"], ([] ++ [")"])%list).
Proof.
  split.
  - apply (proj1 (parse_reads_one_expression ["("; "f"; "1"; ")"] ["("; "g"] []
                    (VList [VStr "f"; VInt 1]))). reflexivity.
  - apply (proj2 (proj2 (parse_reads_one_expression ["'"; "a"] [")"] []
                           (VList [VStr "quote"; VStr "a"])))). reflexivity.
Defined.

(** ** Reading and running a text *)

Lemma lisp1_no_EOF_fuel (n : nat) :
  (forall t rest, Lisp1.parse_fuel n (t :: rest) <> Raise SyntaxError_EOF)
  /\ (forall L tokens, Lisp1.parse_list n L tokens <> Raise SyntaxError_EOF).
Proof.
  induction n as [|n [IHp IHl]]; [split; intros; discriminate|]. split.
  - intros t rest. cbn [Lisp1.parse_fuel].
    destruct (String.eqb t "("); [apply IHl|].
    destruct (String.eqb t ")"); discriminate.
  - intros L [|t rest]; cbn [Lisp1.parse_list]; [discriminate|].
    destruct (String.eqb t ")"); [discriminate|].
    specialize (IHp t rest).
    destruct (Lisp1.parse_fuel n (t :: rest)) as [[v r]|e| |];
      cbn [on_ok fst snd]; try discriminate; [apply IHl | congruence].
Qed.

Lemma lisp1_parse_cases (t : string) (ts : list string) :
  (exists v rest, Lisp1.parse (t :: ts) = Ok (v, rest)
                  /\ (List.length rest < List.length (t :: ts))%nat)
  \/ Lisp1.parse (t :: ts) = Raise SyntaxError_close_paren
  \/ Lisp1.parse (t :: ts) = Raise IndexError.
Proof.
  destruct (parse_total (t :: ts)) as (T & _ & _ & N & _).
  pose proof (proj1 (lisp1_no_EOF_fuel (2 * List.length (t :: ts) + 1)) t ts) as E.
  fold (Lisp1.parse (t :: ts)) in E.
  destruct (Lisp1.parse (t :: ts)) as [[v rest]|e| |]; cbn [parse_result] in T;
    try contradiction.
  - left. now exists v, rest.
  - destruct T as [-> | [-> | [-> | ->]]]; auto; congruence.
Qed.

Lemma loads_fuel_cases (n : nat) :
  forall tokens exprs, (List.length tokens <= n)%nat ->
    (exists es, Lisp1.loads_fuel n exprs tokens = Ok es)
    \/ Lisp1.loads_fuel n exprs tokens = Raise SyntaxError_close_paren
    \/ Lisp1.loads_fuel n exprs tokens = Raise IndexError.
Proof.
  induction n as [|n IH]; intros [|t ts] exprs Hn; cbn [List.length] in Hn;
    try lia; cbn [Lisp1.loads_fuel]; try (left; now eexists).
  destruct (lisp1_parse_cases t ts) as [(v & rest & -> & Hl)| [-> | ->]];
    cbn [on_ok fst snd]; auto.
  apply IH. cbn [List.length] in Hl. lia.
Qed.

Lemma loads_fuel_enough (n : nat) :
  forall m tokens exprs, (List.length tokens <= n)%nat ->
    (List.length tokens <= m)%nat ->
    Lisp1.loads_fuel n exprs tokens = Lisp1.loads_fuel m exprs tokens.
Proof.
  induction n as [|n IH]; intros m [|t ts] exprs Hn Hm; cbn [List.length] in Hn, Hm;
    try lia; destruct m as [|m]; try lia; cbn [Lisp1.loads_fuel]; try reflexivity.
  destruct (lisp1_parse_cases t ts) as [(v & rest & -> & Hl)| [-> | ->]];
    cbn [on_ok fst snd]; auto.
  cbn [List.length] in Hl. apply IH; lia.
Qed.

Lemma loads_fuel_app (n : nat) :
  forall ta exprs ea, Lisp1.loads_fuel n exprs ta = Ok ea ->
    forall tb m m', (List.length (ta ++ tb) <= m)%nat -> (List.length tb <= m')%nat ->
      Lisp1.loads_fuel m exprs (ta ++ tb) = Lisp1.loads_fuel m' ea tb.
Proof.
  induction n as [|n IH]; intros [|t ts] exprs ea H tb m m' Hm Hm';
    cbn [Lisp1.loads_fuel] in H; try discriminate.
  - injection H as <-. cbn [List.app] in *. now apply loads_fuel_enough.
  - injection H as <-. cbn [List.app] in *. now apply loads_fuel_enough.
  - destruct (lisp1_parse_cases t ts) as [(v & rest & E & Hl)| [E | E]];
      rewrite E in H; cbn [on_ok fst snd] in H; try discriminate.
    destruct m as [|m]; [cbn [List.app List.length] in Hm; lia|].
    change ((t :: ts) ++ tb)%list with (t :: (ts ++ tb))%list.
    cbn [Lisp1.loads_fuel].
    change (t :: (ts ++ tb))%list with ((t :: ts) ++ tb)%list.
    rewrite (lisp1_parse_app _ tb _ _ E). cbn [on_ok fst snd].
    apply (IH _ _ _ H).
    + rewrite length_app in *. cbn [List.length] in *. lia.
    + exact Hm'.
Qed.

Lemma loads_fuel_acc (n : nat) :
  forall tokens acc,
    Lisp1.loads_fuel n acc tokens
    = on_ok (Lisp1.loads_fuel n [] tokens) (fun es => Ok (acc ++ es)%list).
Proof.
  induction n as [|n IH]; intros [|t ts] acc; cbn [Lisp1.loads_fuel on_ok];
    try (now rewrite app_nil_r); try reflexivity.
  destruct (Lisp1.parse (t :: ts)) as [[v rest]|e| |]; cbn [on_ok fst snd];
    try reflexivity.
  rewrite (IH rest (acc ++ [v])%list), (IH rest ([] ++ [v])%list).
  destruct (Lisp1.loads_fuel n [] rest); cbn [on_ok]; try reflexivity.
  now rewrite <- app_assoc.
Qed.

Lemma lisp1_tokenize_space (a b : string) (c : ascii) :
  is_space c = true ->
  Lisp1.tokenize (a ++ String c b) = (Lisp1.tokenize a ++ Lisp1.tokenize b)%list.
Proof.
  intros Hc. unfold Lisp1.tokenize, split. rewrite !replace_char_app.
  pose proof (space_not_delim _ Hc) as Hd. unfold Lisp3.is_delim in Hd.
  apply orb_false_elim in Hd as [Hd _]. apply orb_false_elim in Hd as [H1 H2].
  rewrite (replace_char_other "(" c) by exact H1.
  rewrite (replace_char_other ")" c) by exact H2.
  now apply split_app_space.
Qed.

Lemma loads_joined (a b : string) (c : ascii) (ea : list value) :
  is_space c = true -> Lisp1.loads a = Ok ea ->
  Lisp1.loads (a ++ String c b)
  = on_ok (Lisp1.loads b) (fun eb => Ok (ea ++ eb)%list).
Proof.
  intros Hc Ha. unfold Lisp1.loads in *. cbv zeta in *.
  rewrite (lisp1_tokenize_space _ _ _ Hc).
  rewrite (loads_fuel_app _ _ _ _ Ha (Lisp1.tokenize b) _
             (List.length (Lisp1.tokenize b)) (le_n _) (le_n _)).
  apply loads_fuel_acc.
Qed.

Lemma eval_seq_app (ev : value -> M Lisp1.heap value) (xs ys : list value) :
  forall r h,
    Lisp1.eval_seq ev r (xs ++ ys)%list h
    = bind (Lisp1.eval_seq ev r xs) (fun r' => Lisp1.eval_seq ev r' ys) h.
Proof.
  induction xs as [|x xs IH]; intros r h; [reflexivity|].
  cbn [List.app Lisp1.eval_seq]. unfold bind in *.
  destruct (ev x h) as [[v|e| |] h1]; try reflexivity.
  apply IH.
Qed.

(** X5: [loads] of [lisp.py] comes to an end on every text: it returns
    the list of the expressions read, or raises the SyntaxError of a
    closing parenthesis that closes nothing, or the host's IndexError of
    a list left open.  The SyntaxError [parse] has for the end of the
    tokens is never raised through [loads], which calls [parse] only
    while tokens are left. *)
Theorem loads_outcome (src : string) :
  (exists exprs, Lisp1.loads src = Ok exprs)
  \/ Lisp1.loads src = Raise SyntaxError_close_paren
  \/ Lisp1.loads src = Raise IndexError.
Proof. unfold Lisp1.loads. cbv zeta. apply loads_fuel_cases. apply le_n. Qed.

(** X6: in [lisp.py], the text made of two programs with a whitespace
    character between them holds the expressions of the first followed
    by those of the second; [run] on it is [run] on the first followed,
    in the store the first leaves, by [run] on the second (which has at
    least one expression); and when the second has a syntax error, [run]
    raises it before it evaluates anything of the first. *)
Theorem run_joined (a b : string) (c : ascii) (ea : list value) (n : nat)
  (h : Lisp1.heap) :
  is_space c = true -> Lisp1.loads a = Ok ea ->
  Lisp1.loads (a ++ String c b)
  = on_ok (Lisp1.loads b) (fun eb => Ok (ea ++ eb)%list)
  /\ (forall eb, Lisp1.loads b = Ok eb -> eb <> [] ->
        Lisp1.run n (a ++ String c b) h
        = bind (Lisp1.run n a) (fun _ => Lisp1.run n b) h)
  /\ (forall e, Lisp1.loads b = Raise e ->
        Lisp1.run n (a ++ String c b) h = (Raise e, h)).
Proof.
  intros Hc Ha. pose proof (loads_joined a b c ea Hc Ha) as J.
  split; [exact J|]. split.
  - intros eb Hb Hne. unfold Lisp1.run, bind. rewrite J, Ha, Hb. cbn [on_ok].
    unfold Lisp1.run_exprs. rewrite eval_seq_app. unfold bind.
    destruct (Lisp1.eval_seq _ VNone ea h) as [[v|e| |] h1]; try reflexivity.
    destruct eb as [|x eb]; [contradiction|]. reflexivity.
  - intros e Hb. unfold Lisp1.run. rewrite J, Hb. reflexivity.
Qed.

Lemma run_joined_witness :
  Lisp1.run 5 ("(define x 1)" ++ String " " "(+ x 1)") Lisp1.init_heap
  = bind (Lisp1.run 5 "(define x 1)") (fun _ => Lisp1.run 5 "(+ x 1)")
      Lisp1.init_heap.
Proof.
  apply (proj1 (proj2 (run_joined "(define x 1)" "(+ x 1)" " "
                         [VList [VStr "define"; VStr "x"; VInt 1]] 5
                         Lisp1.init_heap eq_refl eq_refl))
           [VList [VStr "+"; VStr "x"; VInt 1]]).
  - reflexivity.
  - discriminate.
Defined.

(** X7: [run] of [lisp3.py] and [run_and_print] of [lisp2.py] parse one
    expression and evaluate it: whatever follows the first expression of
    the text, after a whitespace character, a parenthesis or a quote, is
    never looked at, be it further expressions or a syntax error. *)
Theorem run_first_expression_only (a b : string) (c : ascii) (n : nat)
  (env : addr) (h : envs) (ast : value) (rest : list string) :
  is_space c || Lisp3.is_delim c = true ->
  (Lisp3.parse (Lisp3.tokenize a) = Ok (ast, rest) ->
   Lisp3.run n (a ++ String c b) env h = Lisp3.run n a env h)
  /\ (Lisp2.parse (Lisp2.tokenize a) = Ok (ast, rest) ->
      Lisp2.run n (a ++ String c b) env h = Lisp2.run n a env h).
Proof.
  intros Hc.
  assert (T : exists extra,
             Lisp3.tokenize (a ++ String c b)
             = (Lisp3.tokenize a ++ extra)%list).
  { unfold Lisp3.tokenize. destruct (is_space c) eqn:Hs.
    - eexists. now apply scan_app_space.
    - eexists. now apply scan_app_delim. }
  destruct T as [extra T]. split; intros H.
  - unfold Lisp3.run. rewrite T, (lisp3_parse_app _ extra _ _ H), H. reflexivity.
  - unfold Lisp2.run, Lisp2.parse_str.
    rewrite lisp2_tokenize_eq_lisp3 in H. rewrite !lisp2_tokenize_eq_lisp3, T.
    rewrite (lisp2_parse_app _ extra _ _ H), H. reflexivity.
Qed.

Lemma run_first_expression_only_witness :
  Lisp3.run 5 ("(car '(1 2))" ++ String " " "(cdr") 0%nat Lisp3.init_heap
  = Lisp3.run 5 "(car '(1 2))" 0%nat Lisp3.init_heap
  /\ Lisp2.run 5 ("'a" ++ String ")" "b") 0%nat Lisp2.init_heap
     = Lisp2.run 5 "'a" 0%nat Lisp2.init_heap.
Proof.
  split.
  - apply (proj1 (run_first_expression_only "(car '(1 2))" "(cdr" " " 5 0%nat
                    Lisp3.init_heap
                    (VList [VStr "car"; VList [VStr "quote"; VList [VInt 1; VInt 2]]])
                    [] eq_refl)).
    reflexivity.
  - apply (proj2 (run_first_expression_only "'a" "b" ")" 5 0%nat
                    Lisp2.init_heap (VList [VStr "quote"; VStr "a"]) [] eq_refl)).
    reflexivity.
Defined.

(** ** The primitives *)

Lemma fold_sub_add (rest : list Z) :
  forall x acc, fold_left Z.sub rest x = x + acc - fold_left Z.add rest acc.
Proof.
  induction rest as [|v rest IH]; intros x acc; cbn [fold_left]; [lia|].
  rewrite (IH (x - v) (acc + v)). lia.
Qed.

Lemma sub_all_sum (x : Z) (rest : list Z) : sub_all x rest = x - sum rest.
Proof. unfold sub_all, sum. rewrite (fold_sub_add rest x 0). lia. Qed.

Lemma as_ints_cons (args : list value) (x : Z) (rest : list Z) :
  as_ints args = Some (x :: rest) ->
  exists v r, args = v :: r /\ as_int v = Some x /\ as_ints r = Some rest.
Proof.
  destruct args as [|v r]; cbn [as_ints]; [discriminate|].
  destruct (as_int v) as [z|] eqn:Ev; [|discriminate].
  destruct (as_ints r) as [zs|] eqn:Er; [|discriminate].
  intros [= -> ->]. now exists v, r.
Qed.

Lemma fold_div_div (ds : list Z) :
  forall r acc, 0 < acc -> Forall (fun d => 0 < d) ds ->
    fold_left Z.div ds (r / acc) = r / fold_left Z.mul ds acc.
Proof.
  induction ds as [|d ds IH]; intros r acc Hacc Hds; cbn [fold_left]; [reflexivity|].
  inversion Hds as [|? ? Hd Hds']; subst.
  rewrite Z.div_div by lia. apply IH; [nia | exact Hds'].
Qed.

(** X8: on integer operands the primitives [+], [-] and [*] of the three
    files compute the same: the sum of the operands, their product, and
    for [-] the negation of a single operand or the first operand less
    the sum of the others (the loops [res -= x] of [lisp2.py] and
    [lisp3.py] and the [a - sum(rest)] of [lisp.py] agree). *)
Theorem integer_arithmetic_agrees (h : envs) (penv : addr) (args : list value)
  (x : Z) (rest : list Z) :
  as_ints args = Some (x :: rest) ->
  (Lisp1.apply_prim "+" args = Ok (VInt (sum (x :: rest)))
   /\ Lisp2.apply_prim h "+" penv args = Ok (VInt (sum (x :: rest)))
   /\ Lisp3.apply_prim h "+" penv args = Ok (VInt (sum (x :: rest))))
  /\ (Lisp1.apply_prim "*" args = Ok (VInt (prod (x :: rest)))
      /\ Lisp2.apply_prim h "*" penv args = Ok (VInt (prod (x :: rest)))
      /\ Lisp3.apply_prim h "*" penv args = Ok (VInt (prod (x :: rest))))
  /\ (let d := match rest with [] => - x | _ :: _ => x - sum rest end in
      Lisp1.apply_prim "-" args = Ok (VInt d)
      /\ Lisp2.apply_prim h "-" penv args = Ok (VInt d)
      /\ Lisp3.apply_prim h "-" penv args = Ok (VInt d)).
Proof.
  intros H. destruct (as_ints_cons _ _ _ H) as (v & r & -> & _ & _).
  unfold Lisp1.apply_prim, Lisp2.apply_prim, Lisp3.apply_prim, Lisp2.arith.
  cbn [String.eqb Ascii.eqb Bool.eqb]. rewrite H.
  repeat split; try reflexivity;
    destruct rest as [|y rest]; try reflexivity; now rewrite sub_all_sum.
Qed.

Lemma integer_arithmetic_agrees_witness :
  Lisp1.apply_prim "-" [VInt 10; VInt 3; VBool true] = Ok (VInt 6)
  /\ Lisp2.apply_prim [] "-" 0%nat [VInt 10; VInt 3; VBool true] = Ok (VInt 6)
  /\ Lisp3.apply_prim [] "-" 0%nat [VInt 10; VInt 3; VBool true] = Ok (VInt 6).
Proof.
  exact (proj2 (proj2 (integer_arithmetic_agrees [] 0%nat
                         [VInt 10; VInt 3; VBool true] 10 [3; 1] eq_refl))).
Defined.

(** X9: [prim_div] of [lisp2.py] wants two operands at least; on integer
    operands it divides the first by the others in turn, rounding down
    each time: a divisor that is zero raises ZeroDivisionError, otherwise
    the result is the chain of floor divisions, which for positive
    divisors is the first operand divided, rounding down, by the product
    of the divisors. *)
Theorem lisp2_division (h : envs) (penv : addr) (args : list value) :
  ((List.length args < 2)%nat ->
   Lisp2.apply_prim h "/" penv args = Raise TypeError_prim_arity)
  /\ (forall x ds, as_ints args = Some (x :: ds) -> ds <> [] ->
        (In 0 ds -> Lisp2.apply_prim h "/" penv args = Raise ZeroDivisionError)
        /\ (~ In 0 ds ->
            Lisp2.apply_prim h "/" penv args = Ok (VInt (fold_left Z.div ds x)))
        /\ (Forall (fun d => 0 < d) ds ->
            Lisp2.apply_prim h "/" penv args = Ok (VInt (x / prod ds)))).
Proof.
  unfold Lisp2.apply_prim, Lisp2.arith. cbn [String.eqb Ascii.eqb Bool.eqb].
  split.
  - intros Hl. apply Nat.ltb_lt in Hl. now rewrite Hl.
  - intros x ds H Hne.
    assert (Hlen : (List.length args <? 2)%nat = false).
    { apply Nat.ltb_ge. destruct (as_ints_cons _ _ _ H) as (v & r & -> & _ & Hr).
      destruct r as [|w r]; [cbn in Hr; injection Hr as <-; contradiction|].
      cbn [List.length]. lia. }
    rewrite Hlen, H. clear H Hne Hlen.
    assert (Z0 : forall r, In 0 ds ->
              (fix divide (r : Z) (l : list Z) {struct l} : res value :=
                 match l with
                 | [] => Ok (VInt r)
                 | v :: l' => if v =? 0 then Raise ZeroDivisionError
                              else divide (r / v) l'
                 end) r ds = Raise ZeroDivisionError).
    { induction ds as [|d ds IH]; intros r Hin; [contradiction|].
      destruct (Z.eqb_spec d 0) as [E|E]; [reflexivity|].
      apply IH. destruct Hin; congruence. }
    assert (NZ : forall r, ~ In 0 ds ->
              (fix divide (r : Z) (l : list Z) {struct l} : res value :=
                 match l with
                 | [] => Ok (VInt r)
                 | v :: l' => if v =? 0 then Raise ZeroDivisionError
                              else divide (r / v) l'
                 end) r ds = Ok (VInt (fold_left Z.div ds r))).
    { clear Z0. induction ds as [|d ds IH]; intros r Hin; [reflexivity|].
      cbn [fold_left].
      destruct (Z.eqb_spec d 0) as [E|E]; [exfalso; apply Hin; now left|].
      apply IH. intros Hd. apply Hin. now right. }
    split; [intros Hz; now apply Z0|]. split; [intros Hn; now apply NZ|].
    intros Hpos. rewrite NZ.
    + unfold prod. rewrite <- (fold_div_div ds x 1) by (try lia; exact Hpos).
      now rewrite Z.div_1_r.
    + intros Hin. rewrite Forall_forall in Hpos. specialize (Hpos _ Hin). lia.
Qed.

Lemma lisp2_division_witness :
  Lisp2.apply_prim [] "/" 0%nat [VInt (-7); VInt 2; VInt 3] = Ok (VInt ((-7) / prod [2; 3]))
  /\ Lisp2.apply_prim [] "/" 0%nat [VInt 7; VInt 2; VInt 0] = Raise ZeroDivisionError.
Proof.
  split.
  - apply (proj2 (lisp2_division [] 0%nat [VInt (-7); VInt 2; VInt 3]) (-7) [2; 3]
             eq_refl ltac:(discriminate)).
    repeat constructor.
  - apply (proj2 (lisp2_division [] 0%nat [VInt 7; VInt 2; VInt 0]) 7 [2; 0]
             eq_refl ltac:(discriminate)).
    simpl. tauto.
Defined.

(** X10: [car] and [cdr] undo [cons].  In the three files, [cons] of a
    value and a list is a list whose [car] is the value and whose [cdr]
    is the list.  In [lisp.py], where [cons] also takes a second operand
    that is no list, the [car] is still the first operand, but the [cdr]
    is the list holding the second operand, not the operand. *)
Theorem car_cdr_of_cons (h : envs) (penv : addr) (a b : value) (l : list value) :
  (Lisp1.apply_prim "cons" [a; VList l] = Ok (VList (a :: l))
   /\ Lisp2.apply_prim h "cons" penv [a; VList l] = Ok (VList (a :: l))
   /\ Lisp3.apply_prim h "cons" penv [a; VList l] = Ok (VList (a :: l)))
  /\ (Lisp1.apply_prim "car" [VList (a :: l)] = Ok a
      /\ Lisp2.apply_prim h "car" penv [VList (a :: l)] = Ok a
      /\ Lisp3.apply_prim h "car" penv [VList (a :: l)] = Ok a)
  /\ (Lisp1.apply_prim "cdr" [VList (a :: l)] = Ok (VList l)
      /\ Lisp2.apply_prim h "cdr" penv [VList (a :: l)] = Ok (VList l)
      /\ Lisp3.apply_prim h "cdr" penv [VList (a :: l)] = Ok (VList l))
  /\ (is_list b = false ->
      exists c, Lisp1.apply_prim "cons" [a; b] = Ok c
                /\ Lisp1.apply_prim "car" [c] = Ok a
                /\ Lisp1.apply_prim "cdr" [c] = Ok (VList [b])).
Proof.
  repeat split.
  intros Hb. exists (VList [a; b]). destruct b; try discriminate; repeat split.
Qed.

Lemma car_cdr_of_cons_witness :
  exists c, Lisp1.apply_prim "cons" [VInt 1; VInt 2] = Ok c
            /\ Lisp1.apply_prim "car" [c] = Ok (VInt 1)
            /\ Lisp1.apply_prim "cdr" [c] = Ok (VList [VInt 2]).
Proof.
  exact (proj2 (proj2 (proj2 (car_cdr_of_cons [] 0%nat (VInt 1) (VInt 2) [])))
           eq_refl).
Defined.

(** ** String literals and quoted texts *)

Lemma ends_with_quote_app (s : string) :
  Lisp1.ends_with_quote (s ++ String Lisp1.dquote EmptyString) = true.
Proof.
  induction s as [|c s IH]; [reflexivity|].
  change (String c s ++ String Lisp1.dquote EmptyString)
    with (String c (s ++ String Lisp1.dquote EmptyString)).
  cbn [Lisp1.ends_with_quote].
  destruct (s ++ String Lisp1.dquote EmptyString) eqn:E; [|exact IH].
  destruct s; discriminate.
Qed.

Lemma drop_last_app (s : string) (c : ascii) :
  Lisp1.drop_last (s ++ String c EmptyString) = s.
Proof.
  induction s as [|x s IH]; [reflexivity|].
  change (String x s ++ String c EmptyString)
    with (String x (s ++ String c EmptyString)).
  cbn [Lisp1.drop_last].
  destruct (s ++ String c EmptyString) eqn:E; [destruct s; discriminate|].
  now rewrite IH.
Qed.

Lemma lisp1_atom_literal (s : string) :
  Lisp1.atom (String Lisp1.dquote (s ++ String Lisp1.dquote EmptyString)) = VStr s.
Proof.
  unfold Lisp1.atom.
  assert (E : Lisp1.starts_with_quote
                (String Lisp1.dquote (s ++ String Lisp1.dquote EmptyString))
              && Lisp1.ends_with_quote
                   (String Lisp1.dquote (s ++ String Lisp1.dquote EmptyString))
              && (2 <=? String.length
                          (String Lisp1.dquote (s ++ String Lisp1.dquote EmptyString)))%nat
              = true).
  { rewrite !andb_true_iff. repeat split.
    - cbn [Lisp1.ends_with_quote].
      destruct (s ++ String Lisp1.dquote EmptyString) eqn:E;
        [destruct s; discriminate|].
      rewrite <- E. apply ends_with_quote_app.
    - apply Nat.leb_le. cbn [String.length]. destruct s; cbn [String.length append]; lia. }
  rewrite E. now rewrite drop_last_app.
Qed.

Lemma split_from_symbol (s : string) :
  forall cur, all_chars symbol_char s = true ->
    split_from cur s = Lisp3.flush (cur ++ s).
Proof.
  induction s as [|c s IH]; intros cur H.
  - now rewrite string_app_nil_r.
  - cbn [all_chars] in H. apply andb_true_iff in H as [Hc Hs].
    rewrite (split_from_char _ _ _ (symbol_char_not_space _ Hc)), (IH _ Hs).
    now rewrite string_app_assoc, string_cons_app.
Qed.

Lemma symbol_char_not (x : ascii) :
  Lisp3.is_delim x = true ->
  forall c, symbol_char c = true -> negb (Ascii.eqb c x) = true.
Proof.
  unfold symbol_char. intros Hx c Hc. apply andb_true_iff in Hc as [_ Hd].
  destruct (Ascii.eqb_spec c x) as [->|]; [|reflexivity].
  now rewrite Hx in Hd.
Qed.

Lemma lisp1_tokenize_symbol (t : string) :
  t <> EmptyString -> all_chars symbol_char t = true -> Lisp1.tokenize t = [t].
Proof.
  intros Hne H. unfold Lisp1.tokenize.
  rewrite (replace_char_absent "(" _ t)
    by (apply (all_chars_impl symbol_char);
        [exact (symbol_char_not "(" eq_refl) | exact H]).
  rewrite (replace_char_absent ")" _ t)
    by (apply (all_chars_impl symbol_char);
        [exact (symbol_char_not ")" eq_refl) | exact H]).
  unfold split. rewrite (split_from_symbol _ _ H). cbn [append].
  destruct t; [contradiction | reflexivity].
Qed.

(** X11: in [lisp.py] a string literal is no value of its own: [atom]
    reads a token between double quotes as the host string between them,
    which is what a symbol is, so [eval_lisp] looks the text up as a
    symbol in the environment ([run] on the literal alone returns the
    binding of that name, or raises NameError when there is none); the
    test for strings among the self-evaluating values is never reached. *)
Theorem string_literal_is_symbol (s : string) (n : nat) (env : addr)
  (h : Lisp1.heap) :
  Lisp1.atom (String Lisp1.dquote (s ++ String Lisp1.dquote EmptyString)) = VStr s
  /\ Lisp1.eval (S n)
       (Lisp1.atom (String Lisp1.dquote (s ++ String Lisp1.dquote EmptyString)))
       env h
     = (Lisp1.lookup h env s, h)
  /\ (all_chars symbol_char s = true ->
      Lisp1.run (S n) (String Lisp1.dquote (s ++ String Lisp1.dquote EmptyString)) h
      = (Lisp1.lookup h Lisp1.global_env s, h)).
Proof.
  split; [apply lisp1_atom_literal|]. split; [now rewrite lisp1_atom_literal|].
  intros Hs. unfold Lisp1.run, Lisp1.loads. cbv zeta.
  rewrite lisp1_tokenize_symbol.
  - cbn [List.length Lisp1.loads_fuel]. unfold Lisp1.parse.
    cbn [List.length Nat.mul Nat.add Lisp1.parse_fuel].
    change (String.eqb (String Lisp1.dquote (s ++ String Lisp1.dquote EmptyString)) "(")
      with false.
    change (String.eqb (String Lisp1.dquote (s ++ String Lisp1.dquote EmptyString)) ")")
      with false.
    cbn [on_ok fst snd Lisp1.loads_fuel List.app].
    rewrite lisp1_atom_literal.
    unfold Lisp1.run_exprs. cbn [Lisp1.eval_seq Lisp1.eval]. unfold bind, ret.
    destruct (Lisp1.lookup h Lisp1.global_env s); reflexivity.
  - discriminate.
  - cbn [all_chars]. rewrite all_chars_app, Hs. reflexivity.
Qed.

Lemma string_literal_is_symbol_witness :
  Lisp1.run 1 (String Lisp1.dquote ("car" ++ String Lisp1.dquote EmptyString))
    Lisp1.init_heap
  = (Lisp1.lookup Lisp1.init_heap Lisp1.global_env "car", Lisp1.init_heap).
Proof.
  exact (proj2 (proj2 (string_literal_is_symbol "car" 0 Lisp1.global_env
                         Lisp1.init_heap)) eq_refl).
Defined.





(** ** Evaluation and the environments of others *)

Lemma keeps_pure {A : Type} (a : addr) (m : M envs A) :
  (forall h, snd (m h) = h) -> keeps_others a m.
Proof.
  intros Hm h r h' H. pose proof (Hm h) as E. rewrite H in E. cbn [snd] in E.
  subst h'. split; [apply le_n | reflexivity].
Qed.

Lemma keeps_ret {A : Type} (a : addr) (x : A) : keeps_others a (ret x).
Proof. now apply keeps_pure. Qed.

Lemma keeps_fail {A : Type} (a : addr) (r : res A) : keeps_others a (fail r).
Proof. now apply keeps_pure. Qed.

Lemma keeps_read {A : Type} (a : addr) (f : envs -> res A) :
  keeps_others a (fun h => (f h, h)).
Proof. now apply keeps_pure. Qed.

Lemma keeps_lift {A : Type} (a : addr) (r : res A) : keeps_others a (Lisp3.lift r).
Proof. now apply keeps_pure. Qed.

Lemma keeps_bind {A B : Type} (a : addr) (m : M envs A) (k : A -> M envs B) :
  keeps_others a m -> (forall x, keeps_others a (k x)) -> keeps_others a (bind m k).
Proof.
  intros Hm Hk h r h' H. unfold bind in H.
  destruct (m h) as [[x|e| |] h1] eqn:E; destruct (Hm _ _ _ E) as [L1 G1];
    try (injection H as <- <-; now split).
  destruct (Hk x _ _ _ H) as [L2 G2]. split; [lia|].
  intros b Hb Hl. rewrite G2 by (try lia; exact Hb). now apply G1.
Qed.

Lemma keeps_eval_each (a : addr) (ev : value -> M envs value) (xs : list value) :
  (forall x, keeps_others a (ev x)) -> keeps_others a (eval_each ev xs).
Proof.
  intros Hev. induction xs as [|x xs IH]; cbn [eval_each]; [apply keeps_ret|].
  apply keeps_bind; [apply Hev|]. intros v.
  apply keeps_bind; [exact IH|]. intros vs. apply keeps_ret.
Qed.

Lemma keeps_env_copy (a c : addr) : keeps_others a (env_copy c).
Proof.
  intros h r h' H. unfold env_copy in H.
  destruct (heap_get h c) as [d|]; cbn [heap_alloc] in H; injection H as <- <-.
  - split; [cbn [List.length]; lia|]. intros b _ Hb. now apply heap_get_older.
  - now split.
Qed.

Lemma keeps_env_store (a : addr) (name v : value) :
  keeps_others a (env_store a name v).
Proof.
  intros h r h' H. unfold env_store in H.
  destruct name; try (injection H as <- <-; now split).
  destruct (heap_get h a) as [d|]; injection H as <- <-; [|now split].
  rewrite heap_set_length. split; [apply le_n|].
  intros b Hb _. apply heap_get_set_other. congruence.
Qed.

Lemma keeps_env_bind (a : addr) (params : value) (args : list value) :
  keeps_others a (env_bind a params args).
Proof.
  intros h r h' H. unfold env_bind in H.
  destruct (py_zip params args); try (injection H as <- <-; now split).
  destruct (heap_get h a) as [d|]; injection H as <- <-; [|now split].
  rewrite heap_set_length. split; [apply le_n|].
  intros b Hb _. apply heap_get_set_other. congruence.
Qed.

(** A call: the environment held is copied, the copy takes the
    arguments, and the body runs in the copy. *)
Lemma keeps_call {A : Type} (a c : addr) (params : value) (args : list value)
  (k : addr -> M envs A) :
  (forall a', keeps_others a' (k a')) ->
  keeps_others a (new_env <- env_copy c ;; _ <- env_bind new_env params args ;;
                  k new_env).
Proof.
  intros Hk h r h' H. unfold bind at 1 in H. unfold env_copy in H.
  destruct (heap_get h c) as [d|]; cbn [heap_alloc] in H;
    [|injection H as <- <-; now split].
  assert (Hb : keeps_others (List.length h)
                 (_ <- env_bind (List.length h) params args ;; k (List.length h))).
  { apply keeps_bind; [apply keeps_env_bind|]. intros _. apply Hk. }
  destruct (Hb _ _ _ H) as [L G]. cbn [List.length] in L. split; [lia|].
  intros b _ Hl. rewrite G by (cbn [List.length]; lia).
  now apply heap_get_older.
Qed.

Lemma keeps_call_global (a : addr) (name : string) (args : list value) :
  keeps_others a (Lisp2.call_global name args).
Proof.
  apply keeps_pure. intros h. unfold Lisp2.call_global.
  destruct (env_item h Lisp2.global_env name) as [[]| | |]; reflexivity.
Qed.

Lemma keeps_eval_cond2 (a : addr) (ev : value -> M envs value) (cl : list value) :
  (forall x, keeps_others a (ev x)) -> keeps_others a (Lisp2.eval_cond ev cl).
Proof.
  intros Hev. induction cl as [|c cl IH]; cbn [Lisp2.eval_cond]; [apply keeps_ret|].
  destruct c as [| | | | |l| |]; try apply keeps_fail.
  destruct l as [|t [|e [|x l]]]; try apply keeps_fail.
  apply keeps_bind; [apply Hev|]. intros tv.
  destruct (negb (eq_nil tv)); [apply Hev | exact IH].
Qed.

Lemma keeps_eval_cond3 (a : addr) (ev : value -> M envs value) (cl : list value) :
  (forall x, keeps_others a (ev x)) -> keeps_others a (Lisp3.eval_cond ev cl).
Proof.
  intros Hev. induction cl as [|c cl IH]; cbn [Lisp3.eval_cond]; [apply keeps_ret|].
  apply keeps_bind; [apply keeps_lift|]. intros t.
  apply keeps_bind; [apply Hev|]. intros tv.
  destruct (negb (eq_nil tv)); [|exact IH].
  apply keeps_bind; [apply keeps_lift|]. intros e. apply Hev.
Qed.

Ltac keeps_step IH :=
  match goal with
  | |- keeps_others _ (ret _) => apply keeps_ret
  | |- keeps_others _ (fail _) => apply keeps_fail
  | |- keeps_others _ (Lisp3.lift _) => apply keeps_lift
  | |- keeps_others _ (Lisp2.call_global _ _) => apply keeps_call_global
  | |- keeps_others _ (env_store _ _ _) => apply keeps_env_store
  | |- keeps_others _ (env_copy _) => apply keeps_env_copy
  | |- keeps_others _ (Lisp2.eval _ _ _) => apply IH
  | |- keeps_others _ (Lisp3.eval _ _ _) => apply IH
  | |- keeps_others _ (eval_each _ _) => apply keeps_eval_each; intros ?
  | |- keeps_others _ (Lisp2.eval_cond _ _) => apply keeps_eval_cond2; intros ?
  | |- keeps_others _ (Lisp3.eval_cond _ _) => apply keeps_eval_cond3; intros ?
  | |- keeps_others _ (bind (env_copy _) (fun n => bind (env_bind n _ _) _)) =>
      apply (keeps_call _ _ _ _ (fun n => _)); intros ?
  | |- keeps_others _ (bind _ _) => apply keeps_bind; [|intros ?]
  | |- keeps_others _ (fun h => (_, h)) => apply keeps_read
  | |- keeps_others _ (if ?c then _ else _) => destruct c
  | |- keeps_others _ (match ?x with _ => _ end) => destruct x
  end.

Lemma lisp2_eval_keeps (n : nat) :
  forall x env, keeps_others env (Lisp2.eval n x env).
Proof.
  induction n as [|n IH]; intros x env; [apply keeps_fail|].
  cbn [Lisp2.eval]. repeat keeps_step IH.
Qed.

Lemma lisp3_eval_keeps (n : nat) :
  forall x env, keeps_others env (Lisp3.eval n x env).
Proof.
  induction n as [|n IH]; intros x env; [apply keeps_fail|].
  cbn [Lisp3.eval]. repeat keeps_step IH.
Qed.

(** X13: in [lisp2.py] and [lisp3.py] an evaluation changes no
    environment but the one it is given: the store only grows, and every
    other dictionary that was there before is afterwards what it was.  A
    function body runs in a copy of the environment its function holds,
    so nothing it binds reaches the caller's environment, the global one
    or the one the function holds. *)
Theorem evaluation_keeps_other_environments (n : nat) (x : value) (env : addr)
  (h : envs) (r : res value) (h' : envs) (b : addr) :
  b <> env -> (b < List.length h)%nat ->
  (Lisp2.eval n x env h = (r, h') ->
   heap_get h' b = heap_get h b /\ (List.length h <= List.length h')%nat)
  /\ (Lisp3.eval n x env h = (r, h') ->
      heap_get h' b = heap_get h b /\ (List.length h <= List.length h')%nat).
Proof.
  intros Hb Hl. split; intros H.
  - destruct (lisp2_eval_keeps n x env _ _ _ H) as [L G]. split; [now apply G | exact L].
  - destruct (lisp3_eval_keeps n x env _ _ _ H) as [L G]. split; [now apply G | exact L].
Qed.

Lemma evaluation_keeps_other_environments_witness :
  heap_get
    (snd (Lisp2.eval 6
            (VList [VList [VStr "lambda"; VList [VStr "y"];
                           VList [VStr "setq"; VStr "T"; VStr "y"]];
                    VInt 5])
            lisp2_demo_env lisp2_demo_heap))
    Lisp2.global_env
  = heap_get lisp2_demo_heap Lisp2.global_env.
Proof.
  refine (proj1 (proj1 (evaluation_keeps_other_environments 6
                   (VList [VList [VStr "lambda"; VList [VStr "y"];
                                  VList [VStr "setq"; VStr "T"; VStr "y"]];
                           VInt 5])
                   lisp2_demo_env lisp2_demo_heap _ _ Lisp2.global_env _ _)
                   (surjective_pairing _))).
  - discriminate.
  - vm_compute. lia.
Defined.

(** ** Binding a symbol: the owner in a chain, the copy in a call *)

(** A call in [lisp2.py], once operator and operands are evaluated,
    changes no dictionary the store had: the body runs in a copy. *)
Lemma lisp2_call_keeps (n : nat) (env : addr) (g g1 g2 g' : envs)
  (head params body : value) (cenv : addr) (rest args : list value)
  (r : res value) :
  Lisp2.is_special head = false ->
  Lisp2.eval n head env g = (Ok (VProc params body cenv), g1) ->
  eval_each (fun e => Lisp2.eval n e env) rest g1 = (Ok args, g2) ->
  Lisp2.eval (S n) (VList (head :: rest)) env g = (r, g') ->
  (List.length g2 <= List.length g')%nat
  /\ forall b, (b < List.length g2)%nat -> heap_get g' b = heap_get g2 b.
Proof.
  intros Hs Hh Ha H. not_special Hs. cbn [Lisp2.eval] in H.
  rewrite Hs0, Hs1, Hs2, Hs3, Hs4, Hs5, Hs6, Hs7, Hs8, Hs9 in H.
  unfold bind at 1 in H. rewrite Hh in H. unfold bind at 1 in H. rewrite Ha in H.
  assert (K : keeps_others (List.length g2)
                (match py_len params with
                 | Ok k =>
                     if negb (k =? List.length args)%nat
                     then fail (Raise TypeError_arg_count)
                     else
                       new_env <- env_copy cenv ;;
                       _ <- env_bind new_env params args ;;
                       Lisp2.eval n body new_env
                 | _ => fail (Raise TypeError_host)
                 end)).
  { destruct (py_len params) as [k| | |]; try apply keeps_fail.
    destruct (negb (k =? List.length args)%nat); [apply keeps_fail|].
    apply (keeps_call _ _ _ _ (fun a' => Lisp2.eval n body a')).
    intros a'. apply lisp2_eval_keeps. }
  destruct (K _ _ _ H) as [L G]. split; [exact L|].
  intros b Hb. apply G; lia.
Qed.

(** C2 as the claim states it, for [lisp2.py]: a symbol the environment
    of a function owns is not bound anew in that environment by a
    [setq] in the function's body, which binds it in the copy the call
    works in; afterwards the symbol has its old value.  In [lisp.py] the
    same program, with [define] and [set!], binds it in the owner. *)
Lemma lisp2_setq_in_body_is_local :
  fst (lisp2_session 10
         ["(setq x 1)"; "(defun f () (setq x 2))"; "(f)"; "x"]
         lisp2_demo_env lisp2_demo_heap) = Ok (VInt 1)
  /\ fst (lisp1_session 10
            ["(define x 1)"; "(define f (lambda () (set! x 2)))"; "(f)"; "x"]
            Lisp1.init_heap) = Ok (VInt 2).
Proof. split; vm_compute; reflexivity. Qed.

(** C2, amended.  [define] and [set!] of [lisp.py] evaluate the value
    expression, then bind the symbol in the nearest environment of the
    chain that already owns it, in place, or in the current environment
    when none does; no other environment changes, the symbol then
    resolves to the value, and the form returns the symbol.  [setq] of
    [lisp2.py] evaluates the value expression, then binds the symbol in
    the one dictionary it is evaluated in, changes no other, and returns
    the symbol; as the body of a function runs in a copy of the
    environment the function holds, a [setq] there changes no dictionary
    that was there before the call, and so never the binding of an
    owner. *)
Theorem define_binds_in_owner :
  (forall (n : nat) (env : addr) (head name : string) (expr val : value)
          (h h1 : Lisp1.heap) (f : Lisp1.frame),
      head = "define" \/ head = "set!" ->
      Lisp1.eval n expr env h = (Ok val, h1) ->
      heap_get h1 env = Some f ->
      let h2 := match Lisp1.find h1 env name with
                | Some a => Lisp1.set_var h1 a name val
                | None => Lisp1.set_var h1 env name val
                end in
      Lisp1.eval (S n) (VList [VStr head; VStr name; expr]) env h
      = (Ok (VStr name), h2)
      /\ Lisp1.find h1 env name
         = List.find (Lisp1.owns h1 name) (Lisp1.chain h1 env)
      /\ (forall a fa, heap_get h1 a = Some fa ->
          heap_get (Lisp1.set_var h1 a name val) a
          = Some (Lisp1.Frame (dict_set (Lisp1.vars fa) name val) (Lisp1.outer fa))
          /\ forall b, b <> a ->
             heap_get (Lisp1.set_var h1 a name val) b = heap_get h1 b)
      /\ Lisp1.lookup h2 env name = Ok val)
  /\ (forall (n : nat) (env : addr) (name : string) (expr val : value)
             (g g1 : envs) (d : dict),
        Lisp2.eval n expr env g = (Ok val, g1) ->
        heap_get g1 env = Some d ->
        let g2 := heap_set g1 env (dict_set d name val) in
        Lisp2.eval (S n) (VList [VStr "setq"; VStr name; expr]) env g
        = (Ok (VStr name), g2)
        /\ env_item g2 env name = Ok val
        /\ forall b, b <> env -> heap_get g2 b = heap_get g1 b)
  /\ (forall (n : nat) (env : addr) (head params body : value) (cenv : addr)
             (rest args : list value) (g g1 g2 g' : envs) (r : res value),
        Lisp2.is_special head = false ->
        Lisp2.eval n head env g = (Ok (VProc params body cenv), g1) ->
        eval_each (fun e => Lisp2.eval n e env) rest g1 = (Ok args, g2) ->
        Lisp2.eval (S n) (VList (head :: rest)) env g = (r, g') ->
        (List.length g2 <= List.length g')%nat
        /\ forall b, (b < List.length g2)%nat -> heap_get g' b = heap_get g2 b).
Proof.
  split; [|split].
  - intros n env head name expr val h h1 f Hd He Hf h2.
    split; [exact (lisp1_define _ _ _ _ _ _ _ _ Hd He)|].
    split; [apply find_walks_chain|].
    split; [intros a fa; apply set_var_get|].
    unfold h2. rewrite <- lisp1_assign_spec.
    exact (lookup_after_assign _ _ _ _ _ Hf).
  - intros n env name expr val g g1 d He Hd g2.
    split; [exact (lisp2_setq _ _ _ _ _ _ _ _ He Hd)|]. split.
    + unfold env_item, g2. rewrite (heap_get_set_same _ _ _ _ Hd).
      now rewrite dict_get_set_same.
    + intros b Hb. unfold g2. apply heap_get_set_other. congruence.
  - intros n env head params body cenv rest args g g1 g2 g' r.
    apply lisp2_call_keeps.
Qed.

Lemma define_binds_in_owner_witness :
  (let h := Lisp1.Frame [] (Some Lisp1.global_env)
            :: snd (Lisp1.run 2 "(define x 1)" Lisp1.init_heap) in
   Lisp1.find h 1%nat "x" = Some Lisp1.global_env
   /\ Lisp1.eval 2 (VList [VStr "set!"; VStr "x"; VInt 2]) 1%nat h
      = (Ok (VStr "x"), Lisp1.set_var h Lisp1.global_env "x" (VInt 2))
   /\ Lisp1.lookup (Lisp1.set_var h Lisp1.global_env "x" (VInt 2)) 1%nat "x"
      = Ok (VInt 2)
   /\ heap_get (Lisp1.set_var h Lisp1.global_env "x" (VInt 2)) 1%nat
      = heap_get h 1%nat)
  /\ (fst (Lisp1.eval 2 (VList [VStr "define"; VStr "x"; VInt 1])
             Lisp1.global_env Lisp1.init_heap) = Ok (VStr "x")
      /\ Lisp1.lookup
           (snd (Lisp1.eval 2 (VList [VStr "define"; VStr "x"; VInt 1])
                   Lisp1.global_env Lisp1.init_heap)) Lisp1.global_env "x"
         = Ok (VInt 1))
  /\ Lisp2.eval 2 (VList [VStr "setq"; VStr "x"; VInt 1]) lisp2_demo_env
       lisp2_demo_heap
     = (Ok (VStr "x"),
        heap_set lisp2_demo_heap lisp2_demo_env
          (dict_set (global_dict Lisp2.prim_names 1%nat) "x" (VInt 1)))
  /\ (let g := snd (Lisp2.run 2 "(setq x 1)" lisp2_demo_env lisp2_demo_heap) in
      env_item
        (snd (Lisp2.eval 4
                (VList [VList [VStr "lambda"; VList [];
                               VList [VStr "setq"; VStr "x"; VInt 2]]])
                lisp2_demo_env g))
        lisp2_demo_env "x"
      = Ok (VInt 1)).
Proof.
  split; [|split; [|split]].
  - intros h.
    destruct (proj1 define_binds_in_owner 1%nat 1%nat "set!" "x" (VInt 2) (VInt 2)
                h h (Lisp1.Frame [] (Some Lisp1.global_env))
                (or_intror eq_refl) eq_refl eq_refl) as (H1 & _ & H3 & H4).
    split; [reflexivity|]. split; [exact H1|]. split; [exact H4|].
    exact (proj2 (H3 Lisp1.global_env
                    (Lisp1.Frame
                       (dict_set (Lisp1.vars Lisp1.global_frame) "x" (VInt 1)) None)
                    eq_refl) 1%nat ltac:(discriminate)).
  - destruct (proj1 define_binds_in_owner 1%nat Lisp1.global_env "define" "x"
                (VInt 1) (VInt 1) Lisp1.init_heap Lisp1.init_heap
                Lisp1.global_frame (or_introl eq_refl) eq_refl eq_refl)
      as (H1 & _ & _ & H2).
    rewrite H1. split; [reflexivity | exact H2].
  - exact (proj1 (proj1 (proj2 define_binds_in_owner) 1%nat lisp2_demo_env "x"
                    (VInt 1) (VInt 1) lisp2_demo_heap lisp2_demo_heap
                    (global_dict Lisp2.prim_names 1%nat) eq_refl eq_refl)).
  - intros g. unfold env_item.
    rewrite (proj2 (proj2 (proj2 define_binds_in_owner) 3%nat lisp2_demo_env
                      (VList [VStr "lambda"; VList [];
                              VList [VStr "setq"; VStr "x"; VInt 2]])
                      (VList []) (VList [VStr "setq"; VStr "x"; VInt 2]) 2%nat
                      [] [] g
                      (dict_set (global_dict Lisp2.prim_names 1%nat) "x" (VInt 1) :: g)
                      (dict_set (global_dict Lisp2.prim_names 1%nat) "x" (VInt 1) :: g)
                      _ _ eq_refl eq_refl eq_refl (surjective_pairing _))
               lisp2_demo_env ltac:(vm_compute; lia)).
    reflexivity.
Defined.

(** ** Resolution of symbols, once and later *)

Lemma same_resolution_refl (h : Lisp1.heap) : same_resolution h h.
Proof. split; [apply le_n | auto]. Qed.

Lemma same_resolution_trans (h1 h2 h3 : Lisp1.heap) :
  same_resolution h1 h2 -> same_resolution h2 h3 -> same_resolution h1 h3.
Proof. intros [L1 G1] [L2 G2]. split; [lia | auto]. Qed.

Lemma find_bound (h : Lisp1.heap) :
  forall e y a, Lisp1.find h e y = Some a -> (e < List.length h)%nat.
Proof.
  induction h as [|f older IH]; intros e y a H; cbn [Lisp1.find] in H;
    [discriminate|].
  cbn [List.length]. destruct (Nat.eqb_spec e (List.length older)) as [->|Hne];
    [lia|]. apply IH in H. lia.
Qed.

Lemma same_resolution_alloc (h : Lisp1.heap) (f : Lisp1.frame) :
  same_resolution h (f :: h).
Proof.
  split; [cbn [List.length]; lia|]. intros e y a H.
  pose proof (find_bound _ _ _ _ H) as Hb. cbn [Lisp1.find].
  destruct (Nat.eqb_spec e (List.length h)); [lia | exact H].
Qed.

Lemma set_var_cons (f : Lisp1.frame) (older : Lisp1.heap) (s : addr)
  (name : string) (v : value) :
  Lisp1.set_var (f :: older) s name v
  = if (s =? List.length older)%nat
    then Lisp1.Frame (dict_set (Lisp1.vars f) name v) (Lisp1.outer f) :: older
    else f :: Lisp1.set_var older s name v.
Proof.
  unfold Lisp1.set_var. cbn [heap_get].
  destruct (Nat.eqb_spec s (List.length older)) as [->|Hne].
  - cbn [heap_set]. now rewrite Nat.eqb_refl.
  - destruct (heap_get older s) as [f0|]; [|reflexivity].
    cbn [heap_set]. destruct (Nat.eqb_spec s (List.length older)); [contradiction|].
    reflexivity.
Qed.

Lemma set_var_length (h : Lisp1.heap) (s : addr) (name : string) (v : value) :
  List.length (Lisp1.set_var h s name v) = List.length h.
Proof.
  unfold Lisp1.set_var. destruct (heap_get h s); [apply heap_set_length | reflexivity].
Qed.

(** Binding [name] in the environment at [s], which owns it already or
    from which it does not resolve, moves no resolution. *)
Lemma find_set_var (h : Lisp1.heap) (s : addr) (name : string) (v : value) :
  Lisp1.find h s name = None \/ Lisp1.owns h name s = true ->
  forall e y a, Lisp1.find h e y = Some a ->
    Lisp1.find (Lisp1.set_var h s name v) e y = Some a.
Proof.
  induction h as [|f older IH]; intros Pre e y a H; [discriminate|].
  rewrite set_var_cons. cbn [Lisp1.find] in H.
  destruct (Nat.eqb_spec s (List.length older)) as [->|Hs].
  - cbn [Lisp1.find Lisp1.vars Lisp1.outer].
    destruct (Nat.eqb_spec e (List.length older)) as [->|He]; [|exact H].
    rewrite dict_mem_set.
    destruct (dict_mem (Lisp1.vars f) y) eqn:Em; [exact H|]. cbn [orb].
    destruct (String.eqb_spec name y) as [->|Hy]; [|exact H].
    exfalso. destruct Pre as [Pre|Pre].
    + cbn [Lisp1.find] in Pre. rewrite Nat.eqb_refl, Em in Pre. congruence.
    + unfold Lisp1.owns in Pre. cbn [heap_get] in Pre.
      rewrite Nat.eqb_refl, Em in Pre. discriminate.
  - assert (Pre' : Lisp1.find older s name = None \/ Lisp1.owns older name s = true).
    { destruct Pre as [Pre|Pre]; [left|right].
      - cbn [Lisp1.find] in Pre.
        destruct (Nat.eqb_spec s (List.length older)); [contradiction | exact Pre].
      - unfold Lisp1.owns in *. cbn [heap_get] in Pre.
        destruct (Nat.eqb_spec s (List.length older)); [contradiction | exact Pre]. }
    cbn [Lisp1.find]. rewrite set_var_length.
    destruct (Nat.eqb_spec e (List.length older)) as [->|He].
    + destruct (dict_mem (Lisp1.vars f) y); [exact H|].
      destruct (Lisp1.outer f) as [o|]; [|discriminate]. now apply IH.
    + now apply IH.
Qed.

Lemma same_resolution_assign (h : Lisp1.heap) (env : addr) (name : string)
  (val : value) :
  same_resolution h (Lisp1.assign h env name val).
Proof.
  rewrite lisp1_assign_spec. destruct (Lisp1.find h env name) as [a|] eqn:E.
  - split; [now rewrite set_var_length|]. apply find_set_var. right.
    destruct (find_owns _ _ _ _ E) as (f & Hf & Hm). unfold Lisp1.owns.
    now rewrite Hf.
  - split; [now rewrite set_var_length|]. apply find_set_var. now left.
Qed.

Lemma resolution_pure {A : Type} (m : M Lisp1.heap A) :
  (forall h, snd (m h) = h) -> keeps_resolution m.
Proof.
  intros Hm h r h' H. pose proof (Hm h) as E. rewrite H in E. cbn [snd] in E.
  subst h'. apply same_resolution_refl.
Qed.

Lemma resolution_ret {A : Type} (x : A) : keeps_resolution (ret x).
Proof. now apply resolution_pure. Qed.

Lemma resolution_fail {A : Type} (r : res A) : keeps_resolution (fail r).
Proof. now apply resolution_pure. Qed.

Lemma resolution_read {A : Type} (f : Lisp1.heap -> res A) :
  keeps_resolution (fun h => (f h, h)).
Proof. now apply resolution_pure. Qed.

Lemma resolution_bind {A B : Type} (m : M Lisp1.heap A) (k : A -> M Lisp1.heap B) :
  keeps_resolution m -> (forall x, keeps_resolution (k x)) ->
  keeps_resolution (bind m k).
Proof.
  intros Hm Hk h r h' H. unfold bind in H.
  destruct (m h) as [[x|e| |] h1] eqn:E; pose proof (Hm _ _ _ E) as R1;
    try (injection H as <- <-; exact R1).
  exact (same_resolution_trans _ _ _ R1 (Hk x _ _ _ H)).
Qed.

Lemma resolution_eval_each (ev : value -> M Lisp1.heap value) (xs : list value) :
  (forall x, keeps_resolution (ev x)) -> keeps_resolution (eval_each ev xs).
Proof.
  intros Hev. induction xs as [|x xs IH]; cbn [eval_each]; [apply resolution_ret|].
  apply resolution_bind; [apply Hev|]. intros v.
  apply resolution_bind; [exact IH|]. intros vs. apply resolution_ret.
Qed.

Lemma resolution_eval_seq (ev : value -> M Lisp1.heap value) (xs : list value) :
  (forall x, keeps_resolution (ev x)) ->
  forall r, keeps_resolution (Lisp1.eval_seq ev r xs).
Proof.
  intros Hev. induction xs as [|x xs IH]; intros r; cbn [Lisp1.eval_seq];
    [apply resolution_ret|].
  apply resolution_bind; [apply Hev|]. intros v. apply IH.
Qed.

Lemma resolution_assign {A : Type} (r : res A) (env : addr) (name : string)
  (val : value) :
  keeps_resolution (fun h => (r, Lisp1.assign h env name val)).
Proof. intros h r' h' [= <- <-]. apply same_resolution_assign. Qed.

Lemma resolution_new_env (params : value) (args : list value) (outer : addr) :
  keeps_resolution (Lisp1.new_env params args outer).
Proof.
  intros h r h' H. unfold Lisp1.new_env in H.
  destruct (py_zip params args); cbn [heap_alloc] in H; injection H as <- <-;
    try apply same_resolution_refl.
  apply same_resolution_alloc.
Qed.

Ltac resolution_step IH :=
  match goal with
  | |- keeps_resolution (ret _) => apply resolution_ret
  | |- keeps_resolution (fail _) => apply resolution_fail
  | |- keeps_resolution (Lisp1.new_env _ _ _) => apply resolution_new_env
  | |- keeps_resolution (Lisp1.eval _ _ _) => apply IH
  | |- keeps_resolution (eval_each _ _) => apply resolution_eval_each; intros ?
  | |- keeps_resolution (Lisp1.eval_seq _ _ _) => apply resolution_eval_seq; intros ?
  | |- keeps_resolution (bind _ _) => apply resolution_bind; [|intros ?]
  | |- keeps_resolution (fun h => (_, Lisp1.assign h _ _ _)) => apply resolution_assign
  | |- keeps_resolution (fun h => (_, h)) => apply resolution_read
  | |- keeps_resolution (if ?c then _ else _) => destruct c
  | |- keeps_resolution (match ?x with _ => _ end) => destruct x
  end.

Lemma lisp1_eval_resolution (n : nat) :
  forall x env, keeps_resolution (Lisp1.eval n x env).
Proof.
  induction n as [|n IH]; intros x env; [apply resolution_fail|].
  cbn [Lisp1.eval]. repeat resolution_step IH.
Qed.

Lemma lisp1_run_resolution (n : nat) (src : string) :
  keeps_resolution (Lisp1.run n src).
Proof.
  intros h r h' H. unfold Lisp1.run in H.
  destruct (Lisp1.loads src) as [exprs|e| |]; try (injection H as <- <-;
    apply same_resolution_refl).
  revert H. apply resolution_eval_seq. intros x. apply lisp1_eval_resolution.
Qed.

(** X14: in [lisp.py] a symbol that resolves from an environment keeps
    resolving from it, to the same environment of the chain, whatever is
    evaluated or run afterwards: no binding is ever removed, and since
    [define] and [set!] bind in the environment that owns the symbol
    when one of the chain does, none is ever shadowed later by a binding
    made nearer; so the symbol still has a value. *)
Theorem resolution_is_stable (n : nat) (x : value) (env : addr) (src : string)
  (h : Lisp1.heap) (r : res value) (h' : Lisp1.heap)
  (e : addr) (y : string) (a : addr) :
  Lisp1.find h e y = Some a ->
  Lisp1.eval n x env h = (r, h') \/ Lisp1.run n src h = (r, h') ->
  Lisp1.find h' e y = Some a
  /\ (exists v, Lisp1.lookup h' e y = Ok v)
  /\ (List.length h <= List.length h')%nat.
Proof.
  intros Hf H.
  assert (R : same_resolution h h').
  { destruct H as [H|H];
      [exact (lisp1_eval_resolution _ _ _ _ _ _ H)
      | exact (lisp1_run_resolution _ _ _ _ _ H)]. }
  destruct R as [L G]. pose proof (G _ _ _ Hf) as Hf'.
  split; [exact Hf'|]. split; [|exact L].
  destruct (find_owns _ _ _ _ Hf') as (f & Hg & Hm).
  unfold Lisp1.lookup. rewrite Hf', Hg, (dict_mem_truthy _ _ Hm).
  unfold dict_mem in Hm. destruct (dict_get (Lisp1.vars f) y) as [v|];
    [now exists v | discriminate].
Qed.

Lemma resolution_is_stable_witness :
  Lisp1.find
    (snd (Lisp1.run 6 "(define f (lambda (car) (define cdr car))) (f 1)"
            Lisp1.init_heap))
    Lisp1.global_env "cdr"
  = Some Lisp1.global_env.
Proof.
  refine (proj1 (resolution_is_stable 6 VNone Lisp1.global_env
                   "(define f (lambda (car) (define cdr car))) (f 1)"
                   Lisp1.init_heap _ _ Lisp1.global_env "cdr" Lisp1.global_env
                   eq_refl (or_intror (surjective_pairing _)))).
Defined.

(** ** The scope of a call, and [_apply] *)

Lemma dict_update_other (kvs : list (string * value)) :
  forall d k, ~ In k (map fst kvs) ->
    dict_get (dict_update d kvs) k = dict_get d k.
Proof.
  unfold dict_update.
  induction kvs as [|[k0 v0] kvs IH]; intros d k Hk; [reflexivity|].
  cbn [fold_left fst snd]. cbn [map fst In] in Hk.
  rewrite IH by tauto. apply dict_get_set_other. tauto.
Qed.

Lemma dict_update_in (kvs : list (string * value)) :
  forall d k v, NoDup (map fst kvs) -> In (k, v) kvs ->
    dict_get (dict_update d kvs) k = Some v.
Proof.
  induction kvs as [|[k0 v0] kvs IH]; intros d k v Hn Hin; [contradiction|].
  cbn [map fst] in Hn. inversion Hn as [|? ? Hk0 Hn']; subst.
  change (dict_update d ((k0, v0) :: kvs))
    with (dict_update (dict_set d k0 v0) kvs).
  destruct Hin as [[= -> ->]|Hin].
  - rewrite (dict_update_other _ _ _ Hk0). apply dict_get_set_same.
  - now apply IH.
Qed.

Lemma combine_keys_nodup (names : list string) :
  forall args : list value, NoDup names -> NoDup (map fst (combine names args)).
Proof.
  induction names as [|x names IH]; intros args Hn; [constructor|].
  destruct args as [|a args]; [constructor|].
  inversion Hn as [|? ? Hx Hn']; subst. cbn [combine map fst]. constructor.
  - intros Hin. apply Hx. apply in_map_iff in Hin as [[k v] [Hk Hin]].
    cbn [fst] in Hk. subst k. now apply in_combine_l in Hin.
  - now apply IH.
Qed.

(** X15: the scope of a call in [lisp.py].  In the environment a call
    makes for the parameters [names] and the arguments [args], a
    parameter that took an argument has that argument as its value
    (the parameters being distinct), and every other symbol resolves as
    it does in the environment the procedure holds, the one where its
    lambda was evaluated. *)
Theorem call_frame_scope (n : nat) (names : list string) (args : list value)
  (penv : addr) (h : Lisp1.heap) :
  let local := List.length h in
  let h' := Lisp1.Frame (dict_update [] (combine names args)) (Some penv) :: h in
  Lisp1.new_env (VList (map VStr names)) args penv h = (Ok local, h')
  /\ (forall name v, NoDup names -> In (name, v) (combine names args) ->
        Lisp1.eval (S n) (VStr name) local h' = (Ok v, h'))
  /\ (forall y, ~ In y (map fst (combine names args)) ->
        Lisp1.find h' local y = Lisp1.find h penv y
        /\ fst (Lisp1.eval (S n) (VStr y) local h')
           = fst (Lisp1.eval (S n) (VStr y) penv h)).
Proof.
  intros local h'. split; [apply lisp1_new_env|]. split.
  - intros name v Hn Hin.
    pose proof (dict_update_in _ [] _ _ (combine_keys_nodup _ args Hn) Hin) as Hg.
    rewrite lisp1_eval_symbol. subst h' local. cbn [Lisp1.find Lisp1.vars].
    rewrite Nat.eqb_refl. unfold dict_mem. rewrite Hg.
    cbn [heap_get]. rewrite Nat.eqb_refl. cbn [Lisp1.vars]. now rewrite Hg.
  - intros y Hy.
    pose proof (dict_update_other (combine names args) [] y Hy) as Hg.
    cbn [dict_get] in Hg.
    assert (Hf : Lisp1.find h' local y = Lisp1.find h penv y).
    { subst h' local. cbn [Lisp1.find Lisp1.vars Lisp1.outer].
      rewrite Nat.eqb_refl. unfold dict_mem. now rewrite Hg. }
    split; [exact Hf|]. rewrite !lisp1_eval_symbol, Hf.
    destruct (Lisp1.find h penv y) as [a|] eqn:E; [|reflexivity].
    destruct (find_owns _ _ _ _ E) as (f & Hgf & _).
    pose proof (heap_get_bound _ _ _ Hgf) as Hb.
    subst h'. rewrite (heap_get_older _ _ _ Hb), Hgf.
    destruct (dict_get (Lisp1.vars f) y); reflexivity.
Qed.

Lemma call_frame_scope_witness :
  Lisp1.eval 1 (VStr "y") 1%nat
    (Lisp1.Frame (dict_update [] (combine ["x"; "y"] [VInt 1; VInt 2]))
       (Some Lisp1.global_env) :: Lisp1.init_heap)
  = (Ok (VInt 2),
     Lisp1.Frame (dict_update [] (combine ["x"; "y"] [VInt 1; VInt 2]))
       (Some Lisp1.global_env) :: Lisp1.init_heap).
Proof.
  apply (proj1 (proj2 (call_frame_scope 0 ["x"; "y"] [VInt 1; VInt 2]
                         Lisp1.global_env Lisp1.init_heap))).
  - repeat constructor; simpl; intuition discriminate.
  - simpl. tauto.
Defined.

(** X16: [_apply] of [lisp.py] is the evaluator's application for a
    [Procedure] only: where the operator of a list evaluates to a
    procedure, the list evaluates to what [_apply] returns on the
    procedure and the values of the operands; where it evaluates to a
    primitive, the evaluator calls the primitive, and [_apply] on the
    same primitive and operands raises its TypeError and leaves the
    store as it is. *)
Theorem apply_is_application (n : nat) (env : addr) (h h1 h2 : Lisp1.heap)
  (head fn : value) (rest args : list value) :
  Lisp1.is_special head = false ->
  Lisp1.eval n head env h = (Ok fn, h1) ->
  eval_each (fun e => Lisp1.eval n e env) rest h1 = (Ok args, h2) ->
  (forall params body penv, fn = VProc params body penv ->
     Lisp1.eval (S n) (VList (head :: rest)) env h = _apply n fn args h2)
  /\ (forall name penv, fn = VPrim name penv ->
        Lisp1.eval (S n) (VList (head :: rest)) env h
        = (Lisp1.apply_prim name args, h2)
        /\ _apply n fn args h2 = (Raise TypeError_not_callable, h2)).
Proof.
  intros Hs Hh Hr. split.
  - intros params body penv ->. unfold _apply.
    exact (lisp1_apply_procedure n env h h1 h2 head params body penv rest args
             Hs Hh Hr).
  - intros name penv ->. split; [|reflexivity].
    not_special Hs. cbn [Lisp1.eval].
    rewrite Hs0, Hs1, Hs2, Hs3, Hs4, Hs5. cbn [orb].
    unfold bind. now rewrite Hh, Hr.
Qed.

Lemma apply_is_application_witness :
  Lisp1.eval 2 (VList [VStr "+"; VInt 1; VInt 2]) Lisp1.global_env Lisp1.init_heap
  = (Lisp1.apply_prim "+" [VInt 1; VInt 2], Lisp1.init_heap)
  /\ _apply 1 (VPrim "+" Lisp1.global_env) [VInt 1; VInt 2] Lisp1.init_heap
     = (Raise TypeError_not_callable, Lisp1.init_heap).
Proof.
  exact (proj2 (apply_is_application 1 Lisp1.global_env Lisp1.init_heap
                  Lisp1.init_heap Lisp1.init_heap (VStr "+")
                  (VPrim "+" Lisp1.global_env) [VInt 1; VInt 2] [VInt 1; VInt 2]
                  eq_refl eq_refl eq_refl) "+" Lisp1.global_env eq_refl).
Defined.

(** ** Special forms and the primitives they call *)

Lemma lisp2_global_kept (n : nat) (e : value) (env : addr) (h h1 : envs)
  (r : res value) (name : string) (f : value) :
  env <> Lisp2.global_env ->
  env_item h Lisp2.global_env name = Ok f ->
  Lisp2.eval n e env h = (r, h1) ->
  env_item h1 Lisp2.global_env name = Ok f.
Proof.
  intros Hne Hi He. unfold env_item in *.
  destruct (heap_get h Lisp2.global_env) as [d|] eqn:Hg; [|discriminate].
  destruct (lisp2_eval_keeps n e env _ _ _ He) as [_ G].
  rewrite G, Hg; [exact Hi | congruence | exact (heap_get_bound _ _ _ Hg)].
Qed.

(** X17: the forms [atom], [car], [cdr], [eq] and [cons] of [lisp2.py]
    call the primitive of the module's global environment: evaluated in
    another environment, they apply that primitive to the values of
    their operands whatever that environment binds their name to.  In
    [lisp3.py] the form [car] looks its name up in the environment it is
    evaluated in, once the operand is evaluated: it calls the primitive
    when the name is bound to it, and a function a [defun] has bound to
    the name takes the primitive's place. *)
Theorem forms_and_the_global_primitives :
  (forall (n : nat) (env : addr) (h h1 : envs) (name : string) (p : addr)
          (a va : value),
      env <> Lisp2.global_env ->
      env_item h Lisp2.global_env name = Ok (VPrim name p) ->
      Lisp2.eval n a env h = (Ok va, h1) ->
      (In name ["atom"; "car"; "cdr"] ->
       Lisp2.eval (S n) (VList [VStr name; a]) env h
       = (Lisp2.apply_prim h1 name p [va], h1))
      /\ (forall (b vb : value) (h2 : envs),
            In name ["eq"; "cons"] ->
            Lisp2.eval n b env h1 = (Ok vb, h2) ->
            Lisp2.eval (S n) (VList [VStr name; a; b]) env h
            = (Lisp2.apply_prim h2 name p [va; vb], h2)))
  /\ (forall (n : nat) (env : addr) (g g1 : envs) (a va : value)
             (params body : value) (fenv : addr),
        Lisp3.eval n a env g = (Ok va, g1) ->
        env_item g1 env "car" = Ok (VProc params body fenv) ->
        Lisp3.eval (S n) (VList [VStr "car"; a]) env g
        = (local_env <- env_copy fenv ;;
           _ <- env_bind local_env params [va] ;;
           Lisp3.eval n body local_env) g1)
  /\ (forall (n : nat) (env : addr) (g g1 : envs) (a va : value)
             (q : string) (p : addr),
        Lisp3.eval n a env g = (Ok va, g1) ->
        env_item g1 env "car" = Ok (VPrim q p) ->
        Lisp3.eval (S n) (VList [VStr "car"; a]) env g
        = (Lisp3.apply_prim g1 q p [va], g1)).
Proof.
  split; [|split].
  - intros n env h h1 name p a va Hne Hi Ha.
    pose proof (lisp2_global_kept _ _ _ _ _ _ _ _ Hne Hi Ha) as Hi1.
    split.
    + intros Hin. cbn [In] in Hin.
      destruct Hin as [<-|[<-|[<-|[]]]];
        cbn [Lisp2.eval eq_str String.eqb Ascii.eqb Bool.eqb];
        unfold bind; rewrite Ha; unfold Lisp2.call_global; now rewrite Hi1.
    + intros b vb h2 Hin Hb.
      pose proof (lisp2_global_kept _ _ _ _ _ _ _ _ Hne Hi1 Hb) as Hi2.
      cbn [In] in Hin.
      destruct Hin as [<-|[<-|[]]];
        cbn [Lisp2.eval eq_str String.eqb Ascii.eqb Bool.eqb];
        unfold bind; rewrite Ha, Hb; unfold Lisp2.call_global; now rewrite Hi2.
  - intros n env g g1 a va params body fenv Hg1 Hk.
    cbn [Lisp3.eval eq_str String.eqb Ascii.eqb Bool.eqb orb eval_each].
    match goal with |- _ = ?R => remember R as rhs eqn:Er end.
    unfold bind, ret. rewrite Hg1, Hk. subst rhs. reflexivity.
  - intros n env g g1 a va q p Hg1 Hk.
    cbn [Lisp3.eval eq_str String.eqb Ascii.eqb Bool.eqb orb eval_each].
    unfold bind, ret. now rewrite Hg1, Hk.
Qed.

Lemma forms_and_the_global_primitives_witness :
  Lisp2.eval 2 (VList [VStr "car"; VList [VStr "quote"; VList [VInt 1; VInt 2]]])
    lisp2_demo_env
    (heap_set lisp2_demo_heap lisp2_demo_env [("car", VInt 0)])
  = (Ok (VInt 1), heap_set lisp2_demo_heap lisp2_demo_env [("car", VInt 0)])
  /\ (let g := snd (Lisp3.run 2 "(defun car (x) x)" 0%nat Lisp3.init_heap) in
      env_item g 0%nat "car" = Ok (VProc (VList [VStr "x"]) (VStr "x") 0%nat)
      /\ fst (Lisp3.eval 2
                (VList [VStr "car"; VList [VStr "quote"; VList [VInt 1; VInt 2]]])
                0%nat g)
         = Ok (VList [VInt 1; VInt 2]))
  /\ Lisp3.eval 2 (VList [VStr "car"; VList [VStr "quote"; VList [VInt 1; VInt 2]]])
       0%nat Lisp3.init_heap
     = (Ok (VInt 1), Lisp3.init_heap).
Proof.
  split; [|split].
  - exact (proj1 (proj1 forms_and_the_global_primitives 1%nat lisp2_demo_env
                    (heap_set lisp2_demo_heap lisp2_demo_env [("car", VInt 0)])
                    (heap_set lisp2_demo_heap lisp2_demo_env [("car", VInt 0)])
                    "car" Lisp2.global_env
                    (VList [VStr "quote"; VList [VInt 1; VInt 2]])
                    (VList [VInt 1; VInt 2])
                    ltac:(discriminate) eq_refl eq_refl)
             (or_intror (or_introl eq_refl))).
  - intros g. split; [reflexivity|].
    rewrite (proj1 (proj2 forms_and_the_global_primitives) 1%nat 0%nat g g
               (VList [VStr "quote"; VList [VInt 1; VInt 2]])
               (VList [VInt 1; VInt 2]) (VList [VStr "x"]) (VStr "x") 0%nat
               eq_refl eq_refl).
    reflexivity.
  - exact (proj2 (proj2 forms_and_the_global_primitives) 1%nat 0%nat
             Lisp3.init_heap Lisp3.init_heap
             (VList [VStr "quote"; VList [VInt 1; VInt 2]])
             (VList [VInt 1; VInt 2]) "car" 0%nat eq_refl eq_refl).
Defined.

(** ** What a function holds *)

(** X18: what a function made by [defun] holds.  In [lisp2.py] it
    holds a copy of the environment, made before the name is bound: the
    copy has the bindings the environment had then, the function's own
    name is bound in it only if it was bound before, and no later
    evaluation in any other environment changes it.  In [lisp3.py] it
    holds the environment itself, in which the name is bound to the
    function. *)
Theorem defun_environment (n : nat) (env : addr) (name : string)
  (params body : value) (g : envs) (d : dict) :
  heap_get g env = Some d ->
  let held := List.length g in
  let g2 := heap_set (d :: g) env (dict_set d name (VProc params body held)) in
  let g3 := heap_set g env (dict_set d name (VProc params body env)) in
  (Lisp2.eval (S n) (VList [VStr "defun"; VStr name; params; body]) env g
   = (Ok (VStr name), g2)
   /\ env_item g2 env name = Ok (VProc params body held)
   /\ heap_get g2 held = Some d
   /\ (forall m x env' r g', env' <> held -> Lisp2.eval m x env' g2 = (r, g') ->
         heap_get g' held = Some d
         /\ (dict_get d name = None -> name <> "NIL" ->
             Lisp2.eval (S m) (VStr name) held g' = (Ok (VStr name), g'))))
  /\ (Lisp3.eval (S n) (VList [VStr "defun"; VStr name; params; body]) env g
      = (Ok (VStr name), g3)
      /\ env_item g3 env name = Ok (VProc params body env)).
Proof.
  intros Hd held g2 g3. pose proof (heap_get_bound _ _ _ Hd) as Hb.
  assert (Hd' : heap_get (d :: g) env = Some d)
    by (now rewrite (heap_get_older _ _ _ Hb)).
  assert (Hheld : heap_get g2 held = Some d).
  { subst g2 held. rewrite heap_get_set_other by lia. apply heap_get_alloc. }
  split; [split; [|split; [|split]]|split].
  - now apply lisp2_defun_copies_env.
  - unfold env_item. subst g2. rewrite (heap_get_set_same _ _ _ _ Hd').
    now rewrite dict_get_set_same.
  - exact Hheld.
  - intros m x env' r g' Hne H.
    destruct (lisp2_eval_keeps m x env' _ _ _ H) as [_ G].
    assert (Hg' : heap_get g' held = Some d).
    { rewrite G; [exact Hheld | exact (fun E => Hne (eq_sym E))
                 | exact (heap_get_bound _ _ _ Hheld)]. }
    split; [exact Hg'|]. intros Hn Hnil. cbn [Lisp2.eval].
    destruct (String.eqb_spec name "NIL") as [E|_]; [contradiction|].
    unfold env_get_default. now rewrite Hg', Hn.
  - cbn [Lisp3.eval eq_str String.eqb Ascii.eqb Bool.eqb orb].
    unfold bind, env_store, ret. now rewrite Hd.
  - unfold env_item. subst g3. rewrite (heap_get_set_same _ _ _ _ Hd).
    now rewrite dict_get_set_same.
Qed.

Lemma defun_environment_witness :
  env_item
    (heap_set (global_dict Lisp2.prim_names 1%nat :: lisp2_demo_heap) lisp2_demo_env
       (dict_set (global_dict Lisp2.prim_names 1%nat) "f"
          (VProc (VList []) (VList [VStr "f"]) 2%nat)))
    lisp2_demo_env "f"
  = Ok (VProc (VList []) (VList [VStr "f"]) 2%nat)
  /\ heap_get
       (heap_set (global_dict Lisp2.prim_names 1%nat :: lisp2_demo_heap) lisp2_demo_env
          (dict_set (global_dict Lisp2.prim_names 1%nat) "f"
             (VProc (VList []) (VList [VStr "f"]) 2%nat)))
       2%nat
     = Some (global_dict Lisp2.prim_names 1%nat).
Proof.
  pose proof (proj1 (defun_environment 0%nat lisp2_demo_env "f" (VList [])
                       (VList [VStr "f"]) lisp2_demo_heap
                       (global_dict Lisp2.prim_names 1%nat) eq_refl)) as H.
  split; [exact (proj1 (proj2 H)) | exact (proj1 (proj2 (proj2 H)))].
Defined.

(* end of file *)
